(** * createAsyncThunk: the asynchronous task lifecycle engine

    A shallow embedding of [packages/toolkit/src/createAsyncThunk.ts]:
    the three action creators [pending], [fulfilled], [rejected], the
    default error serializer [miniSerializeError], [unwrapResult], and the
    body of the thunk returned by [actionCreator], run on a model of the
    promise job queue. *)

From Stdlib Require Import List String Ascii ZArith Bool Lia DecimalString.
Import ListNotations.
Open Scope string_scope.

(** ** JavaScript values *)

(** The values the engine inspects.  A plain object is its list of own
    enumerable properties in insertion order.  The two classes
    [RejectWithValue] and [FulfillWithMeta] (lines 65-87) are the only
    classes the code tests with [instanceof]; an instance has the two
    properties [payload] and [meta].  No value of this type is callable,
    so [isThenable] (lines 825-831) is false on all of them: promises are
    modelled apart, in the job-queue machine below. *)
#[local] Set Warnings "-register-all".
Inductive value : Type :=
| VUndef
| VNull
| VBool (b : bool)
| VNum (n : Z)
| VStr (s : string)
| VObj (props : list (string * value))
| VRejectWithValue (payload meta : value)
| VFulfillWithMeta (payload meta : value).
#[local] Set Warnings "register-all".

Definition object := list (string * value).

(** JavaScript truthiness, as used by [!!x], [x || y] and [if (x)]. *)
Definition truthy (v : value) : bool :=
  match v with
  | VUndef | VNull => false
  | VBool b => b
  | VNum n => negb (Z.eqb n 0)
  | VStr s => negb (String.eqb s "")
  | VObj _ | VRejectWithValue _ _ | VFulfillWithMeta _ _ => true
  end.

(** [a || b] *)
Definition js_or (a b : value) : value := if truthy a then a else b.

(** [typeof v === 'string'] *)
Definition is_string (v : value) : bool :=
  match v with VStr _ => true | _ => false end.

(** [typeof v === 'object' && v !== null] *)
Definition is_object (v : value) : bool :=
  match v with
  | VObj _ | VRejectWithValue _ _ | VFulfillWithMeta _ _ => true
  | _ => false
  end.

(** [v === s] for a string literal [s] *)
Definition is_str (v : value) (s : string) : bool :=
  match v with VStr t => String.eqb t s | _ => false end.

(** [v === false] *)
Definition is_false (v : value) : bool :=
  match v with VBool false => true | _ => false end.

(** ** Objects *)

Fixpoint obj_get (k : string) (o : object) : option value :=
  match o with
  | [] => None
  | (k', v) :: o' => if String.eqb k k' then Some v else obj_get k o'
  end.

(** [o[k] = v]: an existing key keeps its place, a new key is appended. *)
Fixpoint obj_set (k : string) (v : value) (o : object) : object :=
  match o with
  | [] => [(k, v)]
  | (k', v') :: o' =>
      if String.eqb k k' then (k, v) :: o' else (k', v') :: obj_set k v o'
  end.

(** [k in o] *)
Definition obj_has (k : string) (o : object) : bool :=
  match obj_get k o with Some _ => true | None => false end.

(** The characters of a string as index-keyed properties, which is what a
    spread of a string copies. *)
Fixpoint string_props (i : nat) (s : string) : object :=
  match s with
  | EmptyString => []
  | String c s' =>
      (NilEmpty.string_of_uint (Nat.to_uint i), VStr (String c EmptyString))
        :: string_props (S i) s'
  end.

(** The own enumerable properties of a value: what [{...v}] copies. *)
Definition own_props (v : value) : object :=
  match v with
  | VObj o => o
  | VRejectWithValue p m | VFulfillWithMeta p m => [("payload", p); ("meta", m)]
  | VStr s => string_props 0 s
  | _ => []
  end.

(** [v[k]]; [undefined] when the property is missing.  Only used on
    [name], [message], [stack], [code], [payload], [meta], [error],
    [type] and the meta flags, none of which a primitive carries. *)
Definition get (v : value) (k : string) : value :=
  match v with
  | VObj _ | VRejectWithValue _ _ | VFulfillWithMeta _ _ =>
      match obj_get k (own_props v) with Some x => x | None => VUndef end
  | _ => VUndef
  end.

(** [{...src, k1: v1, ..., kn: vn}]: the spread first, then the literal's
    own fields in order. *)
Definition spread (src : object) : object :=
  fold_left (fun acc kv => obj_set (fst kv) (snd kv) acc) src [].

Definition with_fields (base : object) (fields : list (string * value)) : object :=
  fold_left (fun acc kv => obj_set (fst kv) (snd kv) acc) fields base.

(** ** The default error serializer *)

Definition commonProperties : list string := ["name"; "message"; "stack"; "code"].

(** [String(value)] for the primitives [miniSerializeError] can meet. *)
Definition string_of_Z (n : Z) : string :=
  match n with
  | Z0 => "0"
  | Zpos p => NilEmpty.string_of_uint (Pos.to_uint p)
  | Zneg p => "-" ++ NilEmpty.string_of_uint (Pos.to_uint p)
  end.

Definition js_String (v : value) : string :=
  match v with
  | VUndef => "undefined"
  | VNull => "null"
  | VBool true => "true"
  | VBool false => "false"
  | VNum n => string_of_Z n
  | VStr s => s
  | _ => "[object Object]"
  end.

(** Lines 95-108. *)
Definition miniSerializeError (v : value) : value :=
  if is_object v then
    VObj (fold_left
            (fun simpleError property =>
               if is_string (get v property)
               then obj_set property (get v property) simpleError
               else simpleError)
            commonProperties [])
  else VObj [("message", VStr (js_String v))].

(** ** Options of a thunk definition (lines 277-337) *)

(** What a call of [condition] or of the payload creator hands back: a
    synchronous throw, a value that is not thenable, or a promise in the
    state it has when it is returned (settled later by the environment
    when it is still pending). *)
Inductive pstate : Type :=
| Pending
| Fulfilled (v : value)
| Rejected (e : value).

Inductive call_result : Type :=
| Throws (e : value)
| Returns (v : value)
| ReturnsPromise (p : pstate).

Record options : Type := {
  condition : option (value -> call_result);
  dispatchConditionRejection : value;
  serializeError : option (value -> value);
  idGenerator : option (value -> string);
  getPendingMeta : option (string -> value -> value)
}.

(** ** The action creators *)

(** Modelled from the spec: [createAction] of [./createAction], which is
    not among the sources.  Section 6 describes it as the factory that,
    given a label and a payload/metadata shaping function, returns a
    callable producing a tagged event object carrying a discriminant
    field.  The event is [{type, payload}] plus [meta] and [error] when
    the shaping function's result has them; [prepared] is that result. *)
Definition createAction (type : string) (prepared : object) : value :=
  VObj (with_fields
          [("type", VStr type);
           ("payload", match obj_get "payload" prepared with
                       | Some p => p | None => VUndef end)]
          ((match obj_get "meta" prepared with
            | Some m => [("meta", m)] | None => [] end)
           ++ (match obj_get "error" prepared with
               | Some e => [("error", e)] | None => [] end))).

(** Modelled from the spec: the [match] of an event constructor, the test
    on the discriminant field that a downstream layer branches on. *)
Definition action_match (type : string) (action : value) : bool :=
  is_str (get action "type") type.

Section ActionCreators.

Variable typePrefix : string.
Variable opts : option options.

(** Lines 501-524.  [meta] is [VUndef] when the argument is omitted. *)
Definition fulfilled (payload : value) (requestId : string) (arg meta : value) : value :=
  createAction (typePrefix ++ "/fulfilled")
    [("payload", payload);
     ("meta", VObj (with_fields (spread (own_props (js_or meta (VObj []))))
                      [("arg", arg);
                       ("requestId", VStr requestId);
                       ("requestStatus", VStr "fulfilled")]))].

(** Lines 527-539. *)
Definition pending (requestId : string) (arg meta : value) : value :=
  createAction (typePrefix ++ "/pending")
    [("payload", VUndef);
     ("meta", VObj (with_fields (spread (own_props (js_or meta (VObj []))))
                      [("arg", arg);
                       ("requestId", VStr requestId);
                       ("requestStatus", VStr "pending")]))].

(** [(options && options.serializeError) || miniSerializeError] *)
Definition the_serializer : value -> value :=
  match opts with
  | Some o => match serializeError o with
              | Some f => f
              | None => miniSerializeError
              end
  | None => miniSerializeError
  end.

(** Lines 542-566.  [payload] and [meta] are [VUndef] when omitted. *)
Definition rejected (error : value) (requestId : string) (arg payload meta : value) : value :=
  createAction (typePrefix ++ "/rejected")
    [("payload", payload);
     ("error", the_serializer (js_or error (VStr "Rejected")));
     ("meta", VObj (with_fields (spread (own_props (js_or meta (VObj []))))
                      [("arg", arg);
                       ("requestId", VStr requestId);
                       ("rejectedWithValue", VBool (truthy payload));
                       ("requestStatus", VStr "rejected");
                       ("aborted", VBool (is_str (get error "name") "AbortError"));
                       ("condition", VBool (is_str (get error "name") "ConditionError"))]))].

End ActionCreators.

(** ** [unwrapResult] (lines 808-819) *)

(** The result of a function that may throw. *)
Inductive completion : Type :=
| Normal (v : value)
| Throw (e : value).

Definition unwrapResult (action : value) : completion :=
  if truthy (get action "meta") && truthy (get (get action "meta") "rejectedWithValue")
  then Throw (get action "payload")
  else if truthy (get action "error")
       then Throw (get action "error")
       else Normal (get action "payload").

(** [promise.then(unwrapResult)] (lines 752-754), as a function of the
    state of [promise]. *)
Definition then_unwrap (p : pstate) : pstate :=
  match p with
  | Pending => Pending
  | Fulfilled a => match unwrapResult a with
                   | Normal v => Fulfilled v
                   | Throw e => Rejected e
                   end
  | Rejected e => Rejected e
  end.

(** ** The thunk on a job queue *)

(** The collaborators of one invocation.  [AbortController_defined] says
    whether the platform has a native [AbortController] (line 573);
    [nanoid] is the identifier the default generator returns for this
    invocation; [dispatch_throws a] is [Some e] when [dispatch(a)] throws
    [e] (its return value is ignored by the engine). *)
Record environment : Type := {
  AbortController_defined : bool;
  nanoid : string;
  dispatch_throws : value -> option value
}.

(** One call of the payload creator: the [thunkAPI.abort(reason)] calls it
    makes before it returns, and what it returns. *)
Record creator_run : Type := {
  sync_aborts : list value;
  outcome : call_result
}.

(** A reaction job of the promise job queue.  [JCond] resumes the async
    function after [await conditionResult] (line 650); [JThen] runs the
    [.then] callback of lines 702-713; [JRace] is one of the two
    subscriptions of [Promise.race] (line 679); [JAwait] resumes the
    async function after [await Promise.race(...)]. *)
Inductive job : Type :=
| JCond (c : completion)
| JThen (c : completion)
| JRace (c : completion)
| JAwait (c : completion).

(** Where the async function of lines 640-743 is suspended. *)
Inductive phase : Type :=
| AtCondition
| AtRace
| Done.

Record state : Type := {
  started : bool;                     (* line 627 *)
  abortReason : value;                (* line 617 *)
  signal_aborted : bool;              (* abortController.signal.aborted *)
  conditionPromise : option pstate;   (* the thenable [condition] returned *)
  payloadPromise : option pstate;     (* Promise.resolve(payloadCreator(...)) *)
  abortedPromise : pstate;            (* line 620 *)
  thenPromise : pstate;               (* the promise [.then] returns, line 702 *)
  racePromise : pstate;               (* the promise Promise.race returns *)
  promise : pstate;                   (* line 640 *)
  at_phase : phase;
  jobs : list job;
  dispatched : list value;            (* arguments of dispatch, oldest first *)
  invoked : nat                       (* calls of payloadCreator *)
}.

Definition set_started b s :=
  {| started := b; abortReason := abortReason s; signal_aborted := signal_aborted s;
     conditionPromise := conditionPromise s; payloadPromise := payloadPromise s;
     abortedPromise := abortedPromise s; thenPromise := thenPromise s;
     racePromise := racePromise s; promise := promise s; at_phase := at_phase s;
     jobs := jobs s; dispatched := dispatched s; invoked := invoked s |}.
Definition set_abortReason r s :=
  {| started := started s; abortReason := r; signal_aborted := signal_aborted s;
     conditionPromise := conditionPromise s; payloadPromise := payloadPromise s;
     abortedPromise := abortedPromise s; thenPromise := thenPromise s;
     racePromise := racePromise s; promise := promise s; at_phase := at_phase s;
     jobs := jobs s; dispatched := dispatched s; invoked := invoked s |}.
Definition set_signal_aborted b s :=
  {| started := started s; abortReason := abortReason s; signal_aborted := b;
     conditionPromise := conditionPromise s; payloadPromise := payloadPromise s;
     abortedPromise := abortedPromise s; thenPromise := thenPromise s;
     racePromise := racePromise s; promise := promise s; at_phase := at_phase s;
     jobs := jobs s; dispatched := dispatched s; invoked := invoked s |}.
Definition set_conditionPromise p s :=
  {| started := started s; abortReason := abortReason s; signal_aborted := signal_aborted s;
     conditionPromise := p; payloadPromise := payloadPromise s;
     abortedPromise := abortedPromise s; thenPromise := thenPromise s;
     racePromise := racePromise s; promise := promise s; at_phase := at_phase s;
     jobs := jobs s; dispatched := dispatched s; invoked := invoked s |}.
Definition set_payloadPromise p s :=
  {| started := started s; abortReason := abortReason s; signal_aborted := signal_aborted s;
     conditionPromise := conditionPromise s; payloadPromise := p;
     abortedPromise := abortedPromise s; thenPromise := thenPromise s;
     racePromise := racePromise s; promise := promise s; at_phase := at_phase s;
     jobs := jobs s; dispatched := dispatched s; invoked := invoked s |}.
Definition set_abortedPromise p s :=
  {| started := started s; abortReason := abortReason s; signal_aborted := signal_aborted s;
     conditionPromise := conditionPromise s; payloadPromise := payloadPromise s;
     abortedPromise := p; thenPromise := thenPromise s;
     racePromise := racePromise s; promise := promise s; at_phase := at_phase s;
     jobs := jobs s; dispatched := dispatched s; invoked := invoked s |}.
Definition set_thenPromise p s :=
  {| started := started s; abortReason := abortReason s; signal_aborted := signal_aborted s;
     conditionPromise := conditionPromise s; payloadPromise := payloadPromise s;
     abortedPromise := abortedPromise s; thenPromise := p;
     racePromise := racePromise s; promise := promise s; at_phase := at_phase s;
     jobs := jobs s; dispatched := dispatched s; invoked := invoked s |}.
Definition set_racePromise p s :=
  {| started := started s; abortReason := abortReason s; signal_aborted := signal_aborted s;
     conditionPromise := conditionPromise s; payloadPromise := payloadPromise s;
     abortedPromise := abortedPromise s; thenPromise := thenPromise s;
     racePromise := p; promise := promise s; at_phase := at_phase s;
     jobs := jobs s; dispatched := dispatched s; invoked := invoked s |}.
Definition set_promise p s :=
  {| started := started s; abortReason := abortReason s; signal_aborted := signal_aborted s;
     conditionPromise := conditionPromise s; payloadPromise := payloadPromise s;
     abortedPromise := abortedPromise s; thenPromise := thenPromise s;
     racePromise := racePromise s; promise := p; at_phase := at_phase s;
     jobs := jobs s; dispatched := dispatched s; invoked := invoked s |}.
Definition set_phase p s :=
  {| started := started s; abortReason := abortReason s; signal_aborted := signal_aborted s;
     conditionPromise := conditionPromise s; payloadPromise := payloadPromise s;
     abortedPromise := abortedPromise s; thenPromise := thenPromise s;
     racePromise := racePromise s; promise := promise s; at_phase := p;
     jobs := jobs s; dispatched := dispatched s; invoked := invoked s |}.
Definition set_jobs q s :=
  {| started := started s; abortReason := abortReason s; signal_aborted := signal_aborted s;
     conditionPromise := conditionPromise s; payloadPromise := payloadPromise s;
     abortedPromise := abortedPromise s; thenPromise := thenPromise s;
     racePromise := racePromise s; promise := promise s; at_phase := at_phase s;
     jobs := q; dispatched := dispatched s; invoked := invoked s |}.
Definition set_dispatched l s :=
  {| started := started s; abortReason := abortReason s; signal_aborted := signal_aborted s;
     conditionPromise := conditionPromise s; payloadPromise := payloadPromise s;
     abortedPromise := abortedPromise s; thenPromise := thenPromise s;
     racePromise := racePromise s; promise := promise s; at_phase := at_phase s;
     jobs := jobs s; dispatched := l; invoked := invoked s |}.
Definition set_invoked n s :=
  {| started := started s; abortReason := abortReason s; signal_aborted := signal_aborted s;
     conditionPromise := conditionPromise s; payloadPromise := payloadPromise s;
     abortedPromise := abortedPromise s; thenPromise := thenPromise s;
     racePromise := racePromise s; promise := promise s; at_phase := at_phase s;
     jobs := jobs s; dispatched := dispatched s; invoked := n |}.

Definition enqueue (j : job) (s : state) : state := set_jobs (jobs s ++ [j]) s.

(** The state of a settled promise as the completion its reactions see. *)
Definition settled (p : pstate) : option completion :=
  match p with
  | Pending => None
  | Fulfilled v => Some (Normal v)
  | Rejected e => Some (Throw e)
  end.

Definition settle_with (c : completion) : pstate :=
  match c with Normal v => Fulfilled v | Throw e => Rejected e end.

Section Thunk.

(** [createAsyncThunk(typePrefix, payloadCreator, options)] called with
    [arg] and then with the collaborators of [env]. *)
Variable typePrefix : string.
Variable payloadCreator : value -> string -> creator_run.
Variable opts : option options.
Variable env : environment.
Variable arg : value.

(** Lines 609-611. *)
Definition requestId : string :=
  match opts with
  | Some o => match idGenerator o with
              | Some gen => gen arg
              | None => nanoid env
              end
  | None => nanoid env
  end.

(** Lines 614-627: everything pending, nothing started. *)
Definition initial : state :=
  {| started := false; abortReason := VUndef; signal_aborted := false;
     conditionPromise := None; payloadPromise := None;
     abortedPromise := Pending; thenPromise := Pending;
     racePromise := Pending; promise := Pending; at_phase := AtCondition;
     jobs := []; dispatched := []; invoked := 0 |}.

(** [abortController.abort()].  The native controller fires the [abort]
    event once, and the listener of lines 621-623 rejects
    [abortedPromise]; [Promise.race] reacts when it has subscribed,
    which it does right after [payloadPromise] is made.  The fallback
    class of lines 575-598 has an inert signal. *)
Definition controller_abort (s : state) : state :=
  if AbortController_defined env && negb (signal_aborted s) then
    let s := set_signal_aborted true s in
    match abortedPromise s with
    | Pending =>
        let e := VObj [("name", VStr "AbortError");
                       ("message", js_or (abortReason s) (VStr "Aborted"))] in
        let s := set_abortedPromise (Rejected e) s in
        match payloadPromise s with
        | Some _ => enqueue (JRace (Throw e)) s
        | None => s
        end
    | _ => s
    end
  else s.

(** Lines 630-636. *)
Definition abort (reason : value) (s : state) : state :=
  if started s then controller_abort (set_abortReason reason s) else s.

(** Lines 730-742: the final dispatch and the return. *)
Definition skipDispatch (finalAction : value) : bool :=
  match opts with
  | Some o =>
      negb (truthy (dispatchConditionRejection o))
      && action_match (typePrefix ++ "/rejected") finalAction
      && truthy (get (get finalAction "meta") "condition")
  | None => false
  end.

Definition finish (finalAction : value) (s : state) : state :=
  let s := set_phase Done s in
  if skipDispatch finalAction then set_promise (Fulfilled finalAction) s
  else
    let s := set_dispatched (dispatched s ++ [finalAction]) s in
    match dispatch_throws env finalAction with
    | Some e => set_promise (Rejected e) s
    | None => set_promise (Fulfilled finalAction) s
    end.

(** Lines 718-723. *)
Definition catch (err : value) (s : state) : state :=
  finish (match err with
          | VRejectWithValue p m => rejected typePrefix opts VNull requestId arg p m
          | _ => rejected typePrefix opts err requestId arg VUndef VUndef
          end) s.

Definition ConditionError : value :=
  VObj [("name", VStr "ConditionError");
        ("message", VStr "Aborted due to condition callback returning false.")].

(** The two wrapper constructors handed to the payload creator (lines
    692-700). *)
Definition rejectWithValue (payload meta : value) : value :=
  VRejectWithValue payload meta.
Definition fulfillWithValue (payload meta : value) : value :=
  VFulfillWithMeta payload meta.

(** Lines 679-714, after the payload creator has returned [p]: [.then]
    subscribes to it, then [Promise.race] subscribes to [abortedPromise]
    and to the promise [.then] returned, then the function awaits. *)
Definition start_race (p : pstate) (s : state) : state :=
  let s := set_payloadPromise (Some p) s in
  let s := match settled p with
           | Some c => enqueue (JThen c) s
           | None => s
           end in
  let s := match abortedPromise s with
           | Rejected e => enqueue (JRace (Throw e)) s
           | _ => s
           end in
  set_phase AtRace s.

(** Lines 653-714, entered with the value of [conditionResult]. *)
Definition after_condition (conditionResult : value) (s : state) : state :=
  if is_false conditionResult then catch ConditionError s
  else
    let s := set_started true s in
    let pendingMeta := match opts with
                       | Some o => match getPendingMeta o with
                                   | Some f => f requestId arg
                                   | None => VUndef
                                   end
                       | None => VUndef
                       end in
    let a := pending typePrefix requestId arg pendingMeta in
    let s := set_dispatched (dispatched s ++ [a]) s in
    match dispatch_throws env a with
    | Some e => catch e s
    | None =>
        let r := payloadCreator arg requestId in
        let s := set_invoked (S (invoked s)) s in
        let s := fold_left (fun s reason => abort reason s) (sync_aborts r) s in
        match outcome r with
        | Throws e => catch e s
        | Returns v => start_race (Fulfilled v) s
        | ReturnsPromise p => start_race p s
        end
    end.

(** Lines 640-651: the synchronous start of the async function. *)
Definition start : state :=
  match match opts with Some o => condition o | None => None end with
  | None => after_condition VUndef initial
  | Some cond =>
      match cond arg with
      | Throws e => catch e initial
      | Returns v => after_condition v initial
      | ReturnsPromise p =>
          let s := set_conditionPromise (Some p) initial in
          match settled p with
          | Some c => enqueue (JCond c) s
          | None => s
          end
      end
  end.

(** The [.then] callback of lines 702-713, and the pass-through of a
    rejection. *)
Definition then_callback (c : completion) : completion :=
  match c with
  | Normal result =>
      match result with
      | VRejectWithValue _ _ => Throw result
      | VFulfillWithMeta p m => Normal (fulfilled typePrefix p requestId arg m)
      | _ => Normal (fulfilled typePrefix result requestId arg VUndef)
      end
  | Throw e => Throw e
  end.

Definition run_job (j : job) (s : state) : state :=
  match j with
  | JCond (Normal v) => after_condition v s
  | JCond (Throw e) => catch e s
  | JThen c =>
      let d := then_callback c in
      enqueue (JRace d) (set_thenPromise (settle_with d) s)
  | JRace c =>
      match racePromise s with
      | Pending => enqueue (JAwait c) (set_racePromise (settle_with c) s)
      | _ => s
      end
  | JAwait (Normal a) => finish a s
  | JAwait (Throw e) => catch e s
  end.

(** What happens around the engine: a call of the handle's [abort], the
    settlement of a pending promise that [condition] or the payload
    creator returned, or the run of the next job of the queue. *)
Inductive event : Type :=
| Abort (reason : value)
| SettlePayload (c : completion)
| SettleCondition (c : completion)
| Microtask.

Definition step (s : state) (ev : event) : state :=
  match ev with
  | Abort reason => abort reason s
  | SettlePayload c =>
      match payloadPromise s with
      | Some Pending => enqueue (JThen c) (set_payloadPromise (Some (settle_with c)) s)
      | _ => s
      end
  | SettleCondition c =>
      match conditionPromise s with
      | Some Pending => enqueue (JCond c) (set_conditionPromise (Some (settle_with c)) s)
      | _ => s
      end
  | Microtask =>
      match jobs s with
      | [] => s
      | j :: q => run_job j (set_jobs q s)
      end
  end.

(** An upper bound on the jobs a queued job can lead to, itself
    included. *)
Definition job_weight (j : job) : nat :=
  match j with
  | JCond _ => 6
  | JThen _ => 3
  | JRace _ => 2
  | JAwait _ => 1
  end.

Fixpoint queue_weight (q : list job) : nat :=
  match q with
  | [] => 0
  | j :: q' => job_weight j + queue_weight q'
  end.

Fixpoint drain (fuel : nat) (s : state) : state :=
  match fuel with
  | 0 => s
  | S fuel' =>
      match jobs s with
      | [] => s
      | _ => drain fuel' (step s Microtask)
      end
  end.

(** The state once the events of [schedule] have happened, in order,
    and the job queue has run empty. *)
Definition run (schedule : list event) : state :=
  let s := fold_left step schedule start in
  drain (queue_weight (jobs s)) s.

(** The [unwrap()] of the handle (lines 752-754). *)
Definition unwrap (s : state) : pstate := then_unwrap (promise s).

End Thunk.

(** ** Vocabulary of the properties *)

(** [action.meta], and [k in v] for an object [v]. *)
Definition meta_of (action : value) : value := get action "meta".

Definition has_key (v : value) (k : string) : bool := obj_has k (own_props v).

(** The completions carried by the queued jobs of each kind, in queue
    order. *)
Definition conds (q : list job) : list completion :=
  flat_map (fun j => match j with JCond c => [c] | _ => [] end) q.
Definition thens (q : list job) : list completion :=
  flat_map (fun j => match j with JThen c => [c] | _ => [] end) q.
Definition races (q : list job) : list completion :=
  flat_map (fun j => match j with JRace c => [c] | _ => [] end) q.
Definition awaits (q : list job) : list completion :=
  flat_map (fun j => match j with JAwait c => [c] | _ => [] end) q.

(** An event contains no [Abort] call. *)
Definition is_abort (ev : event) : bool :=
  match ev with Abort _ => true | _ => false end.

Section Invariant.

Variable typePrefix : string.
Variable payloadCreator : value -> string -> creator_run.
Variable opts : option options.
Variable env : environment.
Variable arg : value.

#[local] Abbreviation id := (requestId opts env arg).

(** The pending event of this invocation (lines 665-676). *)
Definition pendingAction : value :=
  pending typePrefix id arg
    (match opts with
     | Some o => match getPendingMeta o with
                 | Some f => f id arg
                 | None => VUndef
                 end
     | None => VUndef
     end).

(** The rejected event the [catch] block builds from [err]. *)
Definition catch_action (err : value) : value :=
  match err with
  | VRejectWithValue p m => rejected typePrefix opts VNull id arg p m
  | _ => rejected typePrefix opts err id arg VUndef VUndef
  end.

(** [finalAction] when the race settles with [c]. *)
Definition final_action (c : completion) : value :=
  match c with
  | Normal a => a
  | Throw e => catch_action e
  end.

(** What the final dispatch adds to the dispatched events. *)
Definition shown (finalAction : value) : list value :=
  if skipDispatch typePrefix opts finalAction then [] else [finalAction].

(** A fulfilled or rejected event of this thunk. *)
Definition is_final (a : value) : bool :=
  action_match (typePrefix ++ "/fulfilled") a
  || action_match (typePrefix ++ "/rejected") a.

Definition good_completion (c : completion) : Prop :=
  match c with
  | Normal a => is_final a = true
  | Throw _ => True
  end.

(** The race is, or will be, settled with [d]. *)
Definition Decided (d : completion) (s : state) : Prop :=
  (at_phase s = AtRace /\ racePromise s = Pending
   /\ hd_error (races (jobs s)) = Some d)
  \/ (at_phase s = AtRace /\ awaits (jobs s) = [d])
  \/ (at_phase s = Done /\ promise s = Fulfilled (final_action d)
      /\ dispatched s = pendingAction :: shown (final_action d)).

(** What holds of every state the thunk reaches. *)
Record Inv (s : state) : Prop := {
  inv_cond :
    at_phase s = AtCondition ->
    started s = false /\ signal_aborted s = false
    /\ payloadPromise s = None /\ promise s = Pending
    /\ dispatched s = [] /\ invoked s = 0
    /\ exists p, conditionPromise s = Some p
                 /\ jobs s = match settled p with
                             | Some c => [JCond c]
                             | None => []
                             end;
  inv_nocond :
    at_phase s <> AtCondition ->
    conds (jobs s) = [] /\ conditionPromise s <> Some Pending;
  inv_signal :
    (signal_aborted s = false -> abortedPromise s = Pending)
    /\ (signal_aborted s = true -> exists e, abortedPromise s = Rejected e);
  inv_race_phase :
    at_phase s = AtRace ->
    started s = true /\ promise s = Pending
    /\ dispatched s = [pendingAction] /\ payloadPromise s <> None;
  inv_done :
    at_phase s = Done ->
    awaits (jobs s) = []
    /\ exists a, promise s = Fulfilled a /\ is_final a = true;
  inv_early :
    payloadPromise s = None ->
    thens (jobs s) = [] /\ races (jobs s) = [] /\ awaits (jobs s) = []
    /\ thenPromise s = Pending /\ racePromise s = Pending;
  inv_then_pending :
    forall p, payloadPromise s = Some p -> thenPromise s = Pending ->
    thens (jobs s) = match settled p with Some c => [c] | None => [] end;
  inv_then_settled :
    forall p, payloadPromise s = Some p -> thenPromise s <> Pending ->
    thens (jobs s) = []
    /\ exists c, p = settle_with c
                 /\ thenPromise s = settle_with (then_callback typePrefix opts env arg c);
  inv_await :
    at_phase s = AtRace ->
    (racePromise s = Pending /\ awaits (jobs s) = [])
    \/ (exists c, racePromise s = settle_with c /\ awaits (jobs s) = [c]);
  inv_done_race :
    at_phase s = Done -> payloadPromise s <> None -> racePromise s <> Pending;
  inv_done_then :
    at_phase s = Done -> payloadPromise s <> None ->
    abortedPromise s = Pending -> thenPromise s <> Pending;
  inv_good :
    Forall good_completion (races (jobs s) ++ awaits (jobs s));
  inv_quiet :
    at_phase s = AtRace -> thenPromise s = Pending -> abortedPromise s = Pending ->
    races (jobs s) = [] /\ racePromise s = Pending;
  inv_live :
    at_phase s = AtRace -> racePromise s = Pending ->
    races (jobs s) <> [] \/ thens (jobs s) <> []
    \/ (payloadPromise s = Some Pending /\ abortedPromise s = Pending);
  inv_noabort :
    forall d, abortedPromise s = Pending -> thenPromise s = settle_with d ->
    Decided d s;
  inv_thrown :
    invoked s = 1 ->
    (exists e, outcome (payloadCreator arg id) = Throws e) ->
    payloadPromise s = None /\ at_phase s = Done;
  inv_throw :
    payloadPromise s = None -> at_phase s = Done -> invoked s = 1 ->
    exists e, outcome (payloadCreator arg id) = Throws e
              /\ promise s = Fulfilled (catch_action e)
              /\ dispatched s = pendingAction :: shown (catch_action e)
}.

End Invariant.

(** An instance of one of the two wrapper classes. *)
Definition is_wrapper (v : value) : bool :=
  match v with
  | VRejectWithValue _ _ | VFulfillWithMeta _ _ => true
  | _ => false
  end.

(** The meta fields the engine writes on a rejected event. *)
Definition engine_keys : list string :=
  ["arg"; "requestId"; "rejectedWithValue"; "requestStatus"; "aborted"; "condition"].

(** The schedule holds no call of the handle's [abort]. *)
Definition no_aborts (schedule : list event) : bool :=
  forallb (fun ev => negb (is_abort ev)) schedule.

(** What the listener of lines 621-623 rejects [abortedPromise] with. *)
Definition AbortError (reason : value) : value :=
  VObj [("name", VStr "AbortError"); ("message", js_or reason (VStr "Aborted"))].

(** [options.serializeError] is not given. *)
Definition default_serializer (opts : option options) : Prop :=
  match opts with
  | Some o => serializeError o = None
  | None => True
  end.

(** ** Concrete invocations *)

(** A platform with a native [AbortController], an identifier generator
    that returns [R], and a dispatch that never throws. *)
Definition quiet_env : environment :=
  {| AbortController_defined := true; nanoid := "R";
     dispatch_throws := fun _ => None |}.

(** A payload creator that makes no [abort] call and hands back [r]. *)
Definition creator (r : call_result) : value -> string -> creator_run :=
  fun _ _ => {| sync_aborts := []; outcome := r |}.

Definition user7 : value := VObj [("id", VNum 7)].

(** A dispatch that throws on the fulfilled event of the thunk [t], as a
    reducer that fails on it makes it do. *)
Definition failing_env : environment :=
  {| AbortController_defined := true; nanoid := "R";
     dispatch_throws := fun a =>
       if is_str (get a "type") "t/fulfilled"
       then Some (VStr "reducer failed") else None |}.

Section ConditionStates.

Variable typePrefix : string.
Variable opts : option options.
Variable env : environment.
Variable arg : value.

(** The thunk waiting for the promise [condition] returned. *)
Definition waiting : state :=
  set_conditionPromise (Some Pending) initial.

(** That promise fulfilled with [false], the resumption queued. *)
Definition resuming : state :=
  enqueue (JCond (Normal (VBool false)))
    (set_conditionPromise (Some (Fulfilled (VBool false))) initial).

(** The thunk after the [ConditionError] was caught, [cp] being what
    [condition] returned as a promise, if it did. *)
Definition condition_rejected (cp : option pstate) : state :=
  catch typePrefix opts env arg ConditionError (set_conditionPromise cp initial).

Definition ConditionPath (s : state) : Prop :=
  match conditionPromise s with
  | Some Pending => s = waiting
  | Some (Fulfilled (VBool false)) =>
      s = resuming \/ s = condition_rejected (Some (Fulfilled (VBool false)))
  | _ => True
  end.

End ConditionStates.

(** ** Further vocabulary *)

(** [options?.condition] *)
Definition condition_of (opts : option options) : option (value -> call_result) :=
  match opts with
  | Some o => condition o
  | None => None
  end.

(** The meta fields the engine writes on a pending or fulfilled event. *)
Definition lifecycle_keys : list string := ["arg"; "requestId"; "requestStatus"].

Section Events.

Variable typePrefix : string.
Variable opts : option options.
Variable env : environment.
Variable arg : value.

(** An event of this invocation: built by one of the three creators
    with this invocation's [requestId] and [arg]. *)
Definition built (a : value) : Prop :=
  a = pendingAction typePrefix opts env arg
  \/ (exists p m, a = fulfilled typePrefix p (requestId opts env arg) arg m)
  \/ (exists e p m, a = rejected typePrefix opts e (requestId opts env arg) arg p m).

Definition built_completion (c : completion) : Prop :=
  match c with
  | Normal a => built a
  | Throw _ => True
  end.

Definition built_job (j : job) : Prop :=
  match j with
  | JRace c | JAwait c => built_completion c
  | _ => True
  end.

(** Everything dispatched, resolved or on its way to the race is an
    event of this invocation. *)
Definition Built (s : state) : Prop :=
  Forall built (dispatched s)
  /\ (forall a, promise s = Fulfilled a -> built a)
  /\ Forall built_job (jobs s).

(** What a caller can observe of a state. *)
Definition core (s : state) : bool * nat * list value * pstate * phase :=
  (started s, invoked s, dispatched s, promise s, at_phase s).

(** The order of the dispatches: the pending event first and only when
    the thunk is armed, the final event last and only once the handle
    has resolved to it. *)
Definition Order (s : state) : Prop :=
  invoked s <= 1
  /\ (invoked s = 1 -> started s = true)
  /\ match at_phase s with
     | AtCondition => dispatched s = [] /\ started s = false
     | AtRace =>
         dispatched s = [pendingAction typePrefix opts env arg]
         /\ started s = true /\ invoked s = 1
     | Done =>
         exists a,
           promise s = Fulfilled a
           /\ dispatched s
              = ((if started s then [pendingAction typePrefix opts env arg] else [])
                 ++ shown typePrefix opts a)%list
     end.

(** The thunk after [err] was caught before it was armed, [cp] being
    what [condition] returned as a promise, if it did. *)
Definition caught_unarmed (err : value) (cp : option pstate) : state :=
  catch typePrefix opts env arg err (set_conditionPromise cp initial).

(** The promise [condition] returned has been rejected with [err] and
    the resumption is queued. *)
Definition rejecting (err : value) : state :=
  enqueue (JCond (Throw err))
    (set_conditionPromise (Some (Rejected err)) initial).

Definition RejectionPath (s : state) : Prop :=
  match conditionPromise s with
  | Some Pending => s = waiting
  | Some (Rejected err) =>
      s = rejecting err \/ s = caught_unarmed err (Some (Rejected err))
  | _ => True
  end.

(** The state with the abort reason forgotten. *)
Definition forget_reason (s : state) : state := set_abortReason VUndef s.

End Events.

(** * getDefaultMiddleware and MiddlewareArray

    A shallow embedding of [packages/toolkit/src/getDefaultMiddleware.ts]
    and of the class [MiddlewareArray] of [packages/toolkit/src/utils.ts]
    (lines 33-71). *)

(** The middlewares [getDefaultMiddleware] can install.  They come from
    [redux-thunk] and from the two invariant-middleware factories; each is
    represented by the call that makes it. *)
Inductive middleware : Type :=
| thunkMiddleware
| withExtraArgument (extraArgument : value)
| createImmutableStateInvariantMiddleware (options : value)
| createSerializableStateInvariantMiddleware (options : value).

(** [typeof x === 'boolean'] (lines 14-16). *)
Definition isBoolean (x : value) : bool :=
  match x with VBool _ => true | _ => false end.

(** A destructuring default [k = true] (lines 83-87): the default is used
    when the property is [undefined], and only then. *)
Definition with_default (v : value) : value :=
  match v with VUndef => VBool true | _ => v end.

(** [getDefaultMiddleware(options)] (lines 71-138).  [production] is
    [process.env.NODE_ENV === 'production'].  [push] adds at the end and
    [unshift] at the front.  Destructuring [null] throws a [TypeError]:
    the result is then [None]. *)
Definition getDefaultMiddleware (production : bool) (options : value)
  : option (list middleware) :=
  let options := match options with VUndef => VObj [] | _ => options end in
  match options with
  | VNull => None
  | _ =>
      let thunk := with_default (get options "thunk") in
      let immutableCheck := with_default (get options "immutableCheck") in
      let serializableCheck := with_default (get options "serializableCheck") in
      let middlewareArray := @nil middleware in
      let middlewareArray :=
        if truthy thunk then
          if isBoolean thunk
          then (middlewareArray ++ [thunkMiddleware])%list
          else (middlewareArray
                  ++ [withExtraArgument (get thunk "extraArgument")])%list
        else middlewareArray in
      let middlewareArray :=
        if negb production then
          let middlewareArray :=
            if truthy immutableCheck then
              let immutableOptions :=
                if negb (isBoolean immutableCheck) then immutableCheck
                else VObj [] in
              createImmutableStateInvariantMiddleware immutableOptions
                :: middlewareArray
            else middlewareArray in
          if truthy serializableCheck then
            let serializableOptions :=
              if negb (isBoolean serializableCheck) then serializableCheck
              else VObj [] in
            (middlewareArray
               ++ [createSerializableStateInvariantMiddleware
                     serializableOptions])%list
          else middlewareArray
        else middlewareArray in
      Some middlewareArray
  end.

(** [curryGetDefaultMiddleware()] (lines 49-57). *)
Definition curryGetDefaultMiddleware (production : bool)
  : value -> option (list middleware) :=
  fun options => getDefaultMiddleware production options.

(** The position a default middleware takes in the chain. *)
Definition rank (m : middleware) : nat :=
  match m with
  | createImmutableStateInvariantMiddleware _ => 0
  | thunkMiddleware | withExtraArgument _ => 1
  | createSerializableStateInvariantMiddleware _ => 2
  end.

(** An option of [getDefaultMiddleware] switches its middleware on when
    it is left out or truthy. *)
Definition switched_on (v : value) : bool :=
  match v with VUndef => true | _ => truthy v end.

(** The elements a [MiddlewareArray] can hold at run time: a middleware,
    or an array that was passed where a middleware was expected. *)
#[local] Set Warnings "-register-all".
Inductive element (M : Type) : Type :=
| Item (m : M)
| Array (items : list (element M)).
#[local] Set Warnings "register-all".
Arguments Item {M} m.
Arguments Array {M} items.

Module MiddlewareArray.

(** [Array.prototype.concat]: an argument that is an array is spread,
    one level deep; any other argument is appended. *)
Definition spreadable {M} (a : element M) : list (element M) :=
  match a with Array l => l | Item _ => [a] end.

(** [concat(...arr)] (lines 53-55): [super.concat.apply(this, arr)]. *)
Definition concat {M} (this arr : list (element M)) : list (element M) :=
  (this ++ flat_map spreadable arr)%list.

(** [prepend(...arr)] (lines 65-70). *)
Definition prepend {M} (this arr : list (element M)) : list (element M) :=
  match arr with
  | [Array arr0] => concat arr0 [Array this]
  | _ => concat arr [Array this]
  end.

End MiddlewareArray.

Definition is_item {M} (a : element M) : bool :=
  match a with Item _ => true | Array _ => false end.

(** A middleware, or an array of middlewares. *)
Definition shallow {M} (a : element M) : bool :=
  match a with Item _ => true | Array l => forallb is_item l end.

(** * getTimeMeasureUtils

    [getTimeMeasureUtils(maxDelay, fnName)] of
    [packages/toolkit/src/utils.ts] (lines 4-24).  The closure variable
    [elapsed] is the state; times are whole milliseconds, as [Date.now()]
    gives them. *)
Record timeMeasure : Type := {
  maxDelay : Z;
  fnName : string;
  elapsed : Z
}.

Definition getTimeMeasureUtils (maxDelay : Z) (fnName : string) : timeMeasure :=
  {| maxDelay := maxDelay; fnName := fnName; elapsed := 0 |}.

(** [measureTime(fn)] (lines 7-15): [started] and [finished] are the two
    readings of the clock, [r] what [fn] did, returning or throwing; the
    [finally] block adds to [elapsed] in both cases and [r] is handed
    on. *)
Definition measureTime (started finished : Z) (r : completion)
    (t : timeMeasure) : completion * timeMeasure :=
  (r, {| maxDelay := maxDelay t; fnName := fnName t;
         elapsed := elapsed t + (finished - started) |}).

(** [warnIfExceeded()] (lines 16-22): whether [console.warn] is called. *)
Definition warnIfExceeded (t : timeMeasure) : bool :=
  (maxDelay t <? elapsed t)%Z.

(** A run of measurements: for each call its two clock readings and what
    the measured function did. *)
Definition measurements (l : list (Z * Z * completion)) (t : timeMeasure)
  : timeMeasure :=
  fold_left (fun t m => snd (measureTime (fst (fst m)) (snd (fst m)) (snd m) t))
    l t.

(** * createReducer

    A shallow embedding of [createReducer] ([src/unnamed/part_000], lines
    216-339) and of [freezeDraftable] ([packages/toolkit/src/utils.ts],
    lines 74-77).  The three functions imported from [immer], [isDraft],
    [isDraftable] and [createNextState], are parameters: the theorems hold
    whatever they do.  A state is a value or a reference; what a case
    reducer does in place to the object behind a draft is immer's
    business and is not described here, only which state the reducer
    hands back and whether it throws. *)

(** A case reducer: called with the state and the action, it returns or
    throws; returning [undefined] is returning [VUndef]. *)
Definition caseReducer : Type := value -> value -> completion.

(** An entry of [actionMatchers] (lines 26-29). *)
Record ActionMatcherDescription : Type := {
  matcher : value -> completion;
  reducer_of : caseReducer
}.

(** What a call of the reducer does: it returns the next state, or it
    throws what user code or immer threw, or the [Error] of lines
    311-313, or the [TypeError] of reading [type] off an action that is
    [undefined] or [null]. *)
Inductive reduced : Type :=
| Next (state : value)
| Raised (e : value)
| NonDraftableUndefined
| ActionTypeError.

(** The first argument of [createReducer]: a state, or a function that
    makes one (lines 243-249), given by what a call of it does. *)
Inductive initial_state : Type :=
| InitialValue (v : value)
| InitialFunction (call : completion).

Definition is_undefined (v : value) : bool :=
  match v with VUndef => true | _ => false end.

Definition is_null (v : value) : bool :=
  match v with VNull => true | _ => false end.

Definition is_some {A} (o : option A) : bool :=
  match o with Some _ => true | None => false end.

Section CreateReducer.

Variable isDraft : value -> bool.
Variable isDraftable : value -> bool.
Variable createNextState : value -> (value -> completion) -> completion.

(** [freezeDraftable(val)] ([utils.ts], lines 74-77). *)
Definition freezeDraftable (val : value) : completion :=
  if isDraftable val
  then createNextState val (fun _ => Normal VUndef)
  else Normal val.

(** [finalActionMatchers.filter(({ matcher }) => matcher(action))
    .map(({ reducer }) => reducer)] (lines 257-259): every matcher is
    called, in order; the first one that throws ends the call. *)
Fixpoint matching (action : value) (l : list ActionMatcherDescription)
  : value + list (option caseReducer) :=
  match l with
  | [] => inr []
  | m :: l =>
      match matcher m action with
      | Throw e => inl e
      | Normal r =>
          match matching action l with
          | inl e => inl e
          | inr rs => inr (if truthy r then Some (reducer_of m) :: rs else rs)
          end
      end
  end.

(** The body of the callback given to [reduce] (lines 280-331). *)
Definition reduce_step (action : value) (previousState : value)
    (cr : option caseReducer) : reduced :=
  match cr with
  | Some caseReducer =>
      if isDraft previousState then
        match caseReducer previousState action with
        | Throw e => Raised e
        | Normal result =>
            if is_undefined result then Next previousState else Next result
        end
      else if negb (isDraftable previousState) then
        match caseReducer previousState action with
        | Throw e => Raised e
        | Normal result =>
            if is_undefined result then
              if is_null previousState then Next previousState
              else NonDraftableUndefined
            else Next result
        end
      else
        match createNextState previousState
                (fun draft => caseReducer draft action) with
        | Throw e => Raised e
        | Normal s => Next s
        end
  | None => Next previousState
  end.

(** [caseReducers.reduce(..., state)]. *)
Fixpoint reduce (action : value) (caseReducers : list (option caseReducer))
    (state : value) : reduced :=
  match caseReducers with
  | [] => Next state
  | cr :: rest =>
      match reduce_step action state cr with
      | Next s => reduce action rest s
      | r => r
      end
  end.

Section Reducer.

(** What [getInitialState()] does, [actionsMap[k]] for every key [k]
    when it is truthy, [finalActionMatchers] and
    [finalDefaultCaseReducer]. *)
Variable getInitialState : completion.
Variable actionsMap : value -> option caseReducer.
Variable finalActionMatchers : list ActionMatcherDescription.
Variable finalDefaultCaseReducer : option caseReducer.

(** [reducer(state = getInitialState(), action)] (lines 252-332). *)
Definition reducer (state action : value) : reduced :=
  match (if is_undefined state then getInitialState else Normal state) with
  | Throw e => Raised e
  | Normal state =>
      match action with
      | VUndef | VNull => ActionTypeError
      | _ =>
          match matching action finalActionMatchers with
          | inl e => Raised e
          | inr matched =>
              let caseReducers := actionsMap (get action "type") :: matched in
              let caseReducers :=
                if (List.length
                      (filter is_some caseReducers) =? 0)%nat
                then [finalDefaultCaseReducer]
                else caseReducers in
              reduce action caseReducers state
          end
      end
  end.

End Reducer.

(** [createReducer(initialState, actionsMap, actionMatchers,
    defaultCaseReducer)] (lines 216-339), from the triple of line 236
    on: the reducer function and its [getInitialState], or what
    freezing the initial state threw. *)
Definition createReducer (initialState : initial_state)
    (actionsMap : value -> option caseReducer)
    (actionMatchers : list ActionMatcherDescription)
    (defaultCaseReducer : option caseReducer)
  : value + ((value -> value -> reduced) * completion) :=
  match initialState with
  | InitialFunction call =>
      let getInitialState :=
        match call with
        | Throw e => Throw e
        | Normal v => freezeDraftable v
        end in
      inr (reducer getInitialState actionsMap actionMatchers
             defaultCaseReducer, getInitialState)
  | InitialValue v =>
      match freezeDraftable v with
      | Throw e => inl e
      | Normal frozenInitialState =>
          let getInitialState := Normal frozenInitialState in
          inr (reducer getInitialState actionsMap actionMatchers
                 defaultCaseReducer, getInitialState)
      end
  end.

End CreateReducer.

(** * createSlice: the tables of case reducers

    A shallow embedding of the part of [createSlice]
    ([packages/toolkit/src/createSlice.ts]) that names the action types
    and files the case reducers: [getType] (lines 260-262), the check of
    [name] (lines 281-284), the loop over [reducers] (lines 316-365) and
    [finalCaseReducers] (line 394). *)

(** [`${slice}/${actionKey}`] (lines 260-262). *)
Definition getType (slice actionKey : string) : string :=
  slice ++ "/" ++ actionKey.

(** An object used as a table: its own properties in insertion order. *)
Fixpoint table_get {A} (k : string) (o : list (string * A)) : option A :=
  match o with
  | [] => None
  | (k', v) :: o => if String.eqb k k' then Some v else table_get k o
  end.

(** [o[k] = v]: an existing key keeps its place. *)
Fixpoint table_set {A} (k : string) (v : A) (o : list (string * A))
  : list (string * A) :=
  match o with
  | [] => [(k, v)]
  | (k', v') :: o =>
      if String.eqb k k' then (k, v) :: o else (k', v') :: table_set k v o
  end.

(** [{...a, ...b}]. *)
Definition table_spread {A} (a b : list (string * A)) : list (string * A) :=
  fold_left (fun acc kv => table_set (fst kv) (snd kv) acc) b
    (fold_left (fun acc kv => table_set (fst kv) (snd kv) acc) a []).

Section CreateSlice.

(** The prepare callbacks, which this part of the code only hands on
    to [createAction]. *)
Variable PrepareAction : Type.

(** A value of [reducers]: a case reducer, or an object with the
    properties [reducer] and [prepare] (lines 343-358). *)
Inductive reducerDefinition : Type :=
| CaseReducerFunction (caseReducer : caseReducer)
| CaseReducerWithPrepare (reducer : caseReducer)
    (prepare : option PrepareAction).

(** The call of [createAction] an action creator comes from (lines
    362-364). *)
Record actionCreatorCall : Type := {
  call_type : string;
  call_prepare : option PrepareAction
}.

Record sliceTables : Type := {
  sliceCaseReducersByName : list (string * caseReducer);
  sliceCaseReducersByType : list (string * caseReducer);
  actionCreators : list (string * actionCreatorCall)
}.

(** The body of [reducerNames.forEach] (lines 341-365). *)
Definition forEach_body (name : string) (t : sliceTables)
    (entry : string * reducerDefinition) : sliceTables :=
  let reducerName := fst entry in
  let maybeReducerWithPrepare := snd entry in
  let type := getType name reducerName in
  let '(caseReducer, prepareCallback) :=
    match maybeReducerWithPrepare with
    | CaseReducerWithPrepare reducer prepare => (reducer, prepare)
    | CaseReducerFunction caseReducer => (caseReducer, None)
    end in
  {| sliceCaseReducersByName :=
       table_set reducerName caseReducer (sliceCaseReducersByName t);
     sliceCaseReducersByType :=
       table_set type caseReducer (sliceCaseReducersByType t);
     actionCreators :=
       table_set reducerName
         {| call_type := type; call_prepare := prepareCallback |}
         (actionCreators t) |}.

(** Lines 281-365: [None] when [name] is falsy and the function
    throws; [reducers] is the object's properties in the order of
    [Object.keys], [undefined] being replaced by [{}]. *)
Definition createSlice_tables (name : string)
    (reducers : option (list (string * reducerDefinition)))
  : option sliceTables :=
  if String.eqb name "" then None
  else
    let reducers := match reducers with Some r => r | None => [] end in
    Some (fold_left (forEach_body name) reducers
            {| sliceCaseReducersByName := [];
               sliceCaseReducersByType := [];
               actionCreators := [] |}).

(** Line 394. *)
Definition finalCaseReducers (extraReducers : list (string * caseReducer))
    (t : sliceTables) : list (string * caseReducer) :=
  table_spread extraReducers (sliceCaseReducersByType t).

Definition case_of (d : reducerDefinition) : caseReducer :=
  match d with
  | CaseReducerFunction c => c
  | CaseReducerWithPrepare c _ => c
  end.

End CreateSlice.

(** * Properties *)

(** ** Objects *)

Lemma obj_get_set_same (k : string) (v : value) (o : object) :
  obj_get k (obj_set k v o) = Some v.
Proof.
  induction o as [|[k' v'] o IH]; simpl.
  - now rewrite String.eqb_refl.
  - destruct (String.eqb k k') eqn:E; simpl.
    + now rewrite String.eqb_refl.
    + now rewrite E.
Qed.

Lemma obj_get_set_other (k k' : string) (v : value) (o : object) :
  String.eqb k k' = false -> obj_get k (obj_set k' v o) = obj_get k o.
Proof.
  intros Hk. induction o as [|[k0 v0] o IH]; simpl.
  - now rewrite Hk.
  - destruct (String.eqb k' k0) eqn:E; simpl.
    + apply String.eqb_eq in E. subst k0. now rewrite Hk.
    + now rewrite IH.
Qed.

(** A lookup in an object literal with a spread: peel the literal's
    fields off from the last one written. *)
Ltac lookup :=
  repeat (rewrite obj_get_set_same
          || (rewrite obj_get_set_other by reflexivity)).

Lemma obj_get_with_fields_other (k : string) (fields : list (string * value)) (o : object) :
  forallb (fun kv => negb (String.eqb k (fst kv))) fields = true ->
  obj_get k (with_fields o fields) = obj_get k o.
Proof.
  unfold with_fields. revert o.
  induction fields as [|[k' v'] fields IH]; intros o H; simpl in *.
  - reflexivity.
  - apply andb_true_iff in H. destruct H as [H1 H2].
    rewrite IH by assumption.
    apply obj_get_set_other. now apply negb_true_iff.
Qed.

(** On an object whose keys are distinct the spread copies every
    property with its value. *)
Lemma obj_get_fold_notin (k : string) (o acc : object) :
  obj_get k o = None ->
  obj_get k (fold_left (fun acc kv => obj_set (fst kv) (snd kv) acc) o acc)
  = obj_get k acc.
Proof.
  revert acc. induction o as [|[k' v'] o IH]; intros acc H; simpl in *.
  - reflexivity.
  - destruct (String.eqb k k') eqn:E; [congruence|].
    rewrite IH by assumption. now apply obj_get_set_other.
Qed.

Lemma obj_get_None_notin (k : string) (o : object) :
  ~ In k (map fst o) -> obj_get k o = None.
Proof.
  induction o as [|[k' v'] o IH]; simpl; intros H; [reflexivity|].
  destruct (String.eqb k k') eqn:E.
  - apply String.eqb_eq in E. subst. tauto.
  - apply IH. tauto.
Qed.

Lemma obj_get_fold (k : string) (o acc : object) :
  NoDup (map fst o) ->
  obj_get k (fold_left (fun acc kv => obj_set (fst kv) (snd kv) acc) o acc)
  = match obj_get k o with Some v => Some v | None => obj_get k acc end.
Proof.
  revert acc. induction o as [|[k' v'] o IH]; intros acc H; simpl in *.
  - reflexivity.
  - inversion H as [|? ? Hnotin Hnodup]; subst.
    destruct (String.eqb k k') eqn:E.
    + apply String.eqb_eq in E. subst k'.
      rewrite obj_get_fold_notin by now apply obj_get_None_notin.
      apply obj_get_set_same.
    + rewrite IH by assumption.
      destruct (obj_get k o); [reflexivity|].
      now apply obj_get_set_other.
Qed.

Lemma obj_get_spread (k : string) (o : object) :
  NoDup (map fst o) -> obj_get k (spread o) = obj_get k o.
Proof.
  intros H. unfold spread. rewrite obj_get_fold by assumption.
  now destruct (obj_get k o).
Qed.

(** ** The three action creators *)

Section CreatorFacts.

Variable typePrefix : string.
Variable opts : option options.
Variables (requestId : string) (arg payload meta error : value).

Lemma meta_of_pending :
  meta_of (pending typePrefix requestId arg meta)
  = VObj (with_fields (spread (own_props (js_or meta (VObj []))))
            [("arg", arg); ("requestId", VStr requestId);
             ("requestStatus", VStr "pending")]).
Proof. reflexivity. Qed.

Lemma meta_of_fulfilled :
  meta_of (fulfilled typePrefix payload requestId arg meta)
  = VObj (with_fields (spread (own_props (js_or meta (VObj []))))
            [("arg", arg); ("requestId", VStr requestId);
             ("requestStatus", VStr "fulfilled")]).
Proof. reflexivity. Qed.

Lemma meta_of_rejected :
  meta_of (rejected typePrefix opts error requestId arg payload meta)
  = VObj (with_fields (spread (own_props (js_or meta (VObj []))))
            [("arg", arg); ("requestId", VStr requestId);
             ("rejectedWithValue", VBool (truthy payload));
             ("requestStatus", VStr "rejected");
             ("aborted", VBool (is_str (get error "name") "AbortError"));
             ("condition", VBool (is_str (get error "name") "ConditionError"))]).
Proof. reflexivity. Qed.

Lemma payload_of_fulfilled :
  get (fulfilled typePrefix payload requestId arg meta) "payload" = payload.
Proof. reflexivity. Qed.

Lemma payload_of_rejected :
  get (rejected typePrefix opts error requestId arg payload meta) "payload" = payload.
Proof. reflexivity. Qed.

Lemma error_of_rejected :
  get (rejected typePrefix opts error requestId arg payload meta) "error"
  = the_serializer opts (js_or error (VStr "Rejected")).
Proof. reflexivity. Qed.

Lemma error_of_fulfilled :
  get (fulfilled typePrefix payload requestId arg meta) "error" = VUndef.
Proof. reflexivity. Qed.

Lemma type_of_fulfilled :
  get (fulfilled typePrefix payload requestId arg meta) "type"
  = VStr (typePrefix ++ "/fulfilled").
Proof. reflexivity. Qed.

Lemma type_of_rejected :
  get (rejected typePrefix opts error requestId arg payload meta) "type"
  = VStr (typePrefix ++ "/rejected").
Proof. reflexivity. Qed.

Lemma type_of_pending :
  get (pending typePrefix requestId arg meta) "type"
  = VStr (typePrefix ++ "/pending").
Proof. reflexivity. Qed.

End CreatorFacts.

(** Reading an engine field out of a meta object. *)
Ltac meta_field :=
  rewrite ?meta_of_pending, ?meta_of_fulfilled, ?meta_of_rejected;
  unfold get, has_key, obj_has, own_props, with_fields; simpl fold_left;
  lookup; try reflexivity.


(** C10: whatever the caller's meta holds, keys named like the engine's
    fields included, the fields of the event's meta are the engine's
    own values. *)
Theorem C10_engine_fields_win
    (typePrefix : string) (opts : option options)
    (requestId : string) (arg payload userMeta error : value) :
  let p := meta_of (pending typePrefix requestId arg userMeta) in
  let f := meta_of (fulfilled typePrefix payload requestId arg userMeta) in
  let r := meta_of (rejected typePrefix opts error requestId arg payload userMeta) in
  (get p "arg" = arg /\ get p "requestId" = VStr requestId
   /\ get p "requestStatus" = VStr "pending")
  /\ (get f "arg" = arg /\ get f "requestId" = VStr requestId
      /\ get f "requestStatus" = VStr "fulfilled")
  /\ (get r "arg" = arg /\ get r "requestId" = VStr requestId
      /\ get r "requestStatus" = VStr "rejected"
      /\ get r "rejectedWithValue" = VBool (truthy payload)
      /\ get r "aborted" = VBool (is_str (get error "name") "AbortError")
      /\ get r "condition" = VBool (is_str (get error "name") "ConditionError")).
Proof.
  cbv zeta. repeat split; meta_field.
Qed.

(** ** The job queue *)

#[local] Open Scope list_scope.

Lemma conds_app q q' : conds (q ++ q') = conds q ++ conds q'.
Proof. apply flat_map_app. Qed.
Lemma thens_app q q' : thens (q ++ q') = thens q ++ thens q'.
Proof. apply flat_map_app. Qed.
Lemma races_app q q' : races (q ++ q') = races q ++ races q'.
Proof. apply flat_map_app. Qed.
Lemma awaits_app q q' : awaits (q ++ q') = awaits q ++ awaits q'.
Proof. apply flat_map_app. Qed.

Create Rewrite HintDb queue.
#[local] Hint Rewrite conds_app thens_app races_app awaits_app app_nil_r : queue.

Lemma hd_error_app_some {A} (l l' : list A) (x : A) :
  hd_error l = Some x -> hd_error (l ++ l') = Some x.
Proof. destruct l; simpl; congruence. Qed.

Lemma snoc_not_nil {A} (l : list A) (x : A) : l ++ [x] <> [].
Proof. destruct l; discriminate. Qed.

Lemma settle_with_not_pending c : settle_with c <> Pending.
Proof. destruct c; discriminate. Qed.

Lemma settle_with_inj c c' : settle_with c = settle_with c' -> c = c'.
Proof. destruct c, c'; simpl; congruence. Qed.

Lemma settled_settle_with c : settled (settle_with c) = Some c.
Proof. now destruct c. Qed.

Lemma settled_some p c : settled p = Some c -> p = settle_with c.
Proof. destruct p; simpl; intros H; inversion H; reflexivity. Qed.

Lemma settled_none p : settled p = None -> p = Pending.
Proof. destruct p; simpl; intros H; inversion H; reflexivity. Qed.

Ltac setters :=
  unfold set_started, set_abortReason, set_signal_aborted, set_conditionPromise,
    set_payloadPromise, set_abortedPromise, set_thenPromise, set_racePromise,
    set_promise, set_phase, set_jobs, set_dispatched, set_invoked, enqueue in *;
  simpl in *.

Ltac queue := autorewrite with queue in *; simpl in *.

(** Closes the side goals of the invariant's clauses. *)
Ltac absurd_settle :=
  intros;
  match goal with
  | H : Pending = settle_with _ |- _ =>
      symmetry in H; apply settle_with_not_pending in H; contradiction
  | H : settle_with _ = Pending |- _ =>
      apply settle_with_not_pending in H; contradiction
  end.

Ltac side :=
  try solve
    [ assumption
    | absurd_settle
    | intros; match goal with H : Some _ = Some _ |- _ => inversion H; subst end;
      simpl; auto
    | discriminate
    | congruence
    | apply snoc_not_nil
    | apply settle_with_not_pending
    | intuition (try discriminate; try congruence; eauto using snoc_not_nil)
    | left; apply snoc_not_nil
    | right; left; apply snoc_not_nil ].

Section Reachable.

Variable typePrefix : string.
Variable payloadCreator : value -> string -> creator_run.
Variable opts : option options.
Variable env : environment.
Variable arg : value.

(** The final dispatch does not throw. *)
Hypothesis final_ok :
  forall a, is_final typePrefix a = true -> dispatch_throws env a = None.

#[local] Abbreviation INV := (Inv typePrefix payloadCreator opts env arg).
#[local] Abbreviation DEC := (Decided typePrefix opts env arg).
#[local] Abbreviation abort' := (abort env).
#[local] Abbreviation step' := (step typePrefix payloadCreator opts env arg).

Lemma Decided_enqueue d s j :
  match j with JAwait _ => False | _ => True end ->
  DEC d s -> DEC d (enqueue j s).
Proof.
  intros Hj [(H1 & H2 & H3)|[(H1 & H2)|(H1 & H2 & H3)]].
  - left. destruct s; simpl in *. repeat split; auto. queue.
    now apply hd_error_app_some.
  - right; left. destruct s; simpl in *. split; auto. queue.
    destruct j; simpl; queue; auto. tauto.
  - right; right. destruct s; simpl in *. auto.
Qed.

Ltac open_inv H :=
  destruct H as [Hc Hnc Hsig Hrp Hdn He Htp Hts Haw Hdr Hdt Hg Hq Hl Hna Htn Hth].
Ltac open_state s :=
  destruct s as [st ar sg cp pp ap tp rp pr ph q dl iv]; simpl in *.
Ltac good :=
  repeat rewrite Forall_app in *; repeat split; try tauto;
  repeat constructor; simpl; auto.
Ltac clauses := constructor; simpl; queue; auto; side; try solve [good].

Lemma Inv_abort s reason : INV s -> INV (abort' reason s).
Proof.
  intros H. unfold abort. destruct (started s) eqn:Hst; [|assumption].
  unfold controller_abort.
  destruct (AbortController_defined env); simpl.
  2:{ open_inv H; open_state s. clauses. }
  destruct (signal_aborted s) eqn:Hsg; simpl.
  { open_inv H; open_state s. clauses. }
  open_inv H; open_state s. subst.
  destruct Hsig as [Hs _]. specialize (Hs eq_refl). subst.
  destruct pp as [p|]; simpl; clauses.
Qed.

Lemma Inv_settle_payload s c : INV s -> INV (step' s (SettlePayload c)).
Proof.
  intros H. simpl. destruct (payloadPromise s) as [[| |]|] eqn:Hp; try assumption.
  open_inv H; open_state s. subst. clauses.
  - intros p Hp Ht. injection Hp as <-. rewrite settled_settle_with.
    now rewrite (Htp Pending eq_refl Ht).
  - intros p Hp Ht. destruct (Hts Pending eq_refl Ht) as (_ & c' & Hc' & _).
    symmetry in Hc'. now apply settle_with_not_pending in Hc'.
  - intros d Ha Ht. apply Decided_enqueue; [exact I|].
    exact (Hna d Ha Ht).
Qed.

Lemma Inv_settle_condition s c : INV s -> INV (step' s (SettleCondition c)).
Proof.
  intros H. simpl. destruct (conditionPromise s) as [[| |]|] eqn:Hp; try assumption.
  open_inv H; open_state s. subst.
  destruct ph.
  - destruct (Hc eq_refl) as (-> & -> & -> & -> & -> & -> & p & Hp & Hj').
    inversion Hp; subst p. simpl in Hj'. subst q.
    clauses. intros _. repeat split. exists (settle_with c).
    now rewrite settled_settle_with.
  - destruct Hnc as [_ Hnc]; [discriminate|]. congruence.
  - destruct Hnc as [_ Hnc]; [discriminate|]. congruence.
Qed.

Lemma is_final_rejected e rid a p m :
  is_final typePrefix (rejected typePrefix opts e rid a p m) = true.
Proof.
  unfold is_final, action_match. rewrite type_of_rejected. simpl.
  rewrite String.eqb_refl. apply orb_true_r.
Qed.

Lemma is_final_fulfilled rid a p m :
  is_final typePrefix (fulfilled typePrefix p rid a m) = true.
Proof.
  unfold is_final, action_match. rewrite type_of_fulfilled. simpl.
  now rewrite String.eqb_refl.
Qed.

Lemma is_final_catch_action e :
  is_final typePrefix (catch_action typePrefix opts env arg e) = true.
Proof. destruct e; apply is_final_rejected. Qed.

Lemma good_then_callback c :
  good_completion typePrefix (then_callback typePrefix opts env arg c).
Proof.
  destruct c as [[]|]; simpl; auto using is_final_fulfilled.
Qed.

Lemma finish_catch e s :
  catch typePrefix opts env arg e s
  = finish typePrefix opts env (catch_action typePrefix opts env arg e) s.
Proof. reflexivity. Qed.

(** [finish] on a final event: the promise is fulfilled with it. *)
Lemma finish_final a s :
  is_final typePrefix a = true ->
  finish typePrefix opts env a s
  = set_promise (Fulfilled a)
      (set_dispatched (dispatched s ++ shown typePrefix opts a) (set_phase Done s)).
Proof.
  intros Ha. unfold finish, shown. rewrite (final_ok a Ha).
  destruct (skipDispatch typePrefix opts a); destruct s; simpl;
    now rewrite ?app_nil_r.
Qed.

Lemma Inv_catch e ar st sg cp ap dl iv :
  cp <> Some Pending ->
  (sg = false -> ap = Pending) ->
  (sg = true -> exists x, ap = Rejected x) ->
  (iv = 1 -> outcome (payloadCreator arg (requestId opts env arg)) = Throws e
             /\ dl = [pendingAction typePrefix opts env arg]) ->
  INV (catch typePrefix opts env arg e
       {| started := st; abortReason := ar; signal_aborted := sg;
          conditionPromise := cp; payloadPromise := None;
          abortedPromise := ap; thenPromise := Pending;
          racePromise := Pending; promise := Pending;
          at_phase := AtCondition; jobs := []; dispatched := dl;
          invoked := iv |}).
Proof.
  intros Hcp Hs1 Hs2 Hiv. rewrite finish_catch.
  rewrite finish_final by apply is_final_catch_action. simpl.
  clauses.
  - intros _. split; auto. eexists. split; [reflexivity|].
    apply is_final_catch_action.
  - intros _ _ Hi. destruct (Hiv Hi) as [Ho ->]. exists e. auto.
Qed.

(** The [abort] calls the payload creator makes while it runs, before
    [Promise.race] has subscribed: they can only reject
    [abortedPromise]. *)
Lemma sync_aborts_shape l : forall ar sg cp ap dl iv,
  (sg = false -> ap = Pending) ->
  (sg = true -> exists x, ap = Rejected x) ->
  exists ar' sg' ap',
    fold_left (fun s reason => abort' reason s) l
      {| started := true; abortReason := ar; signal_aborted := sg;
         conditionPromise := cp; payloadPromise := None;
         abortedPromise := ap; thenPromise := Pending;
         racePromise := Pending; promise := Pending;
         at_phase := AtCondition; jobs := []; dispatched := dl;
         invoked := iv |}
    = {| started := true; abortReason := ar'; signal_aborted := sg';
         conditionPromise := cp; payloadPromise := None;
         abortedPromise := ap'; thenPromise := Pending;
         racePromise := Pending; promise := Pending;
         at_phase := AtCondition; jobs := []; dispatched := dl;
         invoked := iv |}
    /\ (sg' = false -> ap' = Pending)
    /\ (sg' = true -> exists x, ap' = Rejected x).
Proof.
  induction l as [|r l IH]; intros ar sg cp ap dl iv H1 H2; simpl.
  - eauto 6.
  - unfold abort at 2, controller_abort; simpl.
    destruct (AbortController_defined env); simpl; [|apply IH; auto].
    destruct sg; simpl; [apply IH; auto|].
    rewrite (H1 eq_refl). simpl. apply IH; [discriminate|eauto].
Qed.

Lemma Inv_start_race p ar sg cp ap :
  (forall e, outcome (payloadCreator arg (requestId opts env arg)) <> Throws e) ->
  cp <> Some Pending ->
  (sg = false -> ap = Pending) ->
  (sg = true -> exists x, ap = Rejected x) ->
  INV (start_race p
       {| started := true; abortReason := ar; signal_aborted := sg;
          conditionPromise := cp; payloadPromise := None;
          abortedPromise := ap; thenPromise := Pending;
          racePromise := Pending; promise := Pending;
          at_phase := AtCondition; jobs := [];
          dispatched := [pendingAction typePrefix opts env arg];
          invoked := 1 |}).
Proof.
  intros Hno Hcp H1 H2. unfold start_race.
  destruct sg.
  - destruct (H2 eq_refl) as [x ->]. destruct p; simpl; clauses.
    all: intros _ [e0 He0]; now apply Hno in He0.
  - rewrite (H1 eq_refl). destruct p; simpl; clauses.
    all: intros _ [e0 He0]; now apply Hno in He0.
Qed.

Lemma Inv_after_condition v ar cp :
  cp <> Some Pending ->
  INV (after_condition typePrefix payloadCreator opts env arg v
       {| started := false; abortReason := ar; signal_aborted := false;
          conditionPromise := cp; payloadPromise := None;
          abortedPromise := Pending; thenPromise := Pending;
          racePromise := Pending; promise := Pending;
          at_phase := AtCondition; jobs := []; dispatched := [];
          invoked := 0 |}).
Proof.
  intros Hcp. unfold after_condition.
  destruct (is_false v).
  { apply Inv_catch; auto; discriminate. }
  simpl. fold (pendingAction typePrefix opts env arg).
  destruct (dispatch_throws env (pendingAction typePrefix opts env arg)).
  { apply Inv_catch; auto; discriminate. }
  setters.
  destruct (sync_aborts_shape
              (sync_aborts (payloadCreator arg (requestId opts env arg)))
              ar false cp Pending [pendingAction typePrefix opts env arg] 1)
    as (ar' & sg' & ap' & -> & H1 & H2); [auto|discriminate|].
  destruct (outcome (payloadCreator arg (requestId opts env arg))) eqn:Ho.
  - apply Inv_catch; auto.
  - apply Inv_start_race; auto. congruence.
  - apply Inv_start_race; auto. congruence.
Qed.

Lemma Inv_start : INV (start typePrefix payloadCreator opts env arg).
Proof.
  unfold start.
  destruct (match opts with Some o => condition o | None => None end) as [cond|].
  2:{ apply Inv_after_condition. discriminate. }
  destruct (cond arg) as [e|v|p].
  - apply Inv_catch; auto; discriminate.
  - apply Inv_after_condition. discriminate.
  - destruct p; simpl; clauses.
Qed.

Lemma Inv_run_cond s c q0 :
  INV s -> jobs s = JCond c :: q0 ->
  INV (run_job typePrefix payloadCreator opts env arg (JCond c) (set_jobs q0 s)).
Proof.
  intros H Hj. open_inv H; open_state s. subst.
  destruct ph.
  2,3: destruct Hnc as [Hnc _]; [discriminate|]; discriminate.
  destruct (Hc eq_refl) as (-> & -> & -> & -> & -> & -> & p & -> & Hj').
  destruct (He eq_refl) as (_ & _ & _ & -> & ->).
  destruct Hsig as [Hs _]. rewrite (Hs eq_refl).
  assert (p = settle_with c) as ->.
  { destruct p; simpl in Hj'; inversion Hj'; reflexivity. }
  assert (q0 = []) as ->.
  { destruct c; simpl in Hj'; inversion Hj'; reflexivity. }
  unfold set_jobs; simpl.
  destruct c; simpl.
  - apply Inv_after_condition. discriminate.
  - apply Inv_catch; auto; discriminate.
Qed.

Lemma Inv_run_then s c q0 :
  INV s -> jobs s = JThen c :: q0 ->
  INV (run_job typePrefix payloadCreator opts env arg (JThen c) (set_jobs q0 s)).
Proof.
  intros H Hj. open_inv H; open_state s. subst. simpl in *.
  destruct pp as [p|].
  2:{ destruct (He eq_refl) as (Hx & _). discriminate. }
  clear He Hth.
  assert (tp = Pending) as ->.
  { destruct tp; auto.
    - destruct (Hts p eq_refl) as (Hx & _); discriminate.
    - destruct (Hts p eq_refl) as (Hx & _); discriminate. }
  specialize (Htp p eq_refl eq_refl).
  assert (p = settle_with c /\ thens q0 = []) as [-> Ht0].
  { destruct p; simpl in Htp; inversion Htp; auto. }
  clear Htp Hts. setters.
  clauses.
  - intros p Hp _. injection Hp as <-. split; auto. now exists c.
  - good. apply good_then_callback.
  - intros d Ha Hd. apply settle_with_inj in Hd. subst d.
    destruct ph.
    + destruct (Hc eq_refl) as (_ & _ & Hx & _). discriminate.
    + destruct (Hq eq_refl eq_refl Ha) as [Hr ->].
      left. simpl. queue. rewrite Hr. auto.
    + exfalso. apply (Hdt eq_refl); auto. discriminate.
Qed.

Lemma Inv_run_race s c q0 :
  INV s -> jobs s = JRace c :: q0 ->
  INV (run_job typePrefix payloadCreator opts env arg (JRace c) (set_jobs q0 s)).
Proof.
  intros H Hj. open_inv H; open_state s. subst. simpl in *.
  destruct pp as [p|].
  2:{ destruct (He eq_refl) as (_ & Hx & _). discriminate. }
  clear He Hth.
  assert (Hg' : Forall (good_completion typePrefix) (races q0 ++ awaits q0)
                /\ good_completion typePrefix c).
  { inversion Hg; subst; auto. }
  destruct Hg' as [Hg1 Hg2].
  assert (Hkeep : forall d, rp <> Pending -> ap = Pending -> tp = settle_with d ->
            DEC d {| started := st; abortReason := ar; signal_aborted := sg;
                   conditionPromise := cp; payloadPromise := Some p;
                   abortedPromise := ap; thenPromise := tp; racePromise := rp;
                   promise := pr; at_phase := ph; jobs := q0;
                   dispatched := dl; invoked := iv |}).
  { intros d Hrp' Ha Ht.
    destruct (Hna d Ha Ht) as [(_ & Hx & _)|[(H1 & H2)|(H1 & H2 & H3)]];
      simpl in *; [congruence| right; left; auto | right; right; auto]. }
  destruct rp; simpl; setters.
  - clauses.
    + intros Hph. right. exists c. split; auto.
      destruct (Haw Hph) as [[_ Hx]|(c0 & Hx & _)];
        [now rewrite Hx|absurd_settle].
    + intros d Ha Ht.
      destruct (Hna d Ha Ht) as [(H1 & _ & H3)|[(H1 & H2)|(H1 & H2 & H3)]];
        simpl in *.
      * injection H3 as <-. right; left. split; auto. simpl. queue.
        destruct (Haw H1) as [[_ ->]|(c0 & Hx & _)]; [reflexivity|absurd_settle].
      * destruct (Haw H1) as [[_ Hx]|(c0 & Hx & _)]; [congruence|absurd_settle].
      * exfalso. apply (Hdr H1); [discriminate|reflexivity].
  - clauses. intros. apply Hkeep; auto. discriminate.
  - clauses. intros. apply Hkeep; auto. discriminate.
Qed.

Lemma Inv_run_await s c q0 :
  INV s -> jobs s = JAwait c :: q0 ->
  INV (run_job typePrefix payloadCreator opts env arg (JAwait c) (set_jobs q0 s)).
Proof.
  intros H Hj. open_inv H; open_state s. subst. simpl in *.
  destruct pp as [p|].
  2:{ destruct (He eq_refl) as (_ & _ & Hx & _). discriminate. }
  clear He Hth.
  destruct ph.
  { destruct (Hc eq_refl) as (_ & _ & Hx & _). discriminate. }
  2:{ destruct (Hdn eq_refl) as (Hx & _). discriminate. }
  destruct (Hrp eq_refl) as (-> & -> & -> & _).
  destruct (Haw eq_refl) as [[_ Hx]|(c0 & -> & Hx)]; [discriminate|].
  injection Hx as <- Hx.
  assert (Hg' : good_completion typePrefix c).
  { rewrite Forall_app in Hg. destruct Hg as [_ Hg]. now inversion Hg. }
  assert (Heq : forall s0,
            match c with
            | Normal a => finish typePrefix opts env a s0
            | Throw e => catch typePrefix opts env arg e s0
            end
            = finish typePrefix opts env (final_action typePrefix opts env arg c) s0).
  { intros s0. destruct c; reflexivity. }
  rewrite Heq. clear Heq.
  rewrite finish_final.
  2:{ destruct c; simpl; auto. apply is_final_catch_action. }
  setters. clauses.
  - intros _. split; [exact Hx|]. eexists. split; [reflexivity|].
    destruct c; [exact Hg'|apply is_final_catch_action].
  - intros _ _. apply settle_with_not_pending.
  - intros _ _ Ha Ht. destruct (Hq eq_refl Ht Ha) as [_ Hy]. absurd_settle.
  - rewrite Hx, app_nil_r. rewrite Forall_app in Hg. tauto.
  - intros d Ha Ht.
    destruct (Hna d Ha Ht) as [(_ & Hy & _)|[(_ & H2)|(H1 & _)]];
      simpl in *; [absurd_settle| |discriminate].
    injection H2 as <- _. right; right. auto.
Qed.

Theorem Inv_step s ev : INV s -> INV (step' s ev).
Proof.
  intros H. destruct ev as [r|c|c|].
  - now apply Inv_abort.
  - now apply Inv_settle_payload.
  - now apply Inv_settle_condition.
  - simpl. destruct (jobs s) as [|[c|c|c|c] q0] eqn:Hj; [assumption| | | |].
    + now apply Inv_run_cond.
    + now apply Inv_run_then.
    + now apply Inv_run_race.
    + now apply Inv_run_await.
Qed.

Lemma Inv_steps schedule : forall s, INV s -> INV (fold_left step' schedule s).
Proof.
  induction schedule as [|ev l IH]; intros s H; simpl; auto using Inv_step.
Qed.

(** *** Once decided, the outcome stands *)

Lemma Decided_same d s s' :
  DEC d s -> at_phase s' = at_phase s -> racePromise s' = racePromise s ->
  jobs s' = jobs s -> promise s' = promise s -> dispatched s' = dispatched s ->
  DEC d s'.
Proof.
  unfold Decided. intros H -> -> -> -> ->. exact H.
Qed.

Lemma Decided_abort d s reason : DEC d s -> DEC d (abort' reason s).
Proof.
  intros H. unfold abort. destruct (started s); [|assumption].
  unfold controller_abort.
  destruct (AbortController_defined env && negb (signal_aborted (set_abortReason reason s))).
  2:{ eapply Decided_same; eauto. }
  destruct (abortedPromise (set_signal_aborted true (set_abortReason reason s))).
  2,3: eapply Decided_same; eauto.
  destruct (payloadPromise _).
  - apply Decided_enqueue; [exact I|]. eapply Decided_same; eauto.
  - eapply Decided_same; eauto.
Qed.

Lemma Decided_step d s ev : INV s -> DEC d s -> DEC d (step' s ev).
Proof.
  intros HI H. destruct ev as [r|c|c|].
  - now apply Decided_abort.
  - simpl. destruct (payloadPromise s) as [[| |]|]; auto.
    apply Decided_enqueue; [exact I|]. eapply Decided_same; eauto.
  - simpl. destruct (conditionPromise s) as [[| |]|] eqn:Hcp; auto.
    exfalso. apply (inv_nocond _ _ _ _ _ _ HI); auto.
    destruct H as [(H1 & _)|[(H1 & _)|(H1 & _)]]; congruence.
  - simpl. destruct (jobs s) as [|[c|c|c|c] q0] eqn:Hj; [assumption| | | |].
    + exfalso. assert (Hp : at_phase s <> AtCondition)
        by (destruct H as [(H1 & _)|[(H1 & _)|(H1 & _)]]; congruence).
      destruct (inv_nocond _ _ _ _ _ _ HI Hp) as [Hx _].
      rewrite Hj in Hx. discriminate.
    + simpl. apply Decided_enqueue; [exact I|].
      open_state s. subst.
      destruct H as [(H1 & H2 & H3)|[(H1 & H2)|(H1 & H2 & H3)]];
        simpl in *; [left|right; left|right; right]; auto.
    + open_inv HI. open_state s. subst. simpl in *.
      destruct H as [(H1 & H2 & H3)|[(H1 & H2)|(H1 & H2 & H3)]]; simpl in *.
      * subst. injection H3 as <-. setters. right; left. split; auto.
        simpl. rewrite awaits_app. simpl.
        destruct (Haw eq_refl) as [[_ Hx]|(c0 & Hx & _)];
          [now rewrite Hx|absurd_settle].
      * subst. destruct (Haw eq_refl) as [[_ Hx]|(c0 & -> & _)]; [congruence|].
        destruct c0; simpl; right; left; auto.
      * subst. destruct pp as [p|].
        2:{ destruct (He eq_refl) as (_ & Hx & _). discriminate. }
        destruct rp; [exfalso; apply (Hdr eq_refl); congruence| |];
          right; right; auto.
    + open_inv HI. open_state s. subst. simpl in *.
      destruct H as [(H1 & H2 & H3)|[(H1 & H2)|(H1 & H2 & H3)]]; simpl in *.
      * subst. destruct (Haw eq_refl) as [[_ Hx]|(c0 & Hx & _)];
          [discriminate|absurd_settle].
      * subst. injection H2 as -> H2.
        destruct (Hrp eq_refl) as (_ & _ & -> & _).
        assert (Hg' : good_completion typePrefix d).
        { rewrite Forall_app in Hg. destruct Hg as [_ Hg]. now inversion Hg. }
        assert (Heq : forall s0,
            match d with
            | Normal a => finish typePrefix opts env a s0
            | Throw e => catch typePrefix opts env arg e s0
            end
            = finish typePrefix opts env (final_action typePrefix opts env arg d) s0).
        { intros s0. destruct d; reflexivity. }
        rewrite Heq. rewrite finish_final.
        2:{ destruct d; simpl; auto. apply is_final_catch_action. }
        right; right. simpl. auto.
      * subst. destruct (Hdn eq_refl) as (Hx & _). discriminate.
Qed.

Lemma Decided_steps d schedule :
  forall s, INV s -> DEC d s -> DEC d (fold_left step' schedule s).
Proof.
  induction schedule as [|ev l IH]; intros s HI H; simpl; auto.
  apply IH; auto using Inv_step, Decided_step.
Qed.

(** *** The queue runs empty *)

Lemma queue_weight_app q q' :
  queue_weight (q ++ q') = queue_weight q + queue_weight q'.
Proof. induction q; simpl; lia. Qed.

Lemma jobs_finish a s : jobs (finish typePrefix opts env a s) = jobs s.
Proof.
  unfold finish. destruct (skipDispatch typePrefix opts a); [reflexivity|].
  now destruct (dispatch_throws env a).
Qed.

Lemma jobs_catch e s : jobs (catch typePrefix opts env arg e s) = jobs s.
Proof. apply jobs_finish. Qed.

Lemma weight_after_condition v ar cp :
  queue_weight
    (jobs (after_condition typePrefix payloadCreator opts env arg v
       {| started := false; abortReason := ar; signal_aborted := false;
          conditionPromise := cp; payloadPromise := None;
          abortedPromise := Pending; thenPromise := Pending;
          racePromise := Pending; promise := Pending;
          at_phase := AtCondition; jobs := []; dispatched := [];
          invoked := 0 |})) <= 5.
Proof.
  unfold after_condition.
  destruct (is_false v); [rewrite jobs_catch; simpl; lia|].
  simpl. fold (pendingAction typePrefix opts env arg).
  destruct (dispatch_throws env (pendingAction typePrefix opts env arg));
    [rewrite jobs_catch; simpl; lia|].
  setters.
  destruct (sync_aborts_shape
              (sync_aborts (payloadCreator arg (requestId opts env arg)))
              ar false cp Pending [pendingAction typePrefix opts env arg] 1)
    as (ar' & sg' & ap' & -> & H1 & H2); [auto|discriminate|].
  destruct (outcome (payloadCreator arg (requestId opts env arg))) as [e|x|p];
    [rewrite jobs_catch; simpl; lia| |].
  - unfold start_race. destruct ap'; simpl; lia.
  - unfold start_race. destruct p, ap'; simpl; lia.
Qed.

Lemma weight_step s :
  INV s -> jobs s <> [] ->
  queue_weight (jobs (step' s Microtask)) < queue_weight (jobs s).
Proof.
  intros H Hne. simpl.
  destruct (jobs s) as [|[c|c|c|c] q0] eqn:Hj; [congruence| | | |].
  - open_inv H; open_state s. subst.
    destruct ph.
    2,3: destruct Hnc as [Hnc _]; [discriminate|]; discriminate.
    destruct (Hc eq_refl) as (-> & -> & -> & -> & -> & -> & p & -> & Hj').
    destruct (He eq_refl) as (_ & _ & _ & -> & ->).
    destruct Hsig as [Hs _]. rewrite (Hs eq_refl).
    assert (q0 = []) as ->.
    { destruct p; simpl in Hj'; inversion Hj'; reflexivity. }
    unfold set_jobs; simpl.
    destruct c; simpl.
    + pose proof (weight_after_condition v ar (Some p)). lia.
    + rewrite jobs_catch. simpl. lia.
  - simpl. destruct s; simpl. rewrite queue_weight_app. simpl.
    lia.
  - open_state s. destruct rp; simpl; rewrite ?queue_weight_app; simpl; lia.
  - destruct c; simpl; rewrite ?jobs_catch, ?jobs_finish; destruct s; simpl; lia.
Qed.

Lemma drain_Inv n : forall s, INV s -> INV (drain typePrefix payloadCreator opts env arg n s).
Proof.
  induction n as [|n IH]; intros s H; simpl; auto.
  destruct (jobs s) eqn:Hj; auto. apply IH.
  pose proof (Inv_step s Microtask H) as H'. simpl in H'. now rewrite Hj in H'.
Qed.

Lemma drain_Decided d n :
  forall s, INV s -> DEC d s -> DEC d (drain typePrefix payloadCreator opts env arg n s).
Proof.
  induction n as [|n IH]; intros s H Hd; simpl; auto.
  destruct (jobs s) eqn:Hj; auto.
  pose proof (Inv_step s Microtask H) as H'.
  pose proof (Decided_step d s Microtask H Hd) as Hd'.
  simpl in H', Hd'. rewrite Hj in H', Hd'. now apply IH.
Qed.

Lemma drain_empty n :
  forall s, INV s -> queue_weight (jobs s) <= n ->
  jobs (drain typePrefix payloadCreator opts env arg n s) = [].
Proof.
  induction n as [|n IH]; intros s H Hw; simpl.
  - destruct (jobs s) as [|[] q0]; simpl in Hw; auto; lia.
  - destruct (jobs s) eqn:Hj; auto.
    pose proof (Inv_step s Microtask H) as H'.
    pose proof (weight_step s H) as Hlt.
    simpl in H', Hlt. rewrite Hj in H', Hlt.
    apply IH; auto.
    assert (j :: l <> []) as Hne by discriminate.
    specialize (Hlt Hne). lia.
Qed.

(** *** Reachable states *)

Lemma Inv_run schedule :
  INV (run typePrefix payloadCreator opts env arg schedule).
Proof. apply drain_Inv, Inv_steps, Inv_start. Qed.

Lemma jobs_run schedule :
  jobs (run typePrefix payloadCreator opts env arg schedule) = [].
Proof. apply drain_empty; [apply Inv_steps, Inv_start|lia]. Qed.

Lemma Decided_done d s :
  DEC d s -> jobs s = [] ->
  promise s = Fulfilled (final_action typePrefix opts env arg d)
  /\ dispatched s = pendingAction typePrefix opts env arg
                     :: shown typePrefix opts (final_action typePrefix opts env arg d).
Proof.
  intros [(_ & _ & H)|[(_ & H)|(_ & H1 & H2)]] Hj.
  - rewrite Hj in H. discriminate.
  - rewrite Hj in H. discriminate.
  - auto.
Qed.

(** When the signal never fired, the settled payload promise decides
    the final event. *)
Lemma outcome_without_abort s c :
  INV s -> jobs s = [] -> abortedPromise s = Pending ->
  payloadPromise s = Some (settle_with c) ->
  let d := then_callback typePrefix opts env arg c in
  promise s = Fulfilled (final_action typePrefix opts env arg d)
  /\ dispatched s = pendingAction typePrefix opts env arg
                     :: shown typePrefix opts (final_action typePrefix opts env arg d).
Proof.
  intros H Hj Ha Hp d.
  assert (Ht : thenPromise s = settle_with d).
  { destruct (thenPromise s) eqn:E.
    - pose proof (inv_then_pending _ _ _ _ _ _ H _ Hp E) as Hx.
      rewrite Hj, settled_settle_with in Hx. discriminate.
    - destruct (inv_then_settled _ _ _ _ _ _ H _ Hp) as (_ & c' & Hc' & Hx);
        [congruence|]. apply settle_with_inj in Hc'. subst c'.
      rewrite <- E. exact Hx.
    - destruct (inv_then_settled _ _ _ _ _ _ H _ Hp) as (_ & c' & Hc' & Hx);
        [congruence|]. apply settle_with_inj in Hc'. subst c'.
      rewrite <- E. exact Hx. }
  apply Decided_done; auto.
  apply (inv_noabort _ _ _ _ _ _ H); auto.
Qed.

(** A synchronous throw of the payload creator decides the final
    event. *)
Lemma outcome_of_throw s e :
  INV s -> invoked s = 1 ->
  outcome (payloadCreator arg (requestId opts env arg)) = Throws e ->
  promise s = Fulfilled (catch_action typePrefix opts env arg e)
  /\ dispatched s = pendingAction typePrefix opts env arg
                     :: shown typePrefix opts (catch_action typePrefix opts env arg e).
Proof.
  intros H Hi Ho.
  destruct (inv_thrown _ _ _ _ _ _ H Hi) as [Hp Hd]; [eauto|].
  destruct (inv_throw _ _ _ _ _ _ H Hp Hd Hi) as (e' & He' & Hx).
  rewrite Ho in He'. injection He' as <-. exact Hx.
Qed.

(** With an empty queue the promise is pending only while the
    condition or the payload and the abort signal are. *)
Lemma settled_or_waiting s :
  INV s -> jobs s = [] ->
  (exists a, promise s = Fulfilled a /\ is_final typePrefix a = true)
  \/ (promise s = Pending
      /\ (conditionPromise s = Some Pending
          \/ (payloadPromise s = Some Pending /\ abortedPromise s = Pending))).
Proof.
  intros H Hj. destruct (at_phase s) eqn:Hph.
  - right. destruct (inv_cond _ _ _ _ _ _ H Hph)
      as (_ & _ & _ & Hp & _ & _ & p & Hcp & Hq).
    split; auto. left. rewrite Hj in Hq.
    destruct p; simpl in Hq; try discriminate. exact Hcp.
  - right. destruct (inv_race_phase _ _ _ _ _ _ H Hph) as (_ & Hp & _).
    split; auto. right.
    destruct (inv_await _ _ _ _ _ _ H Hph) as [[Hr _]|(c & _ & Hx)].
    2:{ rewrite Hj in Hx. discriminate. }
    destruct (inv_live _ _ _ _ _ _ H Hph Hr) as [Hx|[Hx|Hx]];
      rewrite ?Hj in Hx; simpl in Hx; tauto.
  - left. now destruct (inv_done _ _ _ _ _ _ H Hph).
Qed.

(** An abort while the [.then] callback has not run decides the
    race. *)
Lemma abort_decides s reason :
  INV s -> AbortController_defined env = true ->
  started s = true -> promise s = Pending ->
  thenPromise s = Pending -> signal_aborted s = false ->
  DEC (Throw (VObj [("name", VStr "AbortError");
                    ("message", js_or reason (VStr "Aborted"))]))
      (abort' reason s).
Proof.
  intros H Hn Hst Hpr Ht Hsg.
  assert (Hph : at_phase s = AtRace).
  { destruct (at_phase s) eqn:E; auto.
    - destruct (inv_cond _ _ _ _ _ _ H E) as (Hx & _). congruence.
    - destruct (inv_done _ _ _ _ _ _ H E) as (_ & a & Hx & _). congruence. }
  pose proof (proj1 (inv_signal _ _ _ _ _ _ H) Hsg) as Ha.
  destruct (inv_quiet _ _ _ _ _ _ H Hph Ht Ha) as [Hr Hrp].
  destruct (inv_race_phase _ _ _ _ _ _ H Hph) as (_ & _ & _ & Hpp).
  unfold abort, controller_abort. rewrite Hst. simpl. rewrite Hn, Hsg. simpl.
  rewrite Ha. simpl.
  destruct (payloadPromise s) as [p|] eqn:Hp; [|congruence].
  left. open_state s. subst. simpl.
  repeat split. rewrite races_app, Hr. reflexivity.
Qed.

End Reachable.

(** ** Runs without a call of [abort] *)

Section NoAbort.

Variable typePrefix : string.
Variable payloadCreator : value -> string -> creator_run.
Variable opts : option options.
Variable env : environment.
Variable arg : value.

Hypothesis no_sync_aborts :
  sync_aborts (payloadCreator arg (requestId opts env arg)) = [].

#[local] Abbreviation step' := (step typePrefix payloadCreator opts env arg).

Lemma abortedPromise_finish a s :
  abortedPromise (finish typePrefix opts env a s) = abortedPromise s.
Proof.
  unfold finish. destruct (skipDispatch typePrefix opts a); [reflexivity|].
  now destruct (dispatch_throws env a).
Qed.

Lemma abortedPromise_after_condition v s :
  abortedPromise (after_condition typePrefix payloadCreator opts env arg v s)
  = abortedPromise s.
Proof.
  unfold after_condition, catch.
  destruct (is_false v); [now rewrite abortedPromise_finish|].
  destruct (dispatch_throws env _); [now rewrite abortedPromise_finish|].
  rewrite no_sync_aborts. simpl.
  destruct (outcome _) as [e|x|p]; [now rewrite abortedPromise_finish| |];
    unfold start_race; destruct s as [st ar sg cp pp ap tp rp pr ph q dl iv];
    simpl.
  - destruct ap; reflexivity.
  - destruct p, ap; reflexivity.
Qed.

Lemma abortedPromise_step s ev :
  is_abort ev = false -> abortedPromise (step' s ev) = abortedPromise s.
Proof.
  intros Hev. destruct ev as [r|c|c|]; try discriminate; simpl.
  - now destruct (payloadPromise s) as [[| |]|].
  - now destruct (conditionPromise s) as [[| |]|].
  - destruct (jobs s) as [|[[v|e]|c|c|[a|e]] q0]; simpl; auto.
    + now rewrite abortedPromise_after_condition.
    + unfold catch. now rewrite abortedPromise_finish.
    + now destruct (racePromise s).
    + now rewrite abortedPromise_finish.
    + unfold catch. now rewrite abortedPromise_finish.
Qed.

Lemma abortedPromise_steps schedule :
  no_aborts schedule = true ->
  forall s, abortedPromise (fold_left step' schedule s) = abortedPromise s.
Proof.
  induction schedule as [|ev l IH]; simpl; intros H s; auto.
  apply andb_true_iff in H. destruct H as [H1 H2].
  rewrite IH by assumption. apply abortedPromise_step.
  now apply negb_true_iff.
Qed.

Lemma abortedPromise_drain n s :
  abortedPromise (drain typePrefix payloadCreator opts env arg n s)
  = abortedPromise s.
Proof.
  revert s. induction n as [|n IH]; intros s; simpl; auto.
  destruct (jobs s) eqn:Hj; auto. rewrite IH.
  pose proof (abortedPromise_step s Microtask eq_refl) as H.
  simpl in H. now rewrite Hj in H.
Qed.

Lemma abortedPromise_start :
  abortedPromise (start typePrefix payloadCreator opts env arg) = Pending.
Proof.
  unfold start.
  destruct (match opts with Some o => condition o | None => None end) as [cond|].
  2:{ now rewrite abortedPromise_after_condition. }
  destruct (cond arg) as [e|v|p].
  - unfold catch. now rewrite abortedPromise_finish.
  - now rewrite abortedPromise_after_condition.
  - now destruct p.
Qed.

Lemma abortedPromise_run schedule :
  no_aborts schedule = true ->
  abortedPromise (run typePrefix payloadCreator opts env arg schedule) = Pending.
Proof.
  intros H. unfold run. rewrite abortedPromise_drain.
  rewrite abortedPromise_steps by assumption. apply abortedPromise_start.
Qed.

End NoAbort.

Lemma type_strings_differ (typePrefix : string) :
  String.eqb (typePrefix ++ "/fulfilled") (typePrefix ++ "/rejected") = false.
Proof.
  induction typePrefix as [|c t IH]; simpl; [reflexivity|].
  now rewrite Ascii.eqb_refl.
Qed.

Lemma shown_fulfilled typePrefix opts payload rid arg meta :
  shown typePrefix opts (fulfilled typePrefix payload rid arg meta)
  = [fulfilled typePrefix payload rid arg meta].
Proof.
  unfold shown, skipDispatch. destruct opts as [o|]; [|reflexivity].
  unfold action_match. rewrite type_of_fulfilled. simpl.
  rewrite type_strings_differ. now rewrite andb_false_r.
Qed.

(** ** The lifecycle of one invocation *)

Lemma unwrapResult_plain typePrefix V rid arg :
  unwrapResult (fulfilled typePrefix V rid arg VUndef) = Normal V.
Proof. reflexivity. Qed.



Lemma own_props_js_or M : own_props (js_or M (VObj [])) = own_props M.
Proof.
  destruct M as [| |[]|n|s|o|p m|p m]; try reflexivity.
  - unfold js_or; simpl. now destruct (Z.eqb n 0).
  - unfold js_or; simpl. destruct (String.eqb_spec s ""); subst; reflexivity.
Qed.

Lemma not_engine_key k :
  ~ In k engine_keys ->
  forallb (fun kv : string * value => negb (String.eqb k (fst kv)))
    [("arg", VUndef); ("requestId", VUndef); ("rejectedWithValue", VUndef);
     ("requestStatus", VUndef); ("aborted", VUndef); ("condition", VUndef)] = true.
Proof.
  intros H. simpl.
  repeat match goal with
  | |- context [String.eqb k ?x] =>
      let E := fresh in
      destruct (String.eqb_spec k x) as [E|E];
        [exfalso; apply H; rewrite E; simpl; tauto|]
  end.
  reflexivity.
Qed.

(** The user's meta survives in a rejected event's meta outside the
    engine's own keys. *)
Lemma rejected_meta_keeps typePrefix opts error rid arg payload M k :
  ~ In k engine_keys -> NoDup (map fst (own_props M)) ->
  obj_get k (own_props (meta_of (rejected typePrefix opts error rid arg payload M)))
  = obj_get k (own_props M).
Proof.
  intros Hk Hnd. rewrite meta_of_rejected. cbn [own_props].
  rewrite obj_get_with_fields_other.
  - rewrite own_props_js_or. now apply obj_get_spread.
  - pose proof (not_engine_key k Hk) as H. simpl in *. exact H.
Qed.

Lemma shown_rejected_with_value typePrefix opts rid arg P M :
  shown typePrefix opts (rejected typePrefix opts VNull rid arg P M)
  = [rejected typePrefix opts VNull rid arg P M].
Proof.
  unfold shown, skipDispatch. destruct opts as [o|]; [|reflexivity].
  assert (H : get (get (rejected typePrefix (Some o) VNull rid arg P M) "meta")
                "condition" = VBool false).
  { change (get (rejected typePrefix (Some o) VNull rid arg P M) "meta")
      with (meta_of (rejected typePrefix (Some o) VNull rid arg P M)).
    meta_field. }
  rewrite H. simpl. now rewrite andb_false_r.
Qed.




(** The default serializer keeps exactly the string-typed ones of the
    four common properties. *)
Lemma miniSerializeError_object (e : object) :
  exists E,
    miniSerializeError (VObj e) = VObj E
    /\ forall k,
         obj_get k E
         = if existsb (String.eqb k) commonProperties && is_string (get (VObj e) k)
           then Some (get (VObj e) k) else None.
Proof.
  unfold miniSerializeError. cbn [is_object].
  eexists. split; [reflexivity|]. intros k.
  remember (get (VObj e)) as g eqn:Hg. clear Hg. simpl.
  destruct (is_string (g "name")) eqn:H1;
  destruct (is_string (g "message")) eqn:H2;
  destruct (is_string (g "stack")) eqn:H3;
  destruct (is_string (g "code")) eqn:H4;
  simpl;
  (destruct (String.eqb_spec k "name") as [->|?];
   [|destruct (String.eqb_spec k "message") as [->|?];
     [|destruct (String.eqb_spec k "stack") as [->|?];
       [|destruct (String.eqb_spec k "code") as [->|?]]]]);
  simpl; rewrite ?H1, ?H2, ?H3, ?H4; reflexivity.
Qed.

Lemma the_serializer_default opts :
  default_serializer opts -> the_serializer opts = miniSerializeError.
Proof.
  destruct opts as [o|]; simpl; [|reflexivity]. now intros ->.
Qed.



(** ** Cancellation *)

Section Cancellation.

Variable typePrefix : string.
Variable payloadCreator : value -> string -> creator_run.
Variable opts : option options.
Variable env : environment.
Variable arg : value.

Hypothesis final_ok :
  forall a, is_final typePrefix a = true -> dispatch_throws env a = None.

#[local] Abbreviation step' := (step typePrefix payloadCreator opts env arg).
#[local] Abbreviation run' := (run typePrefix payloadCreator opts env arg).
#[local] Abbreviation start' := (start typePrefix payloadCreator opts env arg).

Lemma run_app before after :
  run' (before ++ after)
  = let s := fold_left step' after (fold_left step' before start') in
    drain typePrefix payloadCreator opts env arg (queue_weight (jobs s)) s.
Proof. unfold run. now rewrite fold_left_app. Qed.

Lemma Inv_prefix before :
  Inv typePrefix payloadCreator opts env arg (fold_left step' before start').
Proof. apply Inv_steps, Inv_start; assumption. Qed.

(** From a decided state every continuation ends with the decided
    event. *)
Lemma Decided_outcome d s after :
  Inv typePrefix payloadCreator opts env arg s ->
  Decided typePrefix opts env arg d s ->
  let s' := fold_left step' after s in
  promise (drain typePrefix payloadCreator opts env arg (queue_weight (jobs s')) s')
  = Fulfilled (final_action typePrefix opts env arg d).
Proof.
  intros HI HD s'.
  assert (HI' : Inv typePrefix payloadCreator opts env arg s')
    by (apply Inv_steps; assumption).
  assert (HD' : Decided typePrefix opts env arg d s')
    by (apply Decided_steps; assumption).
  apply (Decided_done typePrefix opts env arg d).
  - apply drain_Decided; assumption.
  - apply drain_empty; auto.
Qed.

(** The rejected event of an abort with [reason]. *)
Lemma aborted_event reason :
  let a := final_action typePrefix opts env arg (Throw (AbortError reason)) in
  get a "type" = VStr (typePrefix ++ "/rejected")
  /\ get (meta_of a) "aborted" = VBool true.
Proof. split; [reflexivity|]. simpl. meta_field. Qed.

Lemma aborted_message reason :
  default_serializer opts ->
  reason = VUndef \/ (exists x, reason = VStr x) ->
  get (get (final_action typePrefix opts env arg (Throw (AbortError reason))) "error")
    "message" = js_or reason (VStr "Aborted").
Proof.
  intros Hser Hr.
  change (final_action typePrefix opts env arg (Throw (AbortError reason)))
    with (rejected typePrefix opts (AbortError reason)
            (requestId opts env arg) arg VUndef VUndef).
  rewrite error_of_rejected, the_serializer_default by assumption.
  destruct Hr as [->|[x ->]]; [reflexivity|].
  unfold AbortError, js_or. simpl. destruct (String.eqb x ""); reflexivity.
Qed.

(** A pending payload promise with an unfired signal: the thunk is
    armed and racing, and the [.then] callback has not run. *)
Lemma racing s :
  Inv typePrefix payloadCreator opts env arg s ->
  payloadPromise s = Some Pending -> signal_aborted s = false ->
  started s = true /\ promise s = Pending /\ thenPromise s = Pending.
Proof.
  intros H Hp Hs.
  pose proof (proj1 (inv_signal _ _ _ _ _ _ H) Hs) as Ha.
  assert (Ht : thenPromise s = Pending).
  { destruct (thenPromise s) eqn:E; auto;
      destruct (inv_then_settled _ _ _ _ _ _ H _ Hp) as (_ & c & Hc & _);
      try congruence; absurd_settle. }
  destruct (at_phase s) eqn:Hph.
  - destruct (inv_cond _ _ _ _ _ _ H Hph) as (_ & _ & Hx & _). congruence.
  - destruct (inv_race_phase _ _ _ _ _ _ H Hph) as (? & ? & _). auto.
  - exfalso. apply (inv_done_then _ _ _ _ _ _ H Hph); auto. congruence.
Qed.

End Cancellation.






(** ** The condition gate *)

Section ConditionGate.

Variable typePrefix : string.
Variable payloadCreator : value -> string -> creator_run.
Variable opts : option options.
Variable env : environment.
Variable arg : value.

#[local] Abbreviation step' := (step typePrefix payloadCreator opts env arg).
#[local] Abbreviation rejected_state := (condition_rejected typePrefix opts env arg).
#[local] Abbreviation Path := (ConditionPath typePrefix opts env arg).

Lemma conditionPromise_finish a s :
  conditionPromise (finish typePrefix opts env a s) = conditionPromise s.
Proof.
  unfold finish. destruct (skipDispatch typePrefix opts a); [reflexivity|].
  now destruct (dispatch_throws env a).
Qed.

Lemma conditionPromise_abort r s :
  conditionPromise (abort env r s) = conditionPromise s.
Proof.
  unfold abort, controller_abort. destruct s as [st ar sg cp pp ap tp rp pr ph q dl iv].
  simpl. destruct st; [|reflexivity]. simpl.
  destruct (AbortController_defined env), sg; simpl; try reflexivity.
  destruct ap; simpl; try reflexivity. now destruct pp.
Qed.

Lemma conditionPromise_aborts l : forall s,
  conditionPromise (fold_left (fun s reason => abort env reason s) l s)
  = conditionPromise s.
Proof.
  induction l as [|r l IH]; intros s; simpl; auto.
  now rewrite IH, conditionPromise_abort.
Qed.

Lemma conditionPromise_start_race p s :
  conditionPromise (start_race p s) = conditionPromise s.
Proof.
  unfold start_race. destruct s as [st ar sg cp pp ap tp rp pr ph q dl iv].
  destruct p, ap; reflexivity.
Qed.

Lemma conditionPromise_after_condition v s :
  conditionPromise (after_condition typePrefix payloadCreator opts env arg v s)
  = conditionPromise s.
Proof.
  unfold after_condition, catch.
  destruct (is_false v); [now rewrite conditionPromise_finish|].
  destruct (dispatch_throws env _); [now rewrite conditionPromise_finish|].
  destruct (outcome _);
    rewrite ?conditionPromise_finish, ?conditionPromise_start_race,
      conditionPromise_aborts; now destruct s.
Qed.

Lemma conditionPromise_step s ev :
  conditionPromise s <> Some Pending ->
  conditionPromise (step' s ev) = conditionPromise s.
Proof.
  intros H. destruct ev as [r|c|c|]; cbn [step].
  - apply conditionPromise_abort.
  - destruct (payloadPromise s) as [[| |]|]; destruct s; reflexivity.
  - destruct (conditionPromise s) as [[| |]|] eqn:E; auto. now elim H.
  - destruct (jobs s) as [|[[v|e]|c|c|[a|e]] q0]; cbn [run_job]; auto;
      unfold catch;
      rewrite ?conditionPromise_after_condition, ?conditionPromise_finish;
      destruct s as [st ar sg cp pp ap tp rp pr ph q dl iv];
      try destruct rp; reflexivity.
Qed.

(** Once the [ConditionError] is caught nothing changes any more. *)
Lemma rejected_state_frozen cp ev :
  cp <> Some Pending -> step' (rejected_state cp) ev = rejected_state cp.
Proof.
  intros Hcp. unfold condition_rejected, catch, finish.
  destruct (skipDispatch _ _ _); [|destruct (dispatch_throws env _)];
    destruct ev as [r|c|c|]; simpl; try reflexivity;
    destruct cp as [[| |]|]; try reflexivity; now elim Hcp.
Qed.

Lemma Path_step s ev : Path s -> Path (step' s ev).
Proof.
  unfold ConditionPath. intros H.
  destruct (conditionPromise s) as [[|v|e]|] eqn:Hcp.
  - subst s. destruct ev as [r|c|[[| |[]| | | | |]|]|]; simpl; auto.
  - assert (Hs : conditionPromise (step' s ev) = conditionPromise s)
      by (apply conditionPromise_step; congruence).
    rewrite Hs, Hcp. destruct v as [| |[]| | | | |]; auto.
    destruct H as [->| ->].
    + destruct ev as [r|c|c|]; simpl; auto.
    + rewrite rejected_state_frozen; [auto|discriminate].
  - assert (Hs : conditionPromise (step' s ev) = conditionPromise s)
      by (apply conditionPromise_step; congruence).
    now rewrite Hs, Hcp.
  - assert (Hs : conditionPromise (step' s ev) = conditionPromise s)
      by (apply conditionPromise_step; congruence).
    now rewrite Hs, Hcp.
Qed.

Lemma Path_steps l : forall s, Path s -> Path (fold_left step' l s).
Proof.
  induction l as [|ev l IH]; intros s H; simpl; auto using Path_step.
Qed.

Lemma rejected_state_steps cp l :
  cp <> Some Pending -> fold_left step' l (rejected_state cp) = rejected_state cp.
Proof.
  intros H. induction l as [|ev l IH]; simpl; auto.
  now rewrite rejected_state_frozen.
Qed.

Lemma jobs_rejected_state cp : jobs (rejected_state cp) = [].
Proof.
  unfold condition_rejected, catch, finish.
  destruct (skipDispatch _ _ _); [reflexivity|].
  now destruct (dispatch_throws env _).
Qed.

Lemma drain_idle n s :
  jobs s = [] -> drain typePrefix payloadCreator opts env arg n s = s.
Proof. intros H. destruct n; simpl; [reflexivity|]. now rewrite H. Qed.

Lemma conditionPromise_drain n : forall s,
  conditionPromise s <> Some Pending ->
  conditionPromise (drain typePrefix payloadCreator opts env arg n s)
  = conditionPromise s.
Proof.
  induction n as [|n IH]; intros s H; simpl; auto.
  destruct (jobs s) eqn:Hj; auto.
  pose proof (conditionPromise_step s Microtask H) as Hs.
  cbn [step] in Hs. rewrite Hj in Hs.
  rewrite IH; [exact Hs|]. now rewrite Hs.
Qed.

(** The run whose condition promise was fulfilled with [false] ends in
    the state the caught [ConditionError] leaves. *)
Lemma Path_end s :
  Path s ->
  let f := drain typePrefix payloadCreator opts env arg (queue_weight (jobs s)) s in
  conditionPromise f = Some (Fulfilled (VBool false)) ->
  f = rejected_state (Some (Fulfilled (VBool false))).
Proof.
  intros H. cbv zeta. intros Hf. unfold ConditionPath in H.
  set (f := drain typePrefix payloadCreator opts env arg (queue_weight (jobs s)) s) in *.
  destruct (conditionPromise s) as [[|v|e]|] eqn:Hcp.
  - subst s. unfold f in Hf. simpl in Hf. discriminate Hf.
  - assert (Hs : conditionPromise f = Some (Fulfilled v)).
    { unfold f. rewrite conditionPromise_drain; congruence. }
    rewrite Hs in Hf. injection Hf as ->.
    destruct H as [->| ->].
    + unfold f. change (queue_weight (jobs resuming)) with 6.
      cbn [drain]. change (jobs resuming) with [JCond (Normal (VBool false))].
      cbv iota.
      change (step' resuming Microtask)
        with (rejected_state (Some (Fulfilled (VBool false)))).
      now rewrite jobs_rejected_state.
    + unfold f. apply drain_idle, jobs_rejected_state.
  - assert (Hs : conditionPromise f = Some (Rejected e)).
    { unfold f. rewrite conditionPromise_drain; congruence. }
    congruence.
  - assert (Hs : conditionPromise f = None).
    { unfold f. rewrite conditionPromise_drain; congruence. }
    congruence.
Qed.

End ConditionGate.

Lemma condition_event_flag typePrefix opts rid arg :
  get (meta_of (rejected typePrefix opts ConditionError rid arg VUndef VUndef))
    "condition" = VBool true.
Proof. meta_field. Qed.

Lemma skip_condition_event typePrefix (o : options) rid arg :
  skipDispatch typePrefix (Some o)
    (rejected typePrefix (Some o) ConditionError rid arg VUndef VUndef)
  = negb (truthy (dispatchConditionRejection o)).
Proof.
  unfold skipDispatch.
  change (get (rejected typePrefix (Some o) ConditionError rid arg VUndef VUndef) "meta")
    with (meta_of (rejected typePrefix (Some o) ConditionError rid arg VUndef VUndef)).
  rewrite condition_event_flag. unfold action_match. rewrite type_of_rejected.
  simpl. rewrite String.eqb_refl. now rewrite !andb_true_r.
Qed.

(** What the caught [ConditionError] leaves behind. *)
Lemma condition_rejected_fields typePrefix (o : options) env arg cp :
  let s := condition_rejected typePrefix (Some o) env arg cp in
  let a := rejected typePrefix (Some o) ConditionError
             (requestId (Some o) env arg) arg VUndef VUndef in
  invoked s = 0
  /\ (truthy (dispatchConditionRejection o) = false ->
      dispatched s = [] /\ promise s = Fulfilled a)
  /\ (truthy (dispatchConditionRejection o) = true ->
      dispatched s = [a]
      /\ (dispatch_throws env a = None -> promise s = Fulfilled a)).
Proof.
  intros s a. subst s. unfold condition_rejected, catch.
  change (match ConditionError with
          | VRejectWithValue p m =>
              rejected typePrefix (Some o) VNull (requestId (Some o) env arg) arg p m
          | _ => rejected typePrefix (Some o) ConditionError
                   (requestId (Some o) env arg) arg VUndef VUndef
          end) with a.
  assert (Hskip : skipDispatch typePrefix (Some o) a
                  = negb (truthy (dispatchConditionRejection o)))
    by apply skip_condition_event.
  clearbody a. unfold finish. rewrite Hskip.
  destruct (truthy (dispatchConditionRejection o));
    destruct (dispatch_throws env a) eqn:Hd; simpl;
    repeat split; intros; try discriminate; auto.
Qed.

(** C4: when [condition] returns [false], at once or through a promise,
    the payload creator is not called and no pending event is
    dispatched; the handle resolves to the rejected event of the
    [ConditionError], whose [meta.condition] is [true]; that event is
    dispatched exactly when [dispatchConditionRejection] is truthy, and
    nothing at all is dispatched when it is not. *)
Theorem C4_condition_false
    (typePrefix : string) (payloadCreator : value -> string -> creator_run)
    (o : options) (cond : value -> call_result)
    (env : environment) (arg : value) (schedule : list event) :
  condition o = Some cond ->
  let s := run typePrefix payloadCreator (Some o) env arg schedule in
  cond arg = Returns (VBool false)
  \/ ((exists p, cond arg = ReturnsPromise p)
      /\ conditionPromise s = Some (Fulfilled (VBool false))) ->
  let a := rejected typePrefix (Some o) ConditionError
             (requestId (Some o) env arg) arg VUndef VUndef in
  invoked s = 0
  /\ get a "type" = VStr (typePrefix ++ "/rejected")
  /\ get (meta_of a) "condition" = VBool true
  /\ (truthy (dispatchConditionRejection o) = false ->
      dispatched s = [] /\ promise s = Fulfilled a)
  /\ (truthy (dispatchConditionRejection o) = true ->
      dispatched s = [a]
      /\ (dispatch_throws env a = None -> promise s = Fulfilled a)).
Proof.
  intros Hcond s Hfalse a.
  assert (Hs : exists cp, s = condition_rejected typePrefix (Some o) env arg cp).
  { destruct Hfalse as [Hret|[[p Hp] Hcp]].
    - exists None. unfold s, run.
      assert (Hst : start typePrefix payloadCreator (Some o) env arg
                    = condition_rejected typePrefix (Some o) env arg None).
      { unfold start. rewrite Hcond, Hret. reflexivity. }
      rewrite Hst, rejected_state_steps by discriminate.
      apply drain_idle, jobs_rejected_state.
    - exists (Some (Fulfilled (VBool false))).
      apply Path_end; [|exact Hcp].
      apply Path_steps. unfold ConditionPath, start. rewrite Hcond, Hp.
      destruct p as [|[| |[]| | | | |]|]; simpl; auto. }
  destruct Hs as [cp Hs].
  destruct (condition_rejected_fields typePrefix o env arg cp) as (H1 & H2 & H3).
  rewrite <- Hs in H1, H2, H3.
  split; [exact H1|]. split; [reflexivity|].
  split; [apply condition_event_flag|]. split; assumption.
Qed.

Lemma C4_condition_false_witness :
  let o := {| condition := Some (fun _ => ReturnsPromise Pending);
              dispatchConditionRejection := VUndef; serializeError := None;
              idGenerator := None; getPendingMeta := None |} in
  let s := run "t" (creator (Returns user7)) (Some o) quiet_env (VNum 7)
             [Abort VUndef; SettleCondition (Normal (VBool false))] in
  let a := rejected "t" (Some o) ConditionError "R" (VNum 7) VUndef VUndef in
  invoked s = 0
  /\ get a "type" = VStr "t/rejected"
  /\ get (meta_of a) "condition" = VBool true
  /\ (truthy VUndef = false -> dispatched s = [] /\ promise s = Fulfilled a)
  /\ (truthy VUndef = true ->
      dispatched s = [a]
      /\ (dispatch_throws quiet_env a = None -> promise s = Fulfilled a)).
Proof.
  apply (C4_condition_false "t" (creator (Returns user7))
           {| condition := Some (fun _ => ReturnsPromise Pending);
              dispatchConditionRejection := VUndef; serializeError := None;
              idGenerator := None; getPendingMeta := None |}
           (fun _ => ReturnsPromise Pending) quiet_env (VNum 7)
           [Abort VUndef; SettleCondition (Normal (VBool false))]);
    [reflexivity|right; split; [eexists; reflexivity|reflexivity]].
Defined.

(** ** The handle *)







(** * Further properties of the code *)

(** ** The serializer and the creators *)

(** X1: whatever is thrown, the default serializer returns an object
    whose keys are among [name], [message], [stack], [code], each at most
    once, and whose values are all strings. *)
Theorem miniSerializeError_shape (v : value) :
  exists E,
    miniSerializeError v = VObj E
    /\ NoDup (map fst E)
    /\ forall k x, obj_get k E = Some x ->
                   In k commonProperties /\ is_string x = true.
Proof.
  unfold miniSerializeError. destruct (is_object v).
  - eexists. split; [reflexivity|].
    remember (get v) as g eqn:Hg. clear Hg. simpl.
    destruct (g "name") eqn:H1; destruct (g "message") eqn:H2;
      destruct (g "stack") eqn:H3; destruct (g "code") eqn:H4; simpl;
      (split; [repeat constructor; simpl; intuition discriminate|]);
      intros k x;
      (destruct (String.eqb_spec k "name") as [->|?];
       [|destruct (String.eqb_spec k "message") as [->|?];
         [|destruct (String.eqb_spec k "stack") as [->|?];
           [|destruct (String.eqb_spec k "code") as [->|?]]]]);
      simpl; intros Hx; inversion Hx; subst; simpl; tauto.
  - eexists. split; [reflexivity|]. split.
    + repeat constructor. simpl. tauto.
    + intros k x. simpl. destruct (String.eqb_spec k "message") as [->|?];
        intros Hx; inversion Hx; subst; simpl; tauto.
Qed.

(** X2: serializing an already serialized error changes nothing. *)
Theorem miniSerializeError_idempotent (v : value) :
  miniSerializeError (miniSerializeError v) = miniSerializeError v.
Proof.
  unfold miniSerializeError at 2 3. destruct (is_object v); [|reflexivity].
  remember (get v) as g eqn:Hg. clear Hg. simpl.
  destruct (g "name") eqn:H1; destruct (g "message") eqn:H2;
    destruct (g "stack") eqn:H3; destruct (g "code") eqn:H4; reflexivity.
Qed.

(** X3: a thrown falsy value ([undefined], [null], [false], [0], the
    empty string) is reported as the message [Rejected], a thrown
    non-empty string as that string; in both cases, with the default
    serializer, the rejected event carries no payload and none of the
    flags [rejectedWithValue], [aborted], [condition]. *)
Theorem rejected_of_primitive
    (typePrefix : string) (opts : option options)
    (requestId : string) (arg e : value) :
  default_serializer opts ->
  truthy e = false \/ (exists s, e = VStr s /\ s <> "") ->
  let r := rejected typePrefix opts e requestId arg VUndef VUndef in
  get r "error"
  = VObj [("message", VStr (if truthy e then js_String e else "Rejected"))]
  /\ get r "payload" = VUndef
  /\ get (meta_of r) "rejectedWithValue" = VBool false
  /\ get (meta_of r) "aborted" = VBool false
  /\ get (meta_of r) "condition" = VBool false.
Proof.
  intros Hser He r. unfold r.
  rewrite error_of_rejected, the_serializer_default by assumption.
  split; [|split; [reflexivity|]].
  - destruct He as [He|(s & -> & Hs)].
    + unfold js_or. rewrite He. reflexivity.
    + unfold js_or. simpl. destruct (String.eqb_spec s ""); [contradiction|].
      reflexivity.
  - assert (Hn : get e "name" = VUndef).
    { destruct He as [He|(s & -> & _)]; [|reflexivity].
      destruct e; try discriminate; reflexivity. }
    rewrite meta_of_rejected, Hn. repeat split; meta_field.
Qed.

Lemma rejected_of_primitive_witness :
  let r := rejected "t" None (VNum 0) "R" (VNum 7) VUndef VUndef in
  get r "error" = VObj [("message", VStr "Rejected")]
  /\ get r "payload" = VUndef
  /\ get (meta_of r) "rejectedWithValue" = VBool false
  /\ get (meta_of r) "aborted" = VBool false
  /\ get (meta_of r) "condition" = VBool false.
Proof.
  apply (rejected_of_primitive "t" None "R" (VNum 7) (VNum 0));
    [exact I|left; reflexivity].
Defined.

Lemma not_lifecycle_key k :
  ~ In k lifecycle_keys ->
  forallb (fun kv : string * value => negb (String.eqb k (fst kv)))
    [("arg", VUndef); ("requestId", VUndef); ("requestStatus", VUndef)] = true.
Proof.
  intros H. simpl.
  repeat match goal with
  | |- context [String.eqb k ?x] =>
      let E := fresh in
      destruct (String.eqb_spec k x) as [E|E];
        [exfalso; apply H; rewrite E; simpl; tauto|]
  end.
  reflexivity.
Qed.

Lemma user_meta_kept_aux
    (typePrefix : string) (requestId : string) (arg payload userMeta : value)
    (k : string) :
  ~ In k lifecycle_keys ->
  NoDup (map fst (own_props userMeta)) ->
  obj_get k (own_props (meta_of (pending typePrefix requestId arg userMeta)))
  = obj_get k (own_props userMeta)
  /\ obj_get k (own_props (meta_of (fulfilled typePrefix payload requestId arg userMeta)))
     = obj_get k (own_props userMeta).
Proof.
  intros Hk Hnd.
  pose proof (not_lifecycle_key k Hk) as H. simpl in H.
  split.
  - rewrite meta_of_pending. cbn [own_props].
    rewrite obj_get_with_fields_other by (simpl; exact H).
    rewrite own_props_js_or. now apply obj_get_spread.
  - rewrite meta_of_fulfilled. cbn [own_props].
    rewrite obj_get_with_fields_other by (simpl; exact H).
    rewrite own_props_js_or. now apply obj_get_spread.
Qed.

(** X4: the meta the caller supplies (through [getPendingMeta] or
    [fulfillWithValue]) is kept in the pending and in the fulfilled
    event: every property of it whose key is not [arg], [requestId] or
    [requestStatus] is in the event's meta with the same value. *)
Theorem user_meta_kept
    (typePrefix : string) (requestId : string) (arg payload userMeta : value)
    (k : string) :
  ~ In k lifecycle_keys ->
  NoDup (map fst (own_props userMeta)) ->
  obj_get k (own_props (meta_of (pending typePrefix requestId arg userMeta)))
  = obj_get k (own_props userMeta)
  /\ obj_get k (own_props (meta_of (fulfilled typePrefix payload requestId arg userMeta)))
     = obj_get k (own_props userMeta).
Proof. apply user_meta_kept_aux. Qed.

Lemma user_meta_kept_witness :
  let m := VObj [("source", VStr "cache"); ("arg", VNum 1)] in
  obj_get "source" (own_props (meta_of (pending "t" "R" (VNum 7) m)))
  = obj_get "source" (own_props m)
  /\ obj_get "source" (own_props (meta_of (fulfilled "t" user7 "R" (VNum 7) m)))
     = obj_get "source" (own_props m).
Proof.
  apply (user_meta_kept "t" "R" (VNum 7) user7
           (VObj [("source", VStr "cache"); ("arg", VNum 1)]) "source").
  - simpl. intuition discriminate.
  - simpl. repeat constructor; simpl; intuition discriminate.
Defined.

(** ** Every event belongs to its invocation *)

Section BuiltEvents.

Variable typePrefix : string.
Variable payloadCreator : value -> string -> creator_run.
Variable opts : option options.
Variable env : environment.
Variable arg : value.

#[local] Abbreviation B := (Built typePrefix opts env arg).
#[local] Abbreviation step' := (step typePrefix payloadCreator opts env arg).

Lemma Built_same s s' :
  B s -> dispatched s' = dispatched s -> promise s' = promise s ->
  jobs s' = jobs s -> B s'.
Proof. unfold Built. intros H -> -> ->. exact H. Qed.

Lemma Built_enqueue j s :
  built_job typePrefix opts env arg j -> B s -> B (enqueue j s).
Proof.
  intros Hj (H1 & H2 & H3). destruct s; simpl in *.
  repeat split; auto. apply Forall_app. split; auto.
Qed.

Lemma Built_pop j q s : B s -> jobs s = j :: q -> B (set_jobs q s).
Proof.
  intros (H1 & H2 & H3) Hj. rewrite Hj in H3. destruct s; simpl in *.
  repeat split; auto. now inversion H3.
Qed.

Lemma built_catch_action e :
  built typePrefix opts env arg (catch_action typePrefix opts env arg e).
Proof. right; right. destruct e; simpl; eauto. Qed.

Lemma Built_finish a s :
  built typePrefix opts env arg a -> B s -> B (finish typePrefix opts env a s).
Proof.
  intros Ha (H1 & H2 & H3). unfold finish.
  destruct (skipDispatch typePrefix opts a);
    [|destruct (dispatch_throws env a)]; destruct s; simpl in *;
    repeat split; auto; try (apply Forall_app; split; auto);
    intros a' Ha'; inversion Ha'; subst; auto.
Qed.

Lemma Built_abort r s : B s -> B (abort env r s).
Proof.
  intros H. unfold abort. destruct (started s); [|assumption].
  unfold controller_abort.
  destruct (AbortController_defined env && negb (signal_aborted (set_abortReason r s))).
  2:{ eapply Built_same; eauto. }
  destruct (abortedPromise (set_signal_aborted true (set_abortReason r s))).
  2,3: eapply Built_same; eauto.
  destruct (payloadPromise _).
  - apply Built_enqueue; [exact I|]. eapply Built_same; eauto.
  - eapply Built_same; eauto.
Qed.

Lemma Built_aborts l : forall s,
  B s -> B (fold_left (fun s r => abort env r s) l s).
Proof. induction l; simpl; auto using Built_abort. Qed.

Lemma Built_start_race p s : B s -> B (start_race p s).
Proof.
  intros (H1 & H2 & H3). unfold start_race.
  destruct s as [st ar sg cp pp ap tp rp pr ph q dl iv]; simpl in *.
  destruct p, ap; simpl; repeat split; auto;
    repeat (apply Forall_app; split; auto); repeat constructor.
Qed.

Lemma Built_after_condition v s :
  B s -> B (after_condition typePrefix payloadCreator opts env arg v s).
Proof.
  intros H. unfold after_condition, catch.
  destruct (is_false v);
    [apply Built_finish; auto; apply (built_catch_action ConditionError)|].
  fold (pendingAction typePrefix opts env arg).
  assert (H' : B (set_dispatched
                    (dispatched (set_started true s)
                     ++ [pendingAction typePrefix opts env arg])
                    (set_started true s))).
  { destruct H as (H1 & H2 & H3). destruct s; simpl in *.
    repeat split; auto. apply Forall_app. split; auto.
    constructor; [now left|constructor]. }
  destruct (dispatch_throws env (pendingAction typePrefix opts env arg)) as [x|];
    [apply Built_finish; auto; apply (built_catch_action x)|].
  assert (H'' : B (fold_left (fun s r => abort env r s)
                     (sync_aborts (payloadCreator arg (requestId opts env arg)))
                     (set_invoked (S (invoked (set_dispatched
                        (dispatched (set_started true s)
                         ++ [pendingAction typePrefix opts env arg])
                        (set_started true s))))
                        (set_dispatched
                           (dispatched (set_started true s)
                            ++ [pendingAction typePrefix opts env arg])
                           (set_started true s))))).
  { apply Built_aborts. eapply Built_same; eauto. }
  destruct (outcome _) as [e|x|p].
  - apply Built_finish; auto. apply (built_catch_action e).
  - now apply Built_start_race.
  - now apply Built_start_race.
Qed.

Lemma built_then_callback c :
  built_completion typePrefix opts env arg
    (then_callback typePrefix opts env arg c).
Proof.
  destruct c as [[]|]; simpl; auto; right; left; eauto.
Qed.

Lemma Built_step s ev : B s -> B (step' s ev).
Proof.
  intros H. destruct ev as [r|c|c|]; cbn [step].
  - now apply Built_abort.
  - destruct (payloadPromise s) as [[| |]|]; auto.
    apply Built_enqueue; [exact I|]. eapply Built_same; eauto.
  - destruct (conditionPromise s) as [[| |]|]; auto.
    apply Built_enqueue; [exact I|]. eapply Built_same; eauto.
  - destruct (jobs s) as [|j q] eqn:Hj; auto.
    pose proof (Built_pop j q s H Hj) as Hq.
    assert (Hb : built_job typePrefix opts env arg j).
    { destruct H as (_ & _ & H3). rewrite Hj in H3. now inversion H3. }
    destruct j as [[v|e]|c|c|[a|e]]; cbn [run_job].
    + now apply Built_after_condition.
    + apply Built_finish; auto. apply (built_catch_action e).
    + apply Built_enqueue; [apply built_then_callback|].
      eapply Built_same; eauto.
    + destruct (racePromise (set_jobs q s)); auto.
      apply Built_enqueue; [exact Hb|]. eapply Built_same; eauto.
    + apply Built_finish; auto.
    + apply Built_finish; auto. apply (built_catch_action e).
Qed.

Lemma Built_start : B (start typePrefix payloadCreator opts env arg).
Proof.
  assert (H0 : forall cp, B (set_conditionPromise cp initial)).
  { intros cp. repeat split; simpl; auto; discriminate. }
  unfold start.
  destruct (match opts with Some o => condition o | None => None end) as [cond|].
  2:{ apply Built_after_condition. apply (H0 None). }
  destruct (cond arg) as [e|v|p].
  - apply Built_finish; [apply (built_catch_action e)|apply (H0 None)].
  - apply Built_after_condition. apply (H0 None).
  - destruct (settled p); [apply Built_enqueue; [exact I|]|]; apply H0.
Qed.

Lemma Built_steps l : forall s, B s -> B (fold_left step' l s).
Proof. induction l as [|ev l IH]; simpl; auto using Built_step. Qed.

Lemma Built_drain n : forall s,
  B s -> B (drain typePrefix payloadCreator opts env arg n s).
Proof.
  induction n as [|n IH]; intros s H; simpl; auto.
  destruct (jobs s) eqn:Hj; auto. apply IH.
  pose proof (Built_step s Microtask H) as H'. cbn [step] in H'.
  now rewrite Hj in H'.
Qed.

Lemma Built_run schedule :
  B (run typePrefix payloadCreator opts env arg schedule).
Proof. apply Built_drain, Built_steps, Built_start. Qed.

Lemma built_meta a :
  built typePrefix opts env arg a ->
  get (meta_of a) "requestId" = VStr (requestId opts env arg)
  /\ get (meta_of a) "arg" = arg
  /\ ((get a "type" = VStr (typePrefix ++ "/pending")
       /\ get (meta_of a) "requestStatus" = VStr "pending")
      \/ (get a "type" = VStr (typePrefix ++ "/fulfilled")
          /\ get (meta_of a) "requestStatus" = VStr "fulfilled")
      \/ (get a "type" = VStr (typePrefix ++ "/rejected")
          /\ get (meta_of a) "requestStatus" = VStr "rejected")).
Proof.
  intros [->|[(p & m & ->)|(e & p & m & ->)]].
  - unfold pendingAction. repeat split; try meta_field.
    left. split; [reflexivity|meta_field].
  - repeat split; try meta_field.
    right; left. split; [reflexivity|meta_field].
  - repeat split; try meta_field.
    right; right. split; [reflexivity|meta_field].
Qed.

End BuiltEvents.

(** X5: in every run, under every schedule and every behaviour of the
    collaborators, each event that is dispatched and the event the handle
    resolves to carry this invocation's [requestId] and [arg] in their
    meta, and have one of the three types of the thunk with the matching
    [requestStatus]. *)
Theorem events_belong_to_invocation
    (typePrefix : string) (payloadCreator : value -> string -> creator_run)
    (opts : option options) (env : environment) (arg : value)
    (schedule : list event) (a : value) :
  let s := run typePrefix payloadCreator opts env arg schedule in
  In a (dispatched s) \/ promise s = Fulfilled a ->
  get (meta_of a) "requestId" = VStr (requestId opts env arg)
  /\ get (meta_of a) "arg" = arg
  /\ ((get a "type" = VStr (typePrefix ++ "/pending")
       /\ get (meta_of a) "requestStatus" = VStr "pending")
      \/ (get a "type" = VStr (typePrefix ++ "/fulfilled")
          /\ get (meta_of a) "requestStatus" = VStr "fulfilled")
      \/ (get a "type" = VStr (typePrefix ++ "/rejected")
          /\ get (meta_of a) "requestStatus" = VStr "rejected")).
Proof.
  intros s Ha. apply built_meta.
  destruct (Built_run typePrefix payloadCreator opts env arg schedule)
    as (H1 & H2 & _).
  destruct Ha as [Ha|Ha]; [|now apply H2].
  rewrite Forall_forall in H1. now apply H1.
Qed.

Lemma events_belong_to_invocation_witness :
  let s := run "t" (creator (ReturnsPromise Pending)) None failing_env (VNum 7)
             [SettlePayload (Normal user7)] in
  let a := fulfilled "t" user7 "R" (VNum 7) VUndef in
  get (meta_of a) "requestId" = VStr "R"
  /\ get (meta_of a) "arg" = VNum 7
  /\ ((get a "type" = VStr "t/pending"
       /\ get (meta_of a) "requestStatus" = VStr "pending")
      \/ (get a "type" = VStr "t/fulfilled"
          /\ get (meta_of a) "requestStatus" = VStr "fulfilled")
      \/ (get a "type" = VStr "t/rejected"
          /\ get (meta_of a) "requestStatus" = VStr "rejected")).
Proof.
  apply (events_belong_to_invocation "t" (creator (ReturnsPromise Pending)) None
           failing_env (VNum 7) [SettlePayload (Normal user7)]
           (fulfilled "t" user7 "R" (VNum 7) VUndef)).
  left. simpl. tauto.
Defined.

(** ** The order of the dispatches *)

Section Ordering.

Variable typePrefix : string.
Variable payloadCreator : value -> string -> creator_run.
Variable opts : option options.
Variable env : environment.
Variable arg : value.

Hypothesis final_ok :
  forall a, is_final typePrefix a = true -> dispatch_throws env a = None.

#[local] Abbreviation INV := (Inv typePrefix payloadCreator opts env arg).
#[local] Abbreviation ORD := (Order typePrefix opts env arg).
#[local] Abbreviation step' := (step typePrefix payloadCreator opts env arg).
#[local] Abbreviation P := (pendingAction typePrefix opts env arg).

Lemma Order_core s s' : ORD s -> core s' = core s -> ORD s'.
Proof.
  unfold Order, core. intros H E. injection E as -> -> -> -> ->. exact H.
Qed.

Lemma core_abort r s : core (abort env r s) = core s.
Proof.
  unfold abort, controller_abort.
  destruct s as [st ar sg cp pp ap tp rp pr ph q dl iv]; simpl.
  destruct st; [|reflexivity]. simpl.
  destruct (AbortController_defined env), sg; simpl; try reflexivity.
  destruct ap; simpl; try reflexivity. now destruct pp.
Qed.

Lemma core_aborts l : forall s,
  core (fold_left (fun s r => abort env r s) l s) = core s.
Proof.
  induction l as [|r l IH]; intros s; simpl; auto.
  now rewrite IH, core_abort.
Qed.

(** After [finish] on a final event. *)
Lemma core_finish a s :
  is_final typePrefix a = true ->
  core (finish typePrefix opts env a s)
  = (started s, invoked s, dispatched s ++ shown typePrefix opts a,
     Fulfilled a, Done).
Proof.
  intros Ha. rewrite finish_final by assumption. now destruct s.
Qed.

Lemma Order_finish a s :
  is_final typePrefix a = true ->
  invoked s <= 1 -> (invoked s = 1 -> started s = true) ->
  dispatched s = (if started s then [P] else []) ->
  ORD (finish typePrefix opts env a s).
Proof.
  intros Ha H1 H2 H3.
  pose proof (core_finish a s Ha) as E. unfold core in E.
  injection E as E1 E2 E3 E4 E5.
  unfold Order. rewrite E1, E2, E3, E4, E5, H3. eauto.
Qed.

Lemma Order_after_condition v ar cp :
  ORD (after_condition typePrefix payloadCreator opts env arg v
         {| started := false; abortReason := ar; signal_aborted := false;
            conditionPromise := cp; payloadPromise := None;
            abortedPromise := Pending; thenPromise := Pending;
            racePromise := Pending; promise := Pending;
            at_phase := AtCondition; jobs := []; dispatched := [];
            invoked := 0 |}).
Proof.
  unfold after_condition, catch.
  destruct (is_false v).
  { apply Order_finish; simpl; auto; try discriminate.
    apply (is_final_catch_action typePrefix opts env arg ConditionError). }
  fold P. setters.
  destruct (dispatch_throws env P) as [x|].
  { apply Order_finish; simpl; auto; try discriminate.
    apply (is_final_catch_action typePrefix opts env arg x). }
  remember (fold_left _ _ _) as s2 eqn:Hs2.
  assert (Hc : core s2 = (true, 1, [P], Pending, AtCondition))
    by (subst s2; now rewrite core_aborts).
  unfold core in Hc. injection Hc as C1 C2 C3 C4 C5.
  destruct (outcome _) as [e|x|p].
  - apply Order_finish; rewrite ?C1, ?C2, ?C3; auto.
    apply (is_final_catch_action typePrefix opts env arg e).
  - unfold start_race, Order. clear Hs2.
    destruct s2 as [st ar' sg cp' pp ap tp rp pr ph q dl iv]; simpl in *.
    subst. destruct ap; simpl; auto.
  - unfold start_race, Order. clear Hs2.
    destruct s2 as [st ar' sg cp' pp ap tp rp pr ph q dl iv]; simpl in *.
    subst. destruct p, ap; simpl; auto.
Qed.

Lemma core_step s ev :
  match ev, jobs s with
  | Microtask, (JCond _ | JAwait _) :: _ => False
  | _, _ => True
  end ->
  core (step' s ev) = core s.
Proof.
  intros H. destruct ev as [r|c|c|]; cbn [step].
  - apply core_abort.
  - destruct (payloadPromise s) as [[| |]|]; destruct s; reflexivity.
  - destruct (conditionPromise s) as [[| |]|]; destruct s; reflexivity.
  - destruct (jobs s) as [|[c|c|c|c] q0]; try contradiction; auto;
      destruct s as [st ar sg cp pp ap tp rp pr ph q dl iv]; cbn [run_job];
      try destruct rp; reflexivity.
Qed.

(** The state in which a queued [JCond] finds the thunk. *)
Lemma at_condition s c q0 :
  INV s -> jobs s = JCond c :: q0 ->
  exists ar cp,
    cp <> Some Pending
    /\ set_jobs q0 s
       = {| started := false; abortReason := ar; signal_aborted := false;
            conditionPromise := cp; payloadPromise := None;
            abortedPromise := Pending; thenPromise := Pending;
            racePromise := Pending; promise := Pending;
            at_phase := AtCondition; jobs := []; dispatched := [];
            invoked := 0 |}.
Proof.
  intros H Hj.
  assert (Hph : at_phase s = AtCondition).
  { destruct (at_phase s) eqn:E; auto;
      destruct (inv_nocond _ _ _ _ _ _ H) as [Hx _]; try congruence;
      rewrite Hj in Hx; discriminate. }
  destruct (inv_cond _ _ _ _ _ _ H Hph)
    as (Hst & Hsg & Hpp & Hpr & Hdl & Hiv & p & Hcp & Hq).
  destruct (inv_early _ _ _ _ _ _ H Hpp) as (_ & _ & _ & Htp & Hrp).
  pose proof (proj1 (inv_signal _ _ _ _ _ _ H) Hsg) as Hap.
  rewrite Hj in Hq.
  assert (q0 = [] /\ p <> Pending) as [-> Hp].
  { destruct p; simpl in Hq; inversion Hq; split; auto; discriminate. }
  exists (abortReason s), (Some p). split; [congruence|].
  destruct s; simpl in *. now subst.
Qed.

Lemma Order_step s ev : INV s -> ORD s -> ORD (step' s ev).
Proof.
  intros HI HO.
  destruct ev as [r|c|c|];
    try (eapply Order_core; [exact HO|]; now apply core_step).
  destruct (jobs s) as [|[c|c|c|c] q0] eqn:Hj;
    try (eapply Order_core; [exact HO|]; apply core_step; now rewrite Hj).
  - cbn [step]. rewrite Hj.
    destruct (at_condition s c q0 HI Hj) as (ar & cp & Hcp & ->).
    destruct c as [v|e]; cbn [run_job].
    + apply Order_after_condition.
    + apply Order_finish; simpl; auto; try discriminate.
      apply (is_final_catch_action typePrefix opts env arg e).
  - cbn [step]. rewrite Hj.
    assert (Hph : at_phase s = AtRace).
    { destruct (at_phase s) eqn:E; auto.
      - destruct (inv_cond _ _ _ _ _ _ HI E) as (_ & _ & Hx & _).
        destruct (inv_early _ _ _ _ _ _ HI Hx) as (_ & _ & Hy & _).
        rewrite Hj in Hy. discriminate.
      - destruct (inv_done _ _ _ _ _ _ HI E) as (Hx & _).
        rewrite Hj in Hx. discriminate. }
    assert (Hg : good_completion typePrefix c).
    { pose proof (inv_good _ _ _ _ _ _ HI) as Hg. rewrite Hj in Hg.
      rewrite Forall_app in Hg. destruct Hg as [_ Hg]. now inversion Hg. }
    destruct HO as (H1 & H2 & H3). rewrite Hph in H3.
    destruct H3 as (Hd & Hst & Hiv).
    assert (Heq : run_job typePrefix payloadCreator opts env arg (JAwait c)
                    (set_jobs q0 s)
                  = finish typePrefix opts env
                      (final_action typePrefix opts env arg c) (set_jobs q0 s))
      by (destruct c; reflexivity).
    rewrite Heq. apply Order_finish.
    + destruct c; simpl; auto. apply is_final_catch_action.
    + now destruct s.
    + now destruct s.
    + destruct s; simpl in *. now rewrite Hst.
Qed.

Lemma Order_start : ORD (start typePrefix payloadCreator opts env arg).
Proof.
  unfold start.
  destruct (match opts with Some o => condition o | None => None end) as [cond|].
  2:{ apply Order_after_condition. }
  destruct (cond arg) as [e|v|p].
  - apply Order_finish; simpl; auto; try discriminate.
    apply (is_final_catch_action typePrefix opts env arg e).
  - apply Order_after_condition.
  - destruct p; simpl; unfold Order; simpl; repeat split; auto; try lia;
      discriminate.
Qed.

Lemma Order_steps l : forall s, INV s -> ORD s -> ORD (fold_left step' l s).
Proof.
  induction l as [|ev l IH]; intros s HI HO; simpl; auto.
  apply IH; [now apply Inv_step|now apply Order_step].
Qed.

Lemma Order_drain n : forall s,
  INV s -> ORD s -> ORD (drain typePrefix payloadCreator opts env arg n s).
Proof.
  induction n as [|n IH]; intros s HI HO; simpl; auto.
  destruct (jobs s) eqn:Hj; auto.
  pose proof (Inv_step typePrefix payloadCreator opts env arg final_ok
                s Microtask HI) as HI'.
  pose proof (Order_step s Microtask HI HO) as HO'.
  cbn [step] in HI', HO'. rewrite Hj in HI', HO'. now apply IH.
Qed.

Lemma Order_run schedule :
  ORD (run typePrefix payloadCreator opts env arg schedule).
Proof.
  apply Order_drain.
  - apply Inv_steps, Inv_start; assumption.
  - apply Order_steps; [now apply Inv_start|apply Order_start].
Qed.

(** Once the async function has returned nothing observable changes. *)
Lemma core_done_step s ev :
  INV s -> at_phase s = Done -> core (step' s ev) = core s.
Proof.
  intros HI Hph. apply core_step.
  destruct ev; auto. destruct (jobs s) as [|[c|c|c|c] q0] eqn:Hj; auto.
  - destruct (inv_nocond _ _ _ _ _ _ HI) as [Hx _]; [congruence|].
    rewrite Hj in Hx. discriminate.
  - destruct (inv_done _ _ _ _ _ _ HI Hph) as (Hx & _).
    rewrite Hj in Hx. discriminate.
Qed.

Lemma phase_of_core s s' : core s' = core s -> at_phase s' = at_phase s.
Proof. unfold core. intros E. now injection E. Qed.

Lemma core_done_steps l : forall s,
  INV s -> at_phase s = Done -> core (fold_left step' l s) = core s.
Proof.
  induction l as [|ev l IH]; intros s HI Hph; simpl; auto.
  pose proof (core_done_step s ev HI Hph) as E.
  rewrite IH; auto.
  - now apply Inv_step.
  - rewrite (phase_of_core _ _ E). exact Hph.
Qed.

Lemma core_done_drain n : forall s,
  INV s -> at_phase s = Done ->
  core (drain typePrefix payloadCreator opts env arg n s) = core s.
Proof.
  induction n as [|n IH]; intros s HI Hph; simpl; auto.
  destruct (jobs s) eqn:Hj; auto.
  pose proof (core_done_step s Microtask HI Hph) as E.
  pose proof (Inv_step typePrefix payloadCreator opts env arg final_ok
                s Microtask HI) as HI'.
  cbn [step] in E, HI'. rewrite Hj in E, HI'.
  rewrite IH; auto. rewrite (phase_of_core _ _ E). exact Hph.
Qed.

Lemma resolved_is_done s : INV s -> promise s <> Pending -> at_phase s = Done.
Proof.
  intros HI Hp. destruct (at_phase s) eqn:E; auto.
  - destruct (inv_cond _ _ _ _ _ _ HI E) as (_ & _ & _ & Hx & _). contradiction.
  - destruct (inv_race_phase _ _ _ _ _ _ HI E) as (_ & Hx & _). contradiction.
Qed.

End Ordering.



(** X7: once the handle has resolved, nothing that happens afterwards (a
    late [abort], a late settlement of the payload creator's promise,
    further jobs) changes the event it resolved to, dispatches anything
    more or calls the payload creator again. *)
Theorem resolution_is_final
    (typePrefix : string) (payloadCreator : value -> string -> creator_run)
    (opts : option options) (env : environment) (arg : value)
    (before after : list event) :
  (forall a, is_final typePrefix a = true -> dispatch_throws env a = None) ->
  let s := fold_left (step typePrefix payloadCreator opts env arg) before
             (start typePrefix payloadCreator opts env arg) in
  let s' := run typePrefix payloadCreator opts env arg (before ++ after) in
  promise s <> Pending ->
  promise s' = promise s /\ dispatched s' = dispatched s
  /\ invoked s' = invoked s.
Proof.
  intros Hok s s' Hp.
  assert (HI : Inv typePrefix payloadCreator opts env arg s)
    by (apply Inv_steps, Inv_start; assumption).
  pose proof (resolved_is_done typePrefix payloadCreator opts env arg s HI Hp) as Hph.
  assert (E : core s' = core s).
  { unfold s', run. rewrite fold_left_app. fold s.
    pose proof (core_done_steps typePrefix payloadCreator opts env arg Hok
                  after s HI Hph) as E1.
    rewrite core_done_drain; auto.
    - now apply Inv_steps.
    - unfold core in E1. injection E1 as _ _ _ _ E5. congruence. }
  unfold core in E. injection E as _ E2 E3 E4 _. auto.
Qed.

Lemma resolution_is_final_witness :
  let before := [SettlePayload (Normal user7); Microtask; Microtask; Microtask] in
  let after := [Abort (VStr "late"); Microtask] in
  let s := fold_left (step "t" (creator (ReturnsPromise Pending)) None quiet_env (VNum 7))
             before (start "t" (creator (ReturnsPromise Pending)) None quiet_env (VNum 7)) in
  let s' := run "t" (creator (ReturnsPromise Pending)) None quiet_env (VNum 7)
              (before ++ after) in
  promise s' = promise s /\ dispatched s' = dispatched s
  /\ invoked s' = invoked s.
Proof.
  apply (resolution_is_final "t" (creator (ReturnsPromise Pending)) None quiet_env
           (VNum 7) [SettlePayload (Normal user7); Microtask; Microtask; Microtask]
           [Abort (VStr "late"); Microtask]).
  - reflexivity.
  - discriminate.
Defined.

(** ** Failures before the thunk is armed *)

Section Unarmed.

Variable typePrefix : string.
Variable payloadCreator : value -> string -> creator_run.
Variable opts : option options.
Variable env : environment.
Variable arg : value.

#[local] Abbreviation step' := (step typePrefix payloadCreator opts env arg).

Lemma caught_unarmed_frozen e cp ev :
  cp <> Some Pending ->
  step' (caught_unarmed typePrefix opts env arg e cp) ev
  = caught_unarmed typePrefix opts env arg e cp.
Proof.
  intros Hcp. unfold caught_unarmed, catch, finish.
  destruct (skipDispatch _ _ _); [|destruct (dispatch_throws env _)];
    destruct ev as [r|c|c|]; simpl; try reflexivity;
    destruct cp as [[| |]|]; try reflexivity; now elim Hcp.
Qed.

Lemma caught_unarmed_run e cp l :
  cp <> Some Pending ->
  let s := fold_left step' l (caught_unarmed typePrefix opts env arg e cp) in
  drain typePrefix payloadCreator opts env arg (queue_weight (jobs s)) s
  = caught_unarmed typePrefix opts env arg e cp.
Proof.
  intros Hcp s.
  assert (Hs : s = caught_unarmed typePrefix opts env arg e cp).
  { unfold s. induction l as [|ev l IH]; simpl; auto.
    now rewrite caught_unarmed_frozen. }
  rewrite Hs. apply drain_idle.
  unfold caught_unarmed, catch. apply jobs_finish.
Qed.

Lemma caught_unarmed_fields e cp :
  let s := caught_unarmed typePrefix opts env arg e cp in
  let a := catch_action typePrefix opts env arg e in
  invoked s = 0 /\ started s = false
  /\ dispatched s = shown typePrefix opts a
  /\ (skipDispatch typePrefix opts a = true \/ dispatch_throws env a = None ->
      promise s = Fulfilled a).
Proof.
  intros s a. subst s. unfold caught_unarmed. rewrite finish_catch.
  change (catch_action typePrefix opts env arg e) with a. clearbody a.
  unfold finish, shown.
  destruct (skipDispatch typePrefix opts a); simpl.
  - repeat split; auto.
  - destruct (dispatch_throws env a); simpl; repeat split; auto.
    intros [H|H]; discriminate.
Qed.

End Unarmed.



(** ** Once the thunk is armed *)

Section Armed.

Variable typePrefix : string.
Variable payloadCreator : value -> string -> creator_run.
Variable opts : option options.
Variable env : environment.
Variable arg : value.

Hypothesis final_ok :
  forall a, is_final typePrefix a = true -> dispatch_throws env a = None.

#[local] Abbreviation INV := (Inv typePrefix payloadCreator opts env arg).
#[local] Abbreviation step' := (step typePrefix payloadCreator opts env arg).
#[local] Abbreviation P := (pendingAction typePrefix opts env arg).

Lemma armed_step s ev :
  INV s -> started s = true ->
  started (step' s ev) = true /\ invoked (step' s ev) = invoked s.
Proof.
  intros HI Hst.
  assert (Hq : core (step' s ev) = core s ->
               started (step' s ev) = true /\ invoked (step' s ev) = invoked s).
  { unfold core. intros E. injection E as E1 E2 _ _ _. split; congruence. }
  destruct ev as [r|c|c|]; try (apply Hq; now apply core_step).
  destruct (jobs s) as [|[c|c|c|c] q0] eqn:Hj;
    try (apply Hq; apply core_step; now rewrite Hj).
  - destruct (at_condition typePrefix payloadCreator opts env arg s c q0 HI Hj)
      as (ar & cp & _ & E).
    assert (Hx : started (set_jobs q0 s) = false) by now rewrite E.
    destruct s; simpl in *. congruence.
  - cbn [step]. rewrite Hj.
    assert (Hg : good_completion typePrefix c).
    { pose proof (inv_good _ _ _ _ _ _ HI) as Hg. rewrite Hj in Hg.
      rewrite Forall_app in Hg. destruct Hg as [_ Hg]. now inversion Hg. }
    assert (Heq : run_job typePrefix payloadCreator opts env arg (JAwait c)
                    (set_jobs q0 s)
                  = finish typePrefix opts env
                      (final_action typePrefix opts env arg c) (set_jobs q0 s))
      by (destruct c; reflexivity).
    rewrite Heq.
    assert (Hf : is_final typePrefix (final_action typePrefix opts env arg c) = true)
      by (destruct c; simpl; auto; apply is_final_catch_action).
    pose proof (core_finish typePrefix opts env final_ok _ (set_jobs q0 s) Hf) as E.
    unfold core in E. injection E as E1 E2 _ _ _.
    rewrite E1, E2. destruct s; simpl in *. auto.
Qed.

Lemma armed_steps l : forall s,
  INV s -> started s = true ->
  started (fold_left step' l s) = true
  /\ invoked (fold_left step' l s) = invoked s.
Proof.
  induction l as [|ev l IH]; intros s HI Hst; simpl; auto.
  destruct (armed_step s ev HI Hst) as [H1 H2].
  destruct (IH (step' s ev)) as [H3 H4]; auto.
  - now apply Inv_step.
  - split; congruence.
Qed.

Lemma armed_drain n : forall s,
  INV s -> started s = true ->
  started (drain typePrefix payloadCreator opts env arg n s) = true
  /\ invoked (drain typePrefix payloadCreator opts env arg n s) = invoked s.
Proof.
  induction n as [|n IH]; intros s HI Hst; simpl; auto.
  destruct (jobs s) eqn:Hj; auto.
  destruct (armed_step s Microtask HI Hst) as [H1 H2].
  pose proof (Inv_step typePrefix payloadCreator opts env arg final_ok
                s Microtask HI) as HI'.
  cbn [step] in H1, H2, HI'. rewrite Hj in H1, H2, HI'.
  destruct (IH _ HI' H1) as [H3 H4]. split; congruence.
Qed.

(** A condition result other than [false] arms the thunk. *)
Lemma after_condition_pass v ar cp :
  is_false v = false ->
  let s := after_condition typePrefix payloadCreator opts env arg v
             {| started := false; abortReason := ar; signal_aborted := false;
                conditionPromise := cp; payloadPromise := None;
                abortedPromise := Pending; thenPromise := Pending;
                racePromise := Pending; promise := Pending;
                at_phase := AtCondition; jobs := []; dispatched := [];
                invoked := 0 |} in
  started s = true
  /\ match dispatch_throws env P with
     | Some e =>
         core s = (true, 0,
                   P :: shown typePrefix opts (catch_action typePrefix opts env arg e),
                   Fulfilled (catch_action typePrefix opts env arg e), Done)
     | None => invoked s = 1
     end.
Proof.
  intros Hv s. unfold s, after_condition. rewrite Hv.
  fold P. setters.
  destruct (dispatch_throws env P) as [x|].
  { rewrite finish_catch.
    rewrite (finish_final typePrefix opts env final_ok)
      by apply is_final_catch_action.
    simpl. auto. }
  remember (fold_left _ _ _) as s2 eqn:Hs2.
  assert (Hc : core s2 = (true, 1, [P], Pending, AtCondition)).
  { subst s2. rewrite (core_aborts env). reflexivity. }
  unfold core in Hc. injection Hc as C1 C2 C3 C4 C5. clear Hs2.
  destruct (outcome _) as [e|x|p].
  - rewrite finish_catch.
    rewrite (finish_final typePrefix opts env final_ok)
      by apply is_final_catch_action.
    destruct s2; simpl in *. auto.
  - unfold start_race. destruct s2 as [st ar' sg cp' pp ap tp rp pr ph q dl iv].
    simpl in *. subst. destruct ap; simpl; auto.
  - unfold start_race. destruct s2 as [st ar' sg cp' pp ap tp rp pr ph q dl iv].
    simpl in *. subst. destruct p, ap; simpl; auto.
Qed.

End Armed.

Lemma start_without_gate typePrefix payloadCreator opts env arg :
  condition_of opts = None
  \/ (exists cond v, condition_of opts = Some cond
                     /\ cond arg = Returns v /\ is_false v = false) ->
  exists v, is_false v = false
            /\ start typePrefix payloadCreator opts env arg
               = after_condition typePrefix payloadCreator opts env arg v initial.
Proof.
  unfold start, condition_of.
  intros [H|(cond & v & H & Hr & Hv)]; rewrite H.
  - now exists VUndef.
  - rewrite Hr. now exists v.
Qed.







(** ** An abort made by the payload creator itself *)

Section SyncAbort.

Variable typePrefix : string.
Variable payloadCreator : value -> string -> creator_run.
Variable opts : option options.
Variable env : environment.
Variable arg : value.

Hypothesis final_ok :
  forall a, is_final typePrefix a = true -> dispatch_throws env a = None.
Hypothesis native : AbortController_defined env = true.

Variable reason : value.
Variable more : list value.
Hypothesis aborts_first :
  sync_aborts (payloadCreator arg (requestId opts env arg)) = reason :: more.
Hypothesis returns :
  forall e, outcome (payloadCreator arg (requestId opts env arg)) <> Throws e.

#[local] Abbreviation INV := (Inv typePrefix payloadCreator opts env arg).
#[local] Abbreviation DEC :=
  (Decided typePrefix opts env arg (Throw (AbortError reason))).
#[local] Abbreviation step' := (step typePrefix payloadCreator opts env arg).
#[local] Abbreviation P := (pendingAction typePrefix opts env arg).

Lemma sync_aborts_fired l : forall ar x cp dl iv,
  exists ar',
    fold_left (fun s r => abort env r s) l
      {| started := true; abortReason := ar; signal_aborted := true;
         conditionPromise := cp; payloadPromise := None;
         abortedPromise := Rejected x; thenPromise := Pending;
         racePromise := Pending; promise := Pending;
         at_phase := AtCondition; jobs := []; dispatched := dl;
         invoked := iv |}
    = {| started := true; abortReason := ar'; signal_aborted := true;
         conditionPromise := cp; payloadPromise := None;
         abortedPromise := Rejected x; thenPromise := Pending;
         racePromise := Pending; promise := Pending;
         at_phase := AtCondition; jobs := []; dispatched := dl;
         invoked := iv |}.
Proof.
  induction l as [|r l IH]; intros ar x cp dl iv; simpl; [eauto|].
  unfold abort at 2, controller_abort; simpl.
  rewrite andb_false_r. apply IH.
Qed.

Lemma sync_aborts_first ar cp dl iv :
  exists ar',
    fold_left (fun s r => abort env r s) (reason :: more)
      {| started := true; abortReason := ar; signal_aborted := false;
         conditionPromise := cp; payloadPromise := None;
         abortedPromise := Pending; thenPromise := Pending;
         racePromise := Pending; promise := Pending;
         at_phase := AtCondition; jobs := []; dispatched := dl;
         invoked := iv |}
    = {| started := true; abortReason := ar'; signal_aborted := true;
         conditionPromise := cp; payloadPromise := None;
         abortedPromise := Rejected (AbortError reason); thenPromise := Pending;
         racePromise := Pending; promise := Pending;
         at_phase := AtCondition; jobs := []; dispatched := dl;
         invoked := iv |}.
Proof.
  cbn [fold_left]. unfold abort at 2, controller_abort; simpl.
  rewrite native. simpl. apply sync_aborts_fired.
Qed.

Lemma after_condition_sync_abort v ar cp :
  let s := after_condition typePrefix payloadCreator opts env arg v
             {| started := false; abortReason := ar; signal_aborted := false;
                conditionPromise := cp; payloadPromise := None;
                abortedPromise := Pending; thenPromise := Pending;
                racePromise := Pending; promise := Pending;
                at_phase := AtCondition; jobs := []; dispatched := [];
                invoked := 0 |} in
  invoked s = 1 -> DEC s.
Proof.
  intros s. unfold s, after_condition.
  destruct (is_false v).
  { rewrite finish_catch, (finish_final typePrefix opts env final_ok)
      by apply is_final_catch_action. discriminate. }
  fold P. setters.
  destruct (dispatch_throws env P).
  { rewrite finish_catch, (finish_final typePrefix opts env final_ok)
      by apply is_final_catch_action. discriminate. }
  rewrite aborts_first.
  destruct (sync_aborts_first ar cp [P] 1) as [ar' ->].
  intros _. destruct (outcome _) as [e|x|p] eqn:Ho.
  - now elim (returns e).
  - left. repeat split.
  - left. destruct p; repeat split.
Qed.

Lemma sync_abort_step s ev :
  INV s -> (invoked s = 1 -> DEC s) ->
  invoked (step' s ev) = 1 -> DEC (step' s ev).
Proof.
  intros HI HQ Hi.
  assert (Hq : core (step' s ev) = core s -> DEC (step' s ev)).
  { intros E. apply Decided_step; auto. apply HQ.
    unfold core in E. injection E as _ E2 _ _ _. congruence. }
  destruct ev as [r|c|c|]; try (apply Hq; now apply core_step).
  destruct (jobs s) as [|[c|c|c|c] q0] eqn:Hj;
    try (apply Hq; apply core_step; now rewrite Hj).
  - cbn [step] in *. rewrite Hj in *.
    destruct (at_condition typePrefix payloadCreator opts env arg s c q0 HI Hj)
      as (ar & cp & _ & E).
    rewrite E in *. destruct c as [v|e]; cbn [run_job] in *.
    + now apply after_condition_sync_abort.
    + rewrite finish_catch, (finish_final typePrefix opts env final_ok) in Hi
        by apply is_final_catch_action. discriminate.
  - apply Decided_step; auto. apply HQ.
    destruct (armed_step typePrefix payloadCreator opts env arg final_ok s
                Microtask HI) as [_ H2]; [|congruence].
    destruct (at_phase s) eqn:Hph.
    + destruct (inv_cond _ _ _ _ _ _ HI Hph) as (_ & _ & Hx & _).
      destruct (inv_early _ _ _ _ _ _ HI Hx) as (_ & _ & Hy & _).
      rewrite Hj in Hy. discriminate.
    + now destruct (inv_race_phase _ _ _ _ _ _ HI Hph).
    + destruct (inv_done _ _ _ _ _ _ HI Hph) as (Hx & _).
      rewrite Hj in Hx. discriminate.
Qed.

Lemma sync_abort_start :
  invoked (start typePrefix payloadCreator opts env arg) = 1 ->
  DEC (start typePrefix payloadCreator opts env arg).
Proof.
  unfold start.
  destruct (match opts with Some o => condition o | None => None end) as [cond|].
  2:{ apply after_condition_sync_abort. }
  destruct (cond arg) as [e|v|p].
  - rewrite finish_catch, (finish_final typePrefix opts env final_ok)
      by apply is_final_catch_action. discriminate.
  - apply after_condition_sync_abort.
  - destruct p; discriminate.
Qed.

Lemma sync_abort_run schedule :
  let s := run typePrefix payloadCreator opts env arg schedule in
  invoked s = 1 -> DEC s.
Proof.
  assert (Hsteps : forall l s, INV s -> (invoked s = 1 -> DEC s) ->
            invoked (fold_left step' l s) = 1 -> DEC (fold_left step' l s)).
  { induction l as [|ev l IH]; intros s HI HQ; simpl; auto.
    apply IH; [now apply Inv_step|now apply sync_abort_step]. }
  assert (Hdrain : forall n s, INV s -> (invoked s = 1 -> DEC s) ->
            invoked (drain typePrefix payloadCreator opts env arg n s) = 1 ->
            DEC (drain typePrefix payloadCreator opts env arg n s)).
  { induction n as [|n IH]; intros s HI HQ; simpl; auto.
    destruct (jobs s) eqn:Hj; auto.
    pose proof (Inv_step typePrefix payloadCreator opts env arg final_ok
                  s Microtask HI) as HI'.
    pose proof (sync_abort_step s Microtask HI HQ) as HQ'.
    cbn [step] in HI', HQ'. rewrite Hj in HI', HQ'. now apply IH. }
  intros s. unfold s, run. apply Hdrain.
  - apply Inv_steps, Inv_start; assumption.
  - apply Hsteps; [now apply Inv_start|apply sync_abort_start].
Qed.

End SyncAbort.



(** ** What [unwrap()] gives *)

Lemma unwrap_aborted_event typePrefix opts rid arg reason :
  default_serializer opts ->
  reason = VUndef \/ (exists x, reason = VStr x) ->
  then_unwrap (Fulfilled (rejected typePrefix opts (AbortError reason) rid arg
                            VUndef VUndef))
  = Rejected (AbortError reason).
Proof.
  intros Hser Hr. unfold then_unwrap, unwrapResult.
  set (a := rejected typePrefix opts (AbortError reason) rid arg VUndef VUndef).
  assert (Hm : truthy (get a "meta") = true) by reflexivity.
  assert (Hv : get (get a "meta") "rejectedWithValue" = VBool false).
  { change (get a "meta") with (meta_of a). unfold a. meta_field. }
  assert (He : get a "error" = AbortError reason).
  { unfold a. rewrite error_of_rejected, the_serializer_default by assumption.
    destruct Hr as [->|[x ->]]; [reflexivity|].
    unfold AbortError, js_or. simpl. destruct (String.eqb x ""); reflexivity. }
  rewrite Hm, Hv, He. reflexivity.
Qed.







(** ** Without a native AbortController *)

Section Fallback.

Variable typePrefix : string.
Variable payloadCreator : value -> string -> creator_run.
Variable opts : option options.
Variable env : environment.
Variable arg : value.

Hypothesis fallback : AbortController_defined env = false.

#[local] Abbreviation step' := (step typePrefix payloadCreator opts env arg).

(** Equal but for the recorded abort reason. *)
#[local] Abbreviation same s s' := (forget_reason s = forget_reason s').

Ltac open_same s s' H :=
  destruct s as [st ar sg cp pp ap tp rp pr ph q dl iv];
  destruct s' as [st' ar' sg' cp' pp' ap' tp' rp' pr' ph' q' dl' iv'];
  unfold forget_reason, set_abortReason in H; simpl in H;
  injection H as -> -> -> -> -> -> -> -> -> -> -> ->.

Lemma abort_inert r s : same (abort env r s) s.
Proof.
  unfold abort, controller_abort. destruct s as [st ar sg cp pp ap tp rp pr ph q dl iv].
  simpl. rewrite fallback. destruct st; reflexivity.
Qed.

Lemma same_abort r s s' : same s s' -> same (abort env r s) (abort env r s').
Proof. intros H. now rewrite !abort_inert. Qed.

Lemma same_aborts l : forall s s',
  same s s' ->
  same (fold_left (fun s r => abort env r s) l s)
       (fold_left (fun s r => abort env r s) l s').
Proof. induction l; simpl; auto using same_abort. Qed.

Lemma same_finish a s s' :
  same s s' -> same (finish typePrefix opts env a s) (finish typePrefix opts env a s').
Proof.
  intros H. open_same s s' H. unfold finish.
  destruct (skipDispatch typePrefix opts a); [reflexivity|].
  simpl. destruct (dispatch_throws env a); reflexivity.
Qed.

Lemma same_start_race p s s' :
  same s s' -> same (start_race p s) (start_race p s').
Proof.
  intros H. open_same s s' H. unfold start_race.
  destruct p, ap'; reflexivity.
Qed.

Lemma same_after_condition v s s' :
  same s s' ->
  same (after_condition typePrefix payloadCreator opts env arg v s)
       (after_condition typePrefix payloadCreator opts env arg v s').
Proof.
  intros H. unfold after_condition, catch.
  destruct (is_false v); [now apply same_finish|].
  assert (H1 : same (set_dispatched
                       (dispatched (set_started true s)
                        ++ [pendingAction typePrefix opts env arg])
                       (set_started true s))
                    (set_dispatched
                       (dispatched (set_started true s')
                        ++ [pendingAction typePrefix opts env arg])
                       (set_started true s'))).
  { open_same s s' H. reflexivity. }
  fold (pendingAction typePrefix opts env arg).
  destruct (dispatch_throws env (pendingAction typePrefix opts env arg));
    [now apply same_finish|].
  match goal with
  | |- same (match _ with Throws _ => _ ?x | _ => _ end)
            (match _ with Throws _ => _ ?y | _ => _ end) =>
      assert (H2 : same x y)
  end.
  { apply same_aborts.
    revert H1.
    generalize (set_dispatched
                  (dispatched (set_started true s)
                   ++ [pendingAction typePrefix opts env arg])
                  (set_started true s)).
    generalize (set_dispatched
                  (dispatched (set_started true s')
                   ++ [pendingAction typePrefix opts env arg])
                  (set_started true s')).
    intros t' t Ht. open_same t t' Ht. reflexivity. }
  destruct (outcome _); [now apply same_finish| |]; now apply same_start_race.
Qed.

Lemma same_jobs s s' : same s s' -> jobs s = jobs s'.
Proof. intros H. open_same s s' H. reflexivity. Qed.

Lemma same_step ev s s' : same s s' -> same (step' s ev) (step' s' ev).
Proof.
  intros H. destruct ev as [r|c|c|]; cbn [step].
  - now apply same_abort.
  - open_same s s' H. cbn [payloadPromise]. destruct pp' as [[| |]|]; reflexivity.
  - open_same s s' H. cbn [conditionPromise]. destruct cp' as [[| |]|]; reflexivity.
  - rewrite <- (same_jobs s s' H).
    destruct (jobs s) as [|j q0]; [exact H|].
    assert (Hq : same (set_jobs q0 s) (set_jobs q0 s'))
      by (open_same s s' H; reflexivity).
    destruct j as [[v|e]|c|c|[a|e]]; cbn [run_job].
    + now apply same_after_condition.
    + unfold catch. now apply same_finish.
    + revert Hq. generalize (set_jobs q0 s), (set_jobs q0 s').
      intros t t' Ht. open_same t t' Ht. reflexivity.
    + revert Hq. generalize (set_jobs q0 s), (set_jobs q0 s').
      intros t t' Ht. open_same t t' Ht. cbn [racePromise].
      destruct rp'; reflexivity.
    + now apply same_finish.
    + unfold catch. now apply same_finish.
Qed.

Lemma same_drain n : forall s s',
  same s s' ->
  same (drain typePrefix payloadCreator opts env arg n s)
       (drain typePrefix payloadCreator opts env arg n s').
Proof.
  induction n as [|n IH]; intros s s' H; simpl; auto.
  pose proof (same_step Microtask s s' H) as H'. cbn [step] in H'.
  rewrite <- (same_jobs s s' H) in *. destruct (jobs s) eqn:Hj; auto.
Qed.

Lemma same_without_aborts l : forall s s',
  same s s' ->
  same (fold_left step' l s)
       (fold_left step' (filter (fun ev => negb (is_abort ev)) l) s').
Proof.
  induction l as [|ev l IH]; intros s s' H; simpl; auto.
  destruct ev as [r|c|c|]; simpl.
  - apply IH. cbn [step]. now rewrite abort_inert.
  - apply IH. now apply (same_step (SettlePayload c)).
  - apply IH. now apply (same_step (SettleCondition c)).
  - apply IH. now apply (same_step Microtask).
Qed.

Lemma signal_finish a t :
  signal_aborted (finish typePrefix opts env a t) = signal_aborted t.
Proof.
  unfold finish. destruct (skipDispatch _ _ _); [reflexivity|].
  now destruct (dispatch_throws env a).
Qed.

Lemma signal_abort r t : signal_aborted (abort env r t) = signal_aborted t.
Proof.
  unfold abort, controller_abort. rewrite fallback.
  destruct t as [st ar sg cp pp ap tp rp pr ph q dl iv]; simpl.
  now destruct st.
Qed.

Lemma signal_aborts l : forall t,
  signal_aborted (fold_left (fun s r => abort env r s) l t) = signal_aborted t.
Proof. induction l; intros t; simpl; auto. now rewrite IHl, signal_abort. Qed.

Lemma signal_after_condition v t :
  signal_aborted (after_condition typePrefix payloadCreator opts env arg v t)
  = signal_aborted t.
Proof.
  unfold after_condition, catch.
  destruct (is_false v); [apply signal_finish|].
  destruct (dispatch_throws env _); [rewrite signal_finish; now destruct t|].
  destruct (outcome _); rewrite ?signal_finish; unfold start_race;
    try (destruct (settled _)); try (destruct (abortedPromise _));
    simpl; rewrite signal_aborts; now destruct t.
Qed.

Lemma signal_never_fires_step s ev :
  signal_aborted s = false -> signal_aborted (step' s ev) = false.
Proof.
  intros H. destruct ev as [r|c|c|]; cbn [step].
  - now rewrite signal_abort.
  - destruct (payloadPromise s) as [[| |]|]; destruct s; auto.
  - destruct (conditionPromise s) as [[| |]|]; destruct s; auto.
  - destruct (jobs s) as [|[[v|e]|c|c|[a|e]] q0]; cbn [run_job]; auto;
      unfold catch; rewrite ?signal_after_condition, ?signal_finish;
      destruct s as [st ar sg cp pp ap tp rp pr ph q dl iv];
      try destruct rp; auto.
Qed.

Lemma signal_never_fires schedule :
  signal_aborted (run typePrefix payloadCreator opts env arg schedule) = false.
Proof.
  assert (H0 : signal_aborted (start typePrefix payloadCreator opts env arg) = false).
  { unfold start.
    destruct (match opts with Some o => condition o | None => None end) as [cond|];
      [|now rewrite signal_after_condition].
    destruct (cond arg) as [e|v|p].
    - unfold catch. now rewrite signal_finish.
    - now rewrite signal_after_condition.
    - now destruct p. }
  assert (H1 : forall l s, signal_aborted s = false ->
                           signal_aborted (fold_left step' l s) = false).
  { induction l; intros s H; simpl; auto using signal_never_fires_step. }
  assert (H2 : forall n s, signal_aborted s = false ->
               signal_aborted (drain typePrefix payloadCreator opts env arg n s)
               = false).
  { induction n as [|n IH]; intros s H; simpl; auto.
    destruct (jobs s) eqn:Hj; auto.
    pose proof (signal_never_fires_step s Microtask H) as H'.
    cbn [step] in H'. rewrite Hj in H'. now apply IH. }
  unfold run. auto.
Qed.

Lemma run_without_aborts schedule :
  same (run typePrefix payloadCreator opts env arg schedule)
       (run typePrefix payloadCreator opts env arg
          (filter (fun ev => negb (is_abort ev)) schedule)).
Proof.
  unfold run.
  pose proof (same_without_aborts schedule
                (start typePrefix payloadCreator opts env arg)
                (start typePrefix payloadCreator opts env arg) eq_refl) as H.
  rewrite (same_jobs _ _ H). now apply same_drain.
Qed.

End Fallback.

(** X16: on a platform without [AbortController] the handle's [abort] is
    inert: the signal never fires, and under every schedule the run
    resolves the handle, dispatches and calls the payload creator exactly
    as the same schedule with every [abort] call removed does. *)
Theorem abort_is_inert_without_controller
    (typePrefix : string) (payloadCreator : value -> string -> creator_run)
    (opts : option options) (env : environment) (arg : value)
    (schedule : list event) :
  AbortController_defined env = false ->
  let s := run typePrefix payloadCreator opts env arg schedule in
  let s' := run typePrefix payloadCreator opts env arg
              (filter (fun ev => negb (is_abort ev)) schedule) in
  signal_aborted s = false
  /\ promise s = promise s' /\ dispatched s = dispatched s'
  /\ invoked s = invoked s' /\ jobs s = jobs s'.
Proof.
  intros Hf s s'.
  split; [now apply signal_never_fires|].
  pose proof (run_without_aborts typePrefix payloadCreator opts env arg Hf schedule)
    as H.
  fold s s' in H. clearbody s s'.
  destruct s as [st ar sg cp pp ap tp rp pr ph q dl iv];
    destruct s' as [st' ar' sg' cp' pp' ap' tp' rp' pr' ph' q' dl' iv'].
  unfold forget_reason, set_abortReason in H; simpl in H.
  injection H as -> -> -> -> -> -> -> -> -> -> -> ->. simpl. auto.
Qed.

Lemma abort_is_inert_without_controller_witness :
  let env := {| AbortController_defined := false; nanoid := "R";
                dispatch_throws := fun _ => None |} in
  let schedule := [Abort (VStr "stop"); SettlePayload (Normal user7)] in
  let s := run "t" (creator (ReturnsPromise Pending)) None env (VNum 7) schedule in
  let s' := run "t" (creator (ReturnsPromise Pending)) None env (VNum 7)
              (filter (fun ev => negb (is_abort ev)) schedule) in
  signal_aborted s = false
  /\ promise s = promise s' /\ dispatched s = dispatched s'
  /\ invoked s = invoked s' /\ jobs s = jobs s'.
Proof.
  apply (abort_is_inert_without_controller "t" (creator (ReturnsPromise Pending)) None
           {| AbortController_defined := false; nanoid := "R";
              dispatch_throws := fun _ => None |}
           (VNum 7) [Abort (VStr "stop"); SettlePayload (Normal user7)]).
  reflexivity.
Defined.

(** ** A condition promise that rejects *)

Section ConditionRejects.

Variable typePrefix : string.
Variable payloadCreator : value -> string -> creator_run.
Variable opts : option options.
Variable env : environment.
Variable arg : value.

#[local] Abbreviation step' := (step typePrefix payloadCreator opts env arg).
#[local] Abbreviation RPath := (RejectionPath typePrefix opts env arg).

Lemma RPath_step s ev : RPath s -> RPath (step' s ev).
Proof.
  unfold RejectionPath. intros H.
  destruct (conditionPromise s) as [[|v|e]|] eqn:Hcp.
  - subst s. destruct ev as [r|c|[|]|]; simpl; auto.
  - assert (Hs : conditionPromise (step' s ev) = conditionPromise s)
      by (apply conditionPromise_step; congruence).
    now rewrite Hs, Hcp.
  - assert (Hs : conditionPromise (step' s ev) = conditionPromise s)
      by (apply conditionPromise_step; congruence).
    rewrite Hs, Hcp. destruct H as [->| ->].
    + destruct ev as [r|c|c|]; simpl; auto.
    + rewrite caught_unarmed_frozen; [auto|discriminate].
  - assert (Hs : conditionPromise (step' s ev) = conditionPromise s)
      by (apply conditionPromise_step; congruence).
    now rewrite Hs, Hcp.
Qed.

Lemma RPath_steps l : forall s, RPath s -> RPath (fold_left step' l s).
Proof.
  induction l as [|ev l IH]; intros s H; simpl; auto using RPath_step.
Qed.

Lemma RPath_end s e :
  RPath s ->
  conditionPromise
    (drain typePrefix payloadCreator opts env arg (queue_weight (jobs s)) s)
  = Some (Rejected e) ->
  drain typePrefix payloadCreator opts env arg (queue_weight (jobs s)) s
  = caught_unarmed typePrefix opts env arg e (Some (Rejected e)).
Proof.
  intros H Hf. unfold RejectionPath in H.
  set (f := drain typePrefix payloadCreator opts env arg (queue_weight (jobs s)) s) in *.
  assert (Hjobs : forall x cp, jobs (caught_unarmed typePrefix opts env arg x cp) = [])
    by (intros; unfold caught_unarmed, catch; apply jobs_finish).
  destruct (conditionPromise s) as [[|v|e']|] eqn:Hcp.
  - subst s. unfold f in Hf. simpl in Hf. discriminate Hf.
  - assert (Hs : conditionPromise f = Some (Fulfilled v)).
    { unfold f. rewrite conditionPromise_drain; congruence. }
    congruence.
  - assert (Hs : conditionPromise f = Some (Rejected e')).
    { unfold f. rewrite conditionPromise_drain; congruence. }
    rewrite Hs in Hf. injection Hf as ->.
    destruct H as [->| ->].
    + unfold f. change (queue_weight (jobs (rejecting e))) with 6.
      cbn [drain]. change (jobs (rejecting e)) with [JCond (Throw e)].
      cbv iota.
      change (step' (rejecting e) Microtask)
        with (caught_unarmed typePrefix opts env arg e (Some (Rejected e))).
      now rewrite Hjobs.
    + unfold f. apply drain_idle, Hjobs.
  - assert (Hs : conditionPromise f = None).
    { unfold f. rewrite conditionPromise_drain; congruence. }
    congruence.
Qed.

End ConditionRejects.



(** * The default middleware *)

Lemma getDefaultMiddleware_null production options :
  getDefaultMiddleware production options = None <-> options = VNull.
Proof.
  unfold getDefaultMiddleware.
  destruct options; split; intros H; try discriminate; reflexivity.
Qed.

Lemma switched_on_default v : truthy (with_default v) = switched_on v.
Proof. destruct v; reflexivity. Qed.

(** The array [getDefaultMiddleware] builds, front to back. *)
Lemma getDefaultMiddleware_eq production options :
  options <> VNull ->
  let thunk := with_default (get options "thunk") in
  let ic := with_default (get options "immutableCheck") in
  let sc := with_default (get options "serializableCheck") in
  getDefaultMiddleware production options
  = Some ((if negb production && truthy ic
           then [createImmutableStateInvariantMiddleware
                   (if negb (isBoolean ic) then ic else VObj [])]
           else [])
          ++ (if truthy thunk
              then if isBoolean thunk then [thunkMiddleware]
                   else [withExtraArgument (get thunk "extraArgument")]
              else [])
          ++ (if negb production && truthy sc
              then [createSerializableStateInvariantMiddleware
                      (if negb (isBoolean sc) then sc else VObj [])]
              else [])).
Proof.
  intros Hn thunk ic sc.
  assert (E : getDefaultMiddleware production options
              = Some
                  (let m := if truthy thunk
                            then if isBoolean thunk then [] ++ [thunkMiddleware]
                                 else [] ++ [withExtraArgument
                                               (get thunk "extraArgument")]
                            else [] in
                   if negb production then
                     let m := if truthy ic
                              then createImmutableStateInvariantMiddleware
                                     (if negb (isBoolean ic) then ic else VObj [])
                                     :: m
                              else m in
                     if truthy sc
                     then m ++ [createSerializableStateInvariantMiddleware
                                  (if negb (isBoolean sc) then sc else VObj [])]
                     else m
                   else m)).
  { unfold thunk, ic, sc. destruct options; try congruence; reflexivity. }
  rewrite E. clearbody thunk ic sc. f_equal.
  destruct production, (truthy thunk), (isBoolean thunk), (truthy ic),
    (truthy sc); reflexivity.
Qed.

Lemma getDefaultMiddleware_parts production options l :
  getDefaultMiddleware production options = Some l ->
  exists imm th ser,
    l = imm ++ th ++ ser
    /\ (imm = [] \/ exists o, imm = [createImmutableStateInvariantMiddleware o])
    /\ (th = [] \/ th = [thunkMiddleware] \/ exists e, th = [withExtraArgument e])
    /\ (ser = [] \/ exists o, ser = [createSerializableStateInvariantMiddleware o])
    /\ (th <> [] <-> switched_on (get options "thunk") = true)
    /\ (imm <> [] <->
        negb production && switched_on (get options "immutableCheck") = true)
    /\ (ser <> [] <->
        negb production && switched_on (get options "serializableCheck") = true).
Proof.
  intros E.
  assert (Hn : options <> VNull)
    by (intros H; apply (getDefaultMiddleware_null production) in H; congruence).
  rewrite (getDefaultMiddleware_eq production options Hn) in E.
  cbv zeta in E. injection E as <-.
  rewrite <- !switched_on_default.
  set (thunk := with_default (get options "thunk")) in *.
  set (ic := with_default (get options "immutableCheck")) in *.
  set (sc := with_default (get options "serializableCheck")) in *.
  clearbody thunk ic sc.
  do 3 eexists. split; [reflexivity|].
  destruct production, (truthy thunk), (isBoolean thunk), (truthy ic),
    (truthy sc); cbn [negb andb];
    repeat split; eauto; try discriminate; try congruence.
Qed.

(** X18: each of the three default middlewares is in the array exactly
    when its option is left out or truthy and, for the two invariant
    checks, the build is not a production build.  The call fails only on
    [null] options. *)
Theorem default_middleware_switches (production : bool) (options : value) :
  match getDefaultMiddleware production options with
  | Some l =>
      existsb (fun m => rank m =? 1)%nat l
      = switched_on (get options "thunk")
      /\ existsb (fun m => rank m =? 0)%nat l
         = negb production && switched_on (get options "immutableCheck")
      /\ existsb (fun m => rank m =? 2)%nat l
         = negb production && switched_on (get options "serializableCheck")
  | None => options = VNull
  end.
Proof.
  destruct (getDefaultMiddleware production options) as [l|] eqn:E.
  2:{ now apply getDefaultMiddleware_null in E. }
  destruct (getDefaultMiddleware_parts _ _ _ E)
    as (imm & th & ser & -> & Hi & Ht & Hs & Et & Ei & Es).
  rewrite !existsb_app.
  assert (B : forall b c : bool, (b = true <-> c = true) -> b = c)
    by (intros [|] [|] [H1 H2]; auto; symmetry; auto).
  repeat split; apply B.
  - rewrite <- Et.
    destruct Hi as [->|[o ->]], Ht as [->|[->|[e ->]]], Hs as [->|[o' ->]];
      simpl; split; intros; try discriminate; congruence.
  - rewrite <- Ei.
    destruct Hi as [->|[o ->]], Ht as [->|[->|[e ->]]], Hs as [->|[o' ->]];
      simpl; split; intros; try discriminate; congruence.
  - rewrite <- Es.
    destruct Hi as [->|[o ->]], Ht as [->|[->|[e ->]]], Hs as [->|[o' ->]];
      simpl; split; intros; try discriminate; congruence.
Qed.

(** X19: the default middlewares always come in the same order: the
    immutability check first, then the thunk middleware, then the
    serializability check, each at most once. *)
Theorem default_middleware_order (production : bool) (options : value)
    (l : list middleware) :
  getDefaultMiddleware production options = Some l ->
  exists imm th ser,
    l = imm ++ th ++ ser
    /\ (List.length imm <= 1 /\ List.length th <= 1 /\ List.length ser <= 1)%nat
    /\ Forall (fun m => rank m = 0%nat) imm
    /\ Forall (fun m => rank m = 1%nat) th
    /\ Forall (fun m => rank m = 2%nat) ser.
Proof.
  intros E.
  destruct (getDefaultMiddleware_parts _ _ _ E)
    as (imm & th & ser & -> & Hi & Ht & Hs & _).
  exists imm, th, ser. split; [reflexivity|].
  destruct Hi as [->|[o ->]], Ht as [->|[->|[e ->]]], Hs as [->|[o' ->]];
    simpl; repeat split; auto.
Qed.

Lemma default_middleware_order_witness :
  exists imm th ser,
    [createImmutableStateInvariantMiddleware (VObj []);
     withExtraArgument (VNum 5)] = imm ++ th ++ ser
    /\ (List.length imm <= 1 /\ List.length th <= 1 /\ List.length ser <= 1)%nat
    /\ Forall (fun m => rank m = 0%nat) imm
    /\ Forall (fun m => rank m = 1%nat) th
    /\ Forall (fun m => rank m = 2%nat) ser.
Proof.
  apply (default_middleware_order false
           (VObj [("thunk", VObj [("extraArgument", VNum 5)]);
                  ("serializableCheck", VNull)])).
  reflexivity.
Defined.

(** * MiddlewareArray *)

Section MiddlewareArrayFacts.

Variable M : Type.
Implicit Types this arr l : list (element M).

Lemma prepend_eq this arr :
  MiddlewareArray.prepend this arr
  = match arr with [Array arr0] => arr0 | _ => arr end ++ this.
Proof.
  unfold MiddlewareArray.prepend, MiddlewareArray.concat.
  destruct arr as [|[m|arr0] [|b arr]]; simpl; now rewrite app_nil_r.
Qed.

Lemma flat_map_items l :
  forallb is_item l = true ->
  flat_map MiddlewareArray.spreadable l = l.
Proof.
  induction l as [|[m|l'] l IH]; simpl; intros H; try discriminate; auto.
  now rewrite IH.
Qed.

Lemma flat_map_shallow l :
  forallb shallow l = true ->
  forallb is_item (flat_map MiddlewareArray.spreadable l) = true.
Proof.
  induction l as [|[m|l'] l IH]; simpl; intros H; auto.
  apply andb_prop in H as [H1 H2]. rewrite forallb_app, H1. simpl. auto.
Qed.

End MiddlewareArrayFacts.

(** X20: [prepend] and [concat] commute: the middlewares put in front
    and those put behind do not depend on the order of the two calls. *)
Theorem prepend_concat_commute (M : Type) (this front back : list (element M)) :
  MiddlewareArray.concat (MiddlewareArray.prepend this front) back
  = MiddlewareArray.prepend (MiddlewareArray.concat this back) front.
Proof.
  rewrite !prepend_eq. unfold MiddlewareArray.concat. now rewrite app_assoc.
Qed.

(** X21: [concat] spreads every argument that is an array, so that
    middlewares and arrays of middlewares added to an array of
    middlewares give an array of middlewares, the old ones first and in
    their order. *)
Theorem concat_flattens (M : Type) (this arr : list (element M)) :
  forallb is_item this = true ->
  forallb shallow arr = true ->
  forallb is_item (MiddlewareArray.concat this arr) = true
  /\ firstn (List.length this) (MiddlewareArray.concat this arr) = this.
Proof.
  intros Ht Ha. unfold MiddlewareArray.concat. split.
  - rewrite forallb_app, Ht. simpl. now apply flat_map_shallow.
  - rewrite firstn_app, firstn_all, Nat.sub_diag. simpl. apply app_nil_r.
Qed.

Lemma concat_flattens_witness :
  forallb is_item
    (MiddlewareArray.concat [Item thunkMiddleware]
       [Array [Item (withExtraArgument VNull)];
        Item (createSerializableStateInvariantMiddleware VNull)]) = true
  /\ firstn (List.length [Item thunkMiddleware])
       (MiddlewareArray.concat [Item thunkMiddleware]
          [Array [Item (withExtraArgument VNull)];
           Item (createSerializableStateInvariantMiddleware VNull)])
     = [Item thunkMiddleware].
Proof.
  apply (concat_flattens middleware [Item thunkMiddleware]
           [Array [Item (withExtraArgument VNull)];
            Item (createSerializableStateInvariantMiddleware VNull)]);
    reflexivity.
Defined.

(** X22: [prepend] spreads an array only when it is the single argument.
    Given middlewares and arrays of middlewares, its result is an array
    of middlewares exactly when all arguments are middlewares or the only
    argument is an array; otherwise the arrays end up as elements. *)
Theorem prepend_flat_iff (M : Type) (this arr : list (element M)) :
  forallb is_item this = true ->
  forallb shallow arr = true ->
  (forallb is_item (MiddlewareArray.prepend this arr) = true
   <-> forallb is_item arr = true \/ exists arr0, arr = [Array arr0]).
Proof.
  intros Ht Ha. rewrite prepend_eq, forallb_app, Ht, andb_true_r.
  destruct arr as [|[m|arr0] [|b arr]]; simpl in *.
  - split; auto.
  - split; auto.
  - split; auto. intros [H|[l H]]; [exact H|discriminate H].
  - rewrite andb_true_r in Ha. rewrite Ha. split; eauto.
  - split; [discriminate|]. intros [H|[l H]]; discriminate.
Qed.

Lemma prepend_flat_iff_witness :
  forallb is_item
    (MiddlewareArray.prepend [Item thunkMiddleware]
       [Array [Item (withExtraArgument VNull)];
        Array [Item (withExtraArgument VUndef)]]) = true
  <-> forallb is_item
        [Array [Item (withExtraArgument VNull)];
         Array [Item (withExtraArgument VUndef)]] = true
      \/ exists arr0,
           [Array [Item (withExtraArgument VNull)];
            Array [Item (withExtraArgument VUndef)]] = [Array arr0].
Proof.
  apply (prepend_flat_iff middleware [Item thunkMiddleware]
           [Array [Item (withExtraArgument VNull)];
            Array [Item (withExtraArgument VUndef)]]);
    reflexivity.
Defined.

(** X23: passing [prepend] one array is the same as passing its
    elements as separate arguments, unless the array holds a single
    array, which is then spread once more. *)
Theorem prepend_single_array (M : Type) (this arr0 : list (element M)) :
  (forall inner, arr0 <> [Array inner]) ->
  MiddlewareArray.prepend this [Array arr0]
  = MiddlewareArray.prepend this arr0.
Proof.
  intros H. rewrite !prepend_eq.
  destruct arr0 as [|[m|inner] [|b arr]]; try reflexivity.
  now destruct (H inner).
Qed.

Lemma prepend_single_array_witness :
  MiddlewareArray.prepend [Item thunkMiddleware]
    [Array [Item (withExtraArgument VNull); Item (withExtraArgument VUndef)]]
  = MiddlewareArray.prepend [Item thunkMiddleware]
      [Item (withExtraArgument VNull); Item (withExtraArgument VUndef)].
Proof.
  apply (prepend_single_array middleware [Item thunkMiddleware]
           [Item (withExtraArgument VNull); Item (withExtraArgument VUndef)]).
  intros inner. discriminate.
Defined.

(** * Time measurement *)

Lemma measurements_elapsed l : forall t,
  elapsed (measurements l t)
  = (elapsed t
     + fold_right (fun m acc => snd (fst m) - fst (fst m) + acc) 0 l)%Z
  /\ maxDelay (measurements l t) = maxDelay t
  /\ fnName (measurements l t) = fnName t.
Proof.
  induction l as [|[[st fi] r] l IH]; intros t.
  - simpl. repeat split; lia.
  - change (measurements ((st, fi, r) :: l) t)
      with (measurements l (snd (measureTime st fi r t))).
    destruct (IH (snd (measureTime st fi r t))) as (-> & -> & ->).
    simpl. repeat split; lia.
Qed.

(** X24: with a clock that never runs backwards, a warning once due
    stays due after further measurements, whether the measured functions
    return or throw. *)
Theorem warning_persists (t : timeMeasure) (l : list (Z * Z * completion)) :
  Forall (fun m => fst (fst m) <= snd (fst m))%Z l ->
  warnIfExceeded t = true ->
  warnIfExceeded (measurements l t) = true.
Proof.
  intros Hl Hw. unfold warnIfExceeded in *.
  destruct (measurements_elapsed l t) as (-> & -> & _).
  apply Z.ltb_lt in Hw. apply Z.ltb_lt.
  assert (0 <= fold_right (fun m acc => snd (fst m) - fst (fst m) + acc) 0 l)%Z.
  { induction Hl as [|[[st fi] r] l H Hl IH]; simpl in *; lia. }
  lia.
Qed.

Lemma warning_persists_witness :
  warnIfExceeded
    (measurements [(10, 12, Normal VUndef); (20, 25, Throw VNull)]%Z
       {| maxDelay := 32; fnName := "check"; elapsed := 40 |}) = true.
Proof.
  apply (warning_persists {| maxDelay := 32; fnName := "check"; elapsed := 40 |}
           [(10, 12, Normal VUndef); (20, 25, Throw VNull)]%Z).
  - repeat constructor; simpl; lia.
  - reflexivity.
Defined.

(** * createReducer *)

Section ReducerFacts.

Variable isDraft : value -> bool.
Variable isDraftable : value -> bool.
Variable createNextState : value -> (value -> completion) -> completion.

#[local] Abbreviation reducer' :=
  (reducer isDraft isDraftable createNextState).
#[local] Abbreviation reduce' :=
  (reduce isDraft isDraftable createNextState).

Lemma matching_all_some action ms matched :
  matching action ms = inr matched ->
  Forall (fun cr => is_some cr = true) matched.
Proof.
  revert matched. induction ms as [|m ms IH]; simpl; intros matched H.
  - injection H as <-. constructor.
  - destruct (matcher m action) as [r|e]; [|discriminate].
    destruct (matching action ms) as [e|rs]; [discriminate|].
    injection H as <-. destruct (truthy r); auto.
Qed.

(** The call of [reduce] the reducer ends in. *)
Lemma reducer_eq gi am ms d state action s matched :
  (if is_undefined state then gi else Normal state) = Normal s ->
  is_undefined action = false -> is_null action = false ->
  matching action ms = inr matched ->
  reducer' gi am ms d state action
  = match am (get action "type"), matched with
    | None, [] => reduce' action [d] s
    | cr, _ => reduce' action (cr :: matched) s
    end.
Proof.
  intros Hs Hu Hn Hm. unfold reducer. rewrite Hs, Hm.
  pose proof (matching_all_some _ _ _ Hm) as Hall.
  destruct action; try discriminate;
    (destruct (am _) as [cr|];
     [reflexivity
     |destruct matched as [|[c|] rest];
      [reflexivity|reflexivity|inversion Hall; discriminate]]).
Qed.

Lemma reduce_none action l : forall s,
  Forall (fun cr => cr = None) l -> reduce' action l s = Next s.
Proof.
  induction l as [|cr l IH]; intros s H; simpl; auto.
  inversion H; subst. simpl. auto.
Qed.

Lemma reduce_undefined_on_null action l :
  isDraft VNull = false -> isDraftable VNull = false ->
  Forall (fun cr => forall c, cr = Some c -> c VNull action = Normal VUndef) l ->
  reduce' action l VNull = Next VNull.
Proof.
  intros Hd Hb. induction l as [|[c|] l IH]; intros H; simpl; auto.
  - inversion H as [|? ? Hc Hl]; subst.
    rewrite Hd, Hb, (Hc c eq_refl). simpl. auto.
  - inversion H; subst. auto.
Qed.

End ReducerFacts.

Lemma createReducer_reducer
    (isDraft isDraftable : value -> bool)
    (createNextState : value -> (value -> completion) -> completion)
    initialState actionsMap actionMatchers defaultCaseReducer r getInitialState :
  createReducer isDraft isDraftable createNextState initialState actionsMap
    actionMatchers defaultCaseReducer = inr (r, getInitialState) ->
  r = reducer isDraft isDraftable createNextState getInitialState actionsMap
        actionMatchers defaultCaseReducer.
Proof.
  unfold createReducer. destruct initialState as [v|call].
  - destruct (freezeDraftable _ _ v); [|discriminate].
    intros H. injection H as <- <-. reflexivity.
  - intros H. injection H as <- <-. reflexivity.
Qed.

(** X25: an action that no case reducer and no matcher handles, with no
    default case, gives back the very state the reducer was called with,
    or the initial state when that state is [undefined]. *)
Theorem reducer_ignores_unknown_action
    (isDraft isDraftable : value -> bool)
    (createNextState : value -> (value -> completion) -> completion)
    (initialState : initial_state) (actionsMap : value -> option caseReducer)
    (actionMatchers : list ActionMatcherDescription)
    (r : value -> value -> reduced) (getInitialState : completion)
    (state action : value) :
  createReducer isDraft isDraftable createNextState initialState actionsMap
    actionMatchers None = inr (r, getInitialState) ->
  is_undefined action = false -> is_null action = false ->
  actionsMap (get action "type") = None ->
  matching action actionMatchers = inr [] ->
  r state action
  = match (if is_undefined state then getInitialState else Normal state) with
    | Normal s => Next s
    | Throw e => Raised e
    end.
Proof.
  intros Hr Hu Hn Ha Hm. apply createReducer_reducer in Hr. subst r.
  destruct (if is_undefined state then getInitialState else Normal state)
    as [s|e] eqn:Hs.
  - rewrite (reducer_eq _ _ _ _ _ _ _ _ _ s [] Hs Hu Hn Hm), Ha. reflexivity.
  - unfold reducer. now rewrite Hs.
Qed.

(** X26: the default case reducer runs exactly when nothing else
    handles the action: when a case reducer is registered for the type or
    a matcher accepts the action the default plays no part, and otherwise
    the reducer behaves as if the default were the case reducer of every
    type. *)
Theorem default_case_only_when_unmatched
    (isDraft isDraftable : value -> bool)
    (createNextState : value -> (value -> completion) -> completion)
    (getInitialState : completion) (actionsMap : value -> option caseReducer)
    (actionMatchers : list ActionMatcherDescription)
    (defaultCaseReducer : option caseReducer) (state action : value)
    (matched : list (option caseReducer)) :
  matching action actionMatchers = inr matched ->
  reducer isDraft isDraftable createNextState getInitialState actionsMap
    actionMatchers defaultCaseReducer state action
  = match actionsMap (get action "type"), matched with
    | None, [] =>
        reducer isDraft isDraftable createNextState getInitialState
          (fun _ => defaultCaseReducer) [] None state action
    | _, _ =>
        reducer isDraft isDraftable createNextState getInitialState actionsMap
          actionMatchers None state action
    end.
Proof.
  intros Hm.
  destruct (if is_undefined state then getInitialState else Normal state)
    as [s|e] eqn:Hs.
  2:{ unfold reducer. rewrite Hs. now destruct (actionsMap _), matched. }
  destruct (is_undefined action) eqn:Hu.
  { destruct action; try discriminate. unfold reducer. rewrite Hs.
    now destruct (actionsMap _), matched. }
  destruct (is_null action) eqn:Hn.
  { destruct action; try discriminate. unfold reducer. rewrite Hs.
    now destruct (actionsMap _), matched. }
  rewrite (reducer_eq _ _ _ _ _ _ _ _ _ s matched Hs Hu Hn Hm).
  destruct (actionsMap (get action "type")) as [cr|] eqn:Ha.
  - rewrite (reducer_eq _ _ _ _ _ _ _ _ _ s matched Hs Hu Hn Hm), Ha.
    reflexivity.
  - destruct matched as [|c rest].
    + rewrite (reducer_eq _ _ _ _ (fun _ => defaultCaseReducer) [] None _ _ s
                 [] Hs Hu Hn eq_refl).
      destruct defaultCaseReducer; reflexivity.
    + rewrite (reducer_eq _ _ _ _ _ _ _ _ _ s (c :: rest) Hs Hu Hn Hm), Ha.
      reflexivity.
Qed.

Lemma reducer_ignores_unknown_action_witness :
  reducer (fun _ => false) is_object (fun base recipe => recipe base)
    (Normal (VNum 0)) (fun _ => None)
    [{| matcher := fun a => Normal (VBool (is_str (get a "type") "add"));
        reducer_of := fun s _ => Normal s |}]
    None VUndef (VObj [("type", VStr "other")])
  = Next (VNum 0).
Proof.
  apply (reducer_ignores_unknown_action (fun _ => false) is_object
           (fun base recipe => recipe base)
           (InitialValue (VNum 0)) (fun _ => None)
           [{| matcher := fun a => Normal (VBool (is_str (get a "type") "add"));
               reducer_of := fun s _ => Normal s |}]
           _ (Normal (VNum 0))
           VUndef (VObj [("type", VStr "other")]));
    reflexivity.
Defined.

Lemma default_case_only_when_unmatched_witness :
  reducer (fun _ => false) is_object
    (fun base recipe => recipe base)
    (Normal (VNum 0)) (fun _ => None)
    [{| matcher := fun a => Normal (VBool (is_str (get a "type") "add"));
        reducer_of := fun s _ => Normal (VNum 1) |}]
    (Some (fun _ _ => Normal (VNum 2))) (VNum 5) (VObj [("type", VStr "add")])
  = reducer (fun _ => false) is_object
      (fun base recipe => recipe base)
      (Normal (VNum 0)) (fun _ => None)
      [{| matcher := fun a => Normal (VBool (is_str (get a "type") "add"));
          reducer_of := fun s _ => Normal (VNum 1) |}]
      None (VNum 5) (VObj [("type", VStr "add")]).
Proof.
  apply (default_case_only_when_unmatched (fun _ => false) is_object
           (fun base recipe => recipe base)
           (Normal (VNum 0)) (fun _ => None)
           [{| matcher := fun a => Normal (VBool (is_str (get a "type") "add"));
               reducer_of := fun s _ => Normal (VNum 1) |}]
           (Some (fun _ _ => Normal (VNum 2))) (VNum 5)
           (VObj [("type", VStr "add")])
           [Some (fun s _ => Normal (VNum 1))]).
  reflexivity.
Defined.

(** X27: on a state that is neither a draft nor draftable and is not
    [null], the first case reducer that handles the action must return a
    state: when it returns [undefined] the reducer throws the error of
    lines 311-313, whatever the later case reducers would do. *)
Theorem undefined_on_primitive_throws
    (isDraft isDraftable : value -> bool)
    (createNextState : value -> (value -> completion) -> completion)
    (getInitialState : completion) (actionsMap : value -> option caseReducer)
    (actionMatchers : list ActionMatcherDescription)
    (defaultCaseReducer : option caseReducer) (state action s : value)
    (matched : list (option caseReducer)) (cr : caseReducer) :
  (if is_undefined state then getInitialState else Normal state) = Normal s ->
  is_undefined action = false -> is_null action = false ->
  matching action actionMatchers = inr matched ->
  isDraft s = false -> isDraftable s = false -> is_null s = false ->
  (actionsMap (get action "type") = Some cr
   \/ (actionsMap (get action "type") = None
       /\ exists rest, matched = Some cr :: rest)
   \/ (actionsMap (get action "type") = None /\ matched = []
       /\ defaultCaseReducer = Some cr)) ->
  cr s action = Normal VUndef ->
  reducer isDraft isDraftable createNextState getInitialState actionsMap
    actionMatchers defaultCaseReducer state action
  = NonDraftableUndefined.
Proof.
  intros Hs Hu Hn Hm Hd Hb Hnull Hfirst Hcr.
  rewrite (reducer_eq _ _ _ _ _ _ _ _ _ s matched Hs Hu Hn Hm).
  assert (Hstep : forall rest,
             reduce isDraft isDraftable createNextState action
               (Some cr :: rest) s = NonDraftableUndefined).
  { intros rest. simpl. now rewrite Hd, Hb, Hcr, Hnull. }
  destruct Hfirst as [->|[(-> & rest & ->)|(-> & -> & ->)]].
  - apply Hstep.
  - simpl. now rewrite Hd, Hb, Hcr, Hnull.
  - apply Hstep.
Qed.

Lemma undefined_on_primitive_throws_witness :
  reducer (fun _ => false) is_object (fun base recipe => recipe base)
    (Normal (VNum 0))
    (fun k => if is_str k "add" then Some (fun _ _ => Normal VUndef) else None)
    [{| matcher := fun _ => Normal (VBool true);
        reducer_of := fun _ _ => Normal (VNum 1) |}]
    None VUndef (VObj [("type", VStr "add")])
  = NonDraftableUndefined.
Proof.
  apply (undefined_on_primitive_throws (fun _ => false) is_object
           (fun base recipe => recipe base) (Normal (VNum 0))
           (fun k => if is_str k "add" then Some (fun _ _ => Normal VUndef)
                     else None)
           [{| matcher := fun _ => Normal (VBool true);
               reducer_of := fun _ _ => Normal (VNum 1) |}]
           None VUndef (VObj [("type", VStr "add")]) (VNum 0)
           [Some (fun _ _ => Normal (VNum 1))]
           (fun _ _ => Normal VUndef));
    try reflexivity.
  left. reflexivity.
Defined.

(** X28: the state [null] is the exception: case reducers that return
    [undefined] on it leave it as it is, and the reducer returns
    [null]. *)
Theorem null_state_tolerates_undefined
    (isDraft isDraftable : value -> bool)
    (createNextState : value -> (value -> completion) -> completion)
    (getInitialState : completion) (actionsMap : value -> option caseReducer)
    (actionMatchers : list ActionMatcherDescription)
    (defaultCaseReducer : option caseReducer) (state action : value)
    (matched : list (option caseReducer)) :
  (if is_undefined state then getInitialState else Normal state) = Normal VNull ->
  is_undefined action = false -> is_null action = false ->
  matching action actionMatchers = inr matched ->
  isDraft VNull = false -> isDraftable VNull = false ->
  (forall c,
      In (Some c)
        (actionsMap (get action "type") :: defaultCaseReducer :: matched) ->
      c VNull action = Normal VUndef) ->
  reducer isDraft isDraftable createNextState getInitialState actionsMap
    actionMatchers defaultCaseReducer state action
  = Next VNull.
Proof.
  intros Hs Hu Hn Hm Hd Hb Hall.
  rewrite (reducer_eq _ _ _ _ _ _ _ _ _ VNull matched Hs Hu Hn Hm).
  assert (H : forall l,
             incl l (actionsMap (get action "type")
                       :: defaultCaseReducer :: matched) ->
             reduce isDraft isDraftable createNextState action l VNull
             = Next VNull).
  { intros l Hl. apply reduce_undefined_on_null; auto.
    apply Forall_forall. intros x Hx c ->. apply Hall, Hl, Hx. }
  destruct (actionsMap (get action "type")) as [c|] eqn:Ha.
  - apply H. intros x [<-|Hx]; simpl; auto.
  - destruct matched as [|m rest].
    + apply H. intros x [<-|[]]; simpl; auto.
    + apply H. intros x [<-|Hx]; simpl; auto.
Qed.

Lemma null_state_tolerates_undefined_witness :
  reducer (fun _ => false) is_object (fun base recipe => recipe base)
    (Normal VNull)
    (fun k => if is_str k "add" then Some (fun _ _ => Normal VUndef) else None)
    [{| matcher := fun _ => Normal (VBool true);
        reducer_of := fun _ _ => Normal VUndef |}]
    None VUndef (VObj [("type", VStr "add")])
  = Next VNull.
Proof.
  apply (null_state_tolerates_undefined (fun _ => false) is_object
           (fun base recipe => recipe base) (Normal VNull)
           (fun k => if is_str k "add" then Some (fun _ _ => Normal VUndef)
                     else None)
           [{| matcher := fun _ => Normal (VBool true);
               reducer_of := fun _ _ => Normal VUndef |}]
           None VUndef (VObj [("type", VStr "add")])
           [Some (fun _ _ => Normal VUndef)]);
    try reflexivity.
  intros c [H|[H|[H|[]]]]; try discriminate; injection H as <-; reflexivity.
Defined.

(** * createSlice *)

Lemma getType_injective slice k1 k2 :
  getType slice k1 = getType slice k2 -> k1 = k2.
Proof.
  unfold getType. induction slice as [|c slice IH]; simpl; intros H.
  - now injection H.
  - injection H as H. auto.
Qed.

Section Tables.

Variable A : Type.
Implicit Types o l : list (string * A).

Lemma table_get_set k k' (v : A) o :
  table_get k (table_set k' v o)
  = if String.eqb k k' then Some v else table_get k o.
Proof.
  induction o as [|[k0 v0] o IH]; simpl.
  - reflexivity.
  - destruct (String.eqb k' k0) eqn:E0; simpl.
    + apply String.eqb_eq in E0. subst k0.
      destruct (String.eqb k k'); reflexivity.
    + rewrite IH. destruct (String.eqb k k') eqn:E; [|reflexivity].
      apply String.eqb_eq in E. subst k'. now rewrite E0.
Qed.

Lemma table_get_fold k l : forall o,
  ~ In k (map fst l) ->
  table_get k (fold_left (fun acc kv => table_set (fst kv) (snd kv) acc) l o)
  = table_get k o.
Proof.
  induction l as [|[k0 v0] l IH]; intros o H; simpl in *; auto.
  rewrite IH by tauto. rewrite table_get_set.
  destruct (String.eqb k k0) eqn:E; [|reflexivity].
  apply String.eqb_eq in E. subst. tauto.
Qed.

Lemma table_get_fold_in k (v : A) l : forall o,
  NoDup (map fst l) -> In (k, v) l ->
  table_get k (fold_left (fun acc kv => table_set (fst kv) (snd kv) acc) l o)
  = Some v.
Proof.
  induction l as [|[k0 v0] l IH]; intros o Hnd Hin; simpl in *; [tauto|].
  inversion Hnd as [|? ? Hk Hl]; subst.
  destruct Hin as [H|H].
  - injection H as -> ->. rewrite table_get_fold by exact Hk.
    rewrite table_get_set. now rewrite String.eqb_refl.
  - now apply IH.
Qed.

Lemma table_get_None k l : ~ In k (map fst l) -> table_get k l = None.
Proof.
  induction l as [|[k0 v0] l IH]; simpl; intros H; auto.
  destruct (String.eqb k k0) eqn:E.
  - apply String.eqb_eq in E. subst. tauto.
  - apply IH. tauto.
Qed.

Lemma table_set_keys k (v : A) o x :
  In x (map fst (table_set k v o)) <-> x = k \/ In x (map fst o).
Proof.
  induction o as [|[k0 v0] o IH]; simpl.
  - intuition.
  - destruct (String.eqb k k0) eqn:E; simpl.
    + apply String.eqb_eq in E. subst. intuition.
    + rewrite IH. intuition.
Qed.

Lemma table_set_NoDup k (v : A) o :
  NoDup (map fst o) -> NoDup (map fst (table_set k v o)).
Proof.
  induction o as [|[k0 v0] o IH]; simpl; intros H.
  - constructor; [tauto|constructor].
  - inversion H as [|? ? Hk Ho]; subst.
    destruct (String.eqb k k0) eqn:E; simpl.
    + apply String.eqb_eq in E. subst. now constructor.
    + constructor; auto. rewrite table_set_keys. intros [->|Hin]; auto.
      now rewrite String.eqb_refl in E.
Qed.

Lemma fold_set_NoDup l : forall o,
  NoDup (map fst o) ->
  NoDup (map fst
           (fold_left (fun acc kv => table_set (fst kv) (snd kv) acc) l o)).
Proof.
  induction l as [|[k v] l IH]; intros o H; simpl; auto.
  apply IH, table_set_NoDup, H.
Qed.

Lemma table_get_fold_table k l : forall o,
  NoDup (map fst l) ->
  table_get k (fold_left (fun acc kv => table_set (fst kv) (snd kv) acc) l o)
  = match table_get k l with Some v => Some v | None => table_get k o end.
Proof.
  induction l as [|[k0 v0] l IH]; intros o H; simpl in *; auto.
  inversion H as [|? ? Hk Hl]; subst.
  rewrite IH by exact Hl. rewrite table_get_set.
  destruct (String.eqb k k0) eqn:E; [|reflexivity].
  apply String.eqb_eq in E. subst. now rewrite table_get_None.
Qed.

(** In [{...a, ...b}] the properties of [b] win. *)
Lemma table_get_spread k (a b : list (string * A)) :
  NoDup (map fst b) ->
  table_get k (table_spread a b)
  = match table_get k b with
    | Some v => Some v
    | None => table_get k (table_spread a [])
    end.
Proof. intros H. unfold table_spread. now rewrite table_get_fold_table. Qed.

End Tables.

Section SliceTables.

Variable P : Type.
Variable name : string.

Lemma tables_fold (l : list (string * reducerDefinition P)) : forall t,
  sliceCaseReducersByType P
    (fold_left (forEach_body P name) l t)
  = fold_left (fun acc kv => table_set (fst kv) (snd kv) acc)
      (map (fun e => (getType name (fst e), case_of P (snd e))) l)
      (sliceCaseReducersByType P t)
  /\ sliceCaseReducersByName P (fold_left (forEach_body P name) l t)
     = fold_left (fun acc kv => table_set (fst kv) (snd kv) acc)
         (map (fun e => (fst e, case_of P (snd e))) l)
         (sliceCaseReducersByName P t).
Proof.
  induction l as [|[k d] l IH]; intros t; simpl; [auto|].
  destruct (IH (forEach_body P name t (k, d))) as [-> ->].
  destruct d; auto.
Qed.

Lemma types_NoDup (l : list (string * reducerDefinition P)) :
  NoDup (map fst l) ->
  NoDup (map fst
           (map (fun e => (getType name (fst e), case_of P (snd e))) l)).
Proof.
  rewrite map_map. simpl. induction l as [|[k d] l IH]; simpl; intros H.
  - constructor.
  - inversion H as [|? ? Hk Hl]; subst. constructor; auto.
    intros Hin. apply in_map_iff in Hin as ([k' d'] & E & Hin').
    apply getType_injective in E. simpl in E. subst k'.
    apply Hk. apply in_map_iff. now exists (k, d').
Qed.

End SliceTables.

(** X29: a slice files each of its case reducers under the type
    [name/key], and two keys of one slice never share a type; in the
    final table these case reducers win over the extra reducers
    registered for the same type. *)
Theorem slice_case_reducers_win (P : Type) (name : string)
    (reducers : list (string * reducerDefinition P))
    (extraReducers : list (string * caseReducer))
    (t : sliceTables P) (key : string) (d : reducerDefinition P) :
  createSlice_tables P name (Some reducers) = Some t ->
  NoDup (map fst reducers) ->
  In (key, d) reducers ->
  table_get (getType name key) (finalCaseReducers P extraReducers t)
  = Some (case_of P d)
  /\ table_get key (sliceCaseReducersByName P t) = Some (case_of P d)
  /\ (forall key', getType name key' = getType name key -> key' = key).
Proof.
  intros Ht Hnd Hin. unfold createSlice_tables in Ht.
  destruct (String.eqb name ""); [discriminate|]. injection Ht as <-.
  destruct (tables_fold P name reducers
              (Build_sliceTables P [] [] [])) as [Ety Ena].
  split; [|split].
  - unfold finalCaseReducers. rewrite table_get_spread.
    + rewrite Ety, (table_get_fold_in _ (getType name key) (case_of P d));
        [reflexivity|now apply types_NoDup|].
      apply in_map_iff. now exists (key, d).
    + rewrite Ety. apply fold_set_NoDup. constructor.
  - rewrite Ena. apply table_get_fold_in.
    + rewrite map_map. simpl. exact Hnd.
    + apply in_map_iff. now exists (key, d).
  - intros key'. apply getType_injective.
Qed.

Lemma slice_case_reducers_win_witness :
  table_get (getType "counter" "reset")
    (finalCaseReducers unit
       [("counter/reset", fun (_ _ : value) => Normal (VNum 9))]
       {| sliceCaseReducersByName :=
            [("add", fun (s _ : value) => Normal s); ("reset", fun (_ _ : value) => Normal (VNum 0))];
          sliceCaseReducersByType :=
            [("counter/add", fun (s _ : value) => Normal s);
             ("counter/reset", fun (_ _ : value) => Normal (VNum 0))];
          actionCreators :=
            [("add", {| call_type := "counter/add"; call_prepare := None |});
             ("reset", {| call_type := "counter/reset";
                          call_prepare := Some tt |})] |})
  = Some (fun (_ _ : value) => Normal (VNum 0))
  /\ table_get "reset"
       [("add", fun (s _ : value) => Normal s); ("reset", fun (_ _ : value) => Normal (VNum 0))]
     = Some (fun (_ _ : value) => Normal (VNum 0))
  /\ (forall key', getType "counter" key' = getType "counter" "reset" ->
      key' = "reset").
Proof.
  apply (slice_case_reducers_win unit "counter"
           [("add", CaseReducerFunction unit (fun (s _ : value) => Normal s));
            ("reset", CaseReducerWithPrepare unit (fun (_ _ : value) => Normal (VNum 0))
                        (Some tt))]
           [("counter/reset", fun (_ _ : value) => Normal (VNum 9))]
           {| sliceCaseReducersByName :=
                [("add", fun (s _ : value) => Normal s);
                 ("reset", fun (_ _ : value) => Normal (VNum 0))];
              sliceCaseReducersByType :=
                [("counter/add", fun (s _ : value) => Normal s);
                 ("counter/reset", fun (_ _ : value) => Normal (VNum 0))];
              actionCreators :=
                [("add", {| call_type := "counter/add"; call_prepare := None |});
                 ("reset", {| call_type := "counter/reset";
                              call_prepare := Some tt |})] |}
           "reset"
           (CaseReducerWithPrepare unit (fun (_ _ : value) => Normal (VNum 0)) (Some tt))).
  - reflexivity.
  - repeat constructor; simpl; intuition discriminate.
  - right. left. reflexivity.
Defined.
